(** * Dilithium core: the Keccak sponge of [fips202.c] and the vector layer
      of [polyvec.c], embedded in Rocq and checked against the specification.

    Lanes ([uint64_t]) are integers of [Z] in the range [0, 2^64); the only
    operations of the permutation that can leave that range in [Z], the left
    shift and the complement, carry their reduction modulo [2^64].  Bytes
    ([uint8_t]) are integers in [0, 256).  Byte cursors and loop counters
    ([unsigned int], [size_t]) are natural numbers.  A C array is a list, read
    with [!!!] and updated with [alter] and [<[_:=_]>]. *)

From Stdlib Require Import ZArith Lia String Ascii.
From stdpp Require Import base tactics option list numbers.

Local Open Scope Z_scope.

(** ** 64-bit lane operations *)

Module U64.

Definition modulus : Z := 2 ^ 64.

(** [~a] on a [uint64_t]. *)
Definition not (a : Z) : Z := Z.lnot a mod modulus.

(** [a << n] on a [uint64_t]: bits shifted past position 63 are lost. *)
Definition shl (a n : Z) : Z := Z.shiftl a n mod modulus.

(** The lanes a [uint64_t] can hold. *)
Definition wf (a : Z) : Prop := 0 <= a < modulus.

End U64.

Infix ".^" := Z.lxor (at level 40, left associativity) : Z_scope.
Infix ".&" := Z.land (at level 40, left associativity) : Z_scope.
Infix ".|" := Z.lor (at level 40, left associativity) : Z_scope.
Notation ".~ a" := (U64.not a) (at level 35, right associativity) : Z_scope.

(** [#define NROUNDS 24] *)
Definition NROUNDS : nat := 24.

(** [#define ROL(a, offset) ((a << offset) ^ (a >> (64-offset)))] *)
Definition ROL (a offset : Z) : Z := U64.shl a offset .^ Z.shiftr a (64 - offset).

(** [load64]: eight bytes, little-endian, into a lane. *)
Definition load64 (x : list Z) : Z :=
  foldl (fun r i => r .| Z.shiftl (x !!! i) (8 * Z.of_nat i)) 0 (seq 0 8).

(** [store64]: a lane into eight bytes, little-endian; the assignment to a
    [uint8_t] keeps the low eight bits. *)
Definition store64 (u : Z) : list Z :=
  map (fun i => Z.shiftr u (8 * Z.of_nat i) mod 256) (seq 0 8).

Definition KeccakF_RoundConstants : list Z :=
  [ 0x0000000000000001; 0x0000000000008082;
    0x800000000000808a; 0x8000000080008000;
    0x000000000000808b; 0x0000000080000001;
    0x8000000080008081; 0x8000000000008009;
    0x000000000000008a; 0x0000000000000088;
    0x0000000080008009; 0x000000008000000a;
    0x000000008000808b; 0x800000000000008b;
    0x8000000000008089; 0x8000000000008003;
    0x8000000000008002; 0x8000000000000080;
    0x000000000000800a; 0x800000008000000a;
    0x8000000080008081; 0x8000000000008080;
    0x0000000080000001; 0x8000000080008008 ].

(** ** The permutation, as [KeccakF1600_StatePermute] writes it

    One pass of the body of the [for] loop: two rounds, the first from the
    locals [A..] into the locals [E..], the second back into [A..].  The 25
    locals [Aba .. Asu] travel between passes as a list in the order of the
    state array. *)
Definition KeccakF1600_TwoRounds (round : nat) (state : list Z) : list Z :=
    let Aba := state !!! 0%nat in
    let Abe := state !!! 1%nat in
    let Abi := state !!! 2%nat in
    let Abo := state !!! 3%nat in
    let Abu := state !!! 4%nat in
    let Aga := state !!! 5%nat in
    let Age := state !!! 6%nat in
    let Agi := state !!! 7%nat in
    let Ago := state !!! 8%nat in
    let Agu := state !!! 9%nat in
    let Aka := state !!! 10%nat in
    let Ake := state !!! 11%nat in
    let Aki := state !!! 12%nat in
    let Ako := state !!! 13%nat in
    let Aku := state !!! 14%nat in
    let Ama := state !!! 15%nat in
    let Ame := state !!! 16%nat in
    let Ami := state !!! 17%nat in
    let Amo := state !!! 18%nat in
    let Amu := state !!! 19%nat in
    let Asa := state !!! 20%nat in
    let Ase := state !!! 21%nat in
    let Asi := state !!! 22%nat in
    let Aso := state !!! 23%nat in
    let Asu := state !!! 24%nat in
    (* --- round [round]: reads A, writes E --- *)
    (* theta, part 1: column parities *)
    let BCa := Aba .^ Aga .^ Aka .^ Ama .^ Asa in
    let BCe := Abe .^ Age .^ Ake .^ Ame .^ Ase in
    let BCi := Abi .^ Agi .^ Aki .^ Ami .^ Asi in
    let BCo := Abo .^ Ago .^ Ako .^ Amo .^ Aso in
    let BCu := Abu .^ Agu .^ Aku .^ Amu .^ Asu in
    (* theta, part 2: mixing values D, applied to every lane *)
    let Da := BCu .^ ROL BCe 1 in
    let De := BCa .^ ROL BCi 1 in
    let Di := BCe .^ ROL BCo 1 in
    let Do := BCi .^ ROL BCu 1 in
    let Du := BCo .^ ROL BCa 1 in
    let Aba := Aba .^ Da in
    let Age := Age .^ De in
    let Aki := Aki .^ Di in
    let Amo := Amo .^ Do in
    let Asu := Asu .^ Du in
    let Abo := Abo .^ Do in
    let Agu := Agu .^ Du in
    let Aka := Aka .^ Da in
    let Ame := Ame .^ De in
    let Asi := Asi .^ Di in
    let Abe := Abe .^ De in
    let Agi := Agi .^ Di in
    let Ako := Ako .^ Do in
    let Amu := Amu .^ Du in
    let Asa := Asa .^ Da in
    let Abu := Abu .^ Du in
    let Aga := Aga .^ Da in
    let Ake := Ake .^ De in
    let Ami := Ami .^ Di in
    let Aso := Aso .^ Do in
    let Abi := Abi .^ Di in
    let Ago := Ago .^ Do in
    let Aku := Aku .^ Du in
    let Ama := Ama .^ Da in
    let Ase := Ase .^ De in
    (* rho and pi, interleaved with chi; iota on the first lane *)
    let BCa := Aba in
    let BCe := ROL Age 44 in
    let BCi := ROL Aki 43 in
    let BCo := ROL Amo 21 in
    let BCu := ROL Asu 14 in
    let Eba := BCa .^ ((.~ BCe) .& BCi) in
    let Eba := Eba .^ (KeccakF_RoundConstants !!! round) in
    let Ebe := BCe .^ ((.~ BCi) .& BCo) in
    let Ebi := BCi .^ ((.~ BCo) .& BCu) in
    let Ebo := BCo .^ ((.~ BCu) .& BCa) in
    let Ebu := BCu .^ ((.~ BCa) .& BCe) in
    let BCa := ROL Abo 28 in
    let BCe := ROL Agu 20 in
    let BCi := ROL Aka 3 in
    let BCo := ROL Ame 45 in
    let BCu := ROL Asi 61 in
    let Ega := BCa .^ ((.~ BCe) .& BCi) in
    let Ege := BCe .^ ((.~ BCi) .& BCo) in
    let Egi := BCi .^ ((.~ BCo) .& BCu) in
    let Ego := BCo .^ ((.~ BCu) .& BCa) in
    let Egu := BCu .^ ((.~ BCa) .& BCe) in
    let BCa := ROL Abe 1 in
    let BCe := ROL Agi 6 in
    let BCi := ROL Ako 25 in
    let BCo := ROL Amu 8 in
    let BCu := ROL Asa 18 in
    let Eka := BCa .^ ((.~ BCe) .& BCi) in
    let Eke := BCe .^ ((.~ BCi) .& BCo) in
    let Eki := BCi .^ ((.~ BCo) .& BCu) in
    let Eko := BCo .^ ((.~ BCu) .& BCa) in
    let Eku := BCu .^ ((.~ BCa) .& BCe) in
    let BCa := ROL Abu 27 in
    let BCe := ROL Aga 36 in
    let BCi := ROL Ake 10 in
    let BCo := ROL Ami 15 in
    let BCu := ROL Aso 56 in
    let Ema := BCa .^ ((.~ BCe) .& BCi) in
    let Eme := BCe .^ ((.~ BCi) .& BCo) in
    let Emi := BCi .^ ((.~ BCo) .& BCu) in
    let Emo := BCo .^ ((.~ BCu) .& BCa) in
    let Emu := BCu .^ ((.~ BCa) .& BCe) in
    let BCa := ROL Abi 62 in
    let BCe := ROL Ago 55 in
    let BCi := ROL Aku 39 in
    let BCo := ROL Ama 41 in
    let BCu := ROL Ase 2 in
    let Esa := BCa .^ ((.~ BCe) .& BCi) in
    let Ese := BCe .^ ((.~ BCi) .& BCo) in
    let Esi := BCi .^ ((.~ BCo) .& BCu) in
    let Eso := BCo .^ ((.~ BCu) .& BCa) in
    let Esu := BCu .^ ((.~ BCa) .& BCe) in
    (* --- round [round+1]: reads E, writes A --- *)
    (* theta *)
    let BCa := Eba .^ Ega .^ Eka .^ Ema .^ Esa in
    let BCe := Ebe .^ Ege .^ Eke .^ Eme .^ Ese in
    let BCi := Ebi .^ Egi .^ Eki .^ Emi .^ Esi in
    let BCo := Ebo .^ Ego .^ Eko .^ Emo .^ Eso in
    let BCu := Ebu .^ Egu .^ Eku .^ Emu .^ Esu in
    let Da := BCu .^ ROL BCe 1 in
    let De := BCa .^ ROL BCi 1 in
    let Di := BCe .^ ROL BCo 1 in
    let Do := BCi .^ ROL BCu 1 in
    let Du := BCo .^ ROL BCa 1 in
    let Eba := Eba .^ Da in
    let Ege := Ege .^ De in
    let Eki := Eki .^ Di in
    let Emo := Emo .^ Do in
    let Esu := Esu .^ Du in
    let Ebo := Ebo .^ Do in
    let Egu := Egu .^ Du in
    let Eka := Eka .^ Da in
    let Eme := Eme .^ De in
    let Esi := Esi .^ Di in
    let Ebe := Ebe .^ De in
    let Egi := Egi .^ Di in
    let Eko := Eko .^ Do in
    let Emu := Emu .^ Du in
    let Esa := Esa .^ Da in
    let Ebu := Ebu .^ Du in
    let Ega := Ega .^ Da in
    let Eke := Eke .^ De in
    let Emi := Emi .^ Di in
    let Eso := Eso .^ Do in
    let Ebi := Ebi .^ Di in
    let Ego := Ego .^ Do in
    let Eku := Eku .^ Du in
    let Ema := Ema .^ Da in
    let Ese := Ese .^ De in
    (* rho, pi, chi and iota *)
    let BCa := Eba in
    let BCe := ROL Ege 44 in
    let BCi := ROL Eki 43 in
    let BCo := ROL Emo 21 in
    let BCu := ROL Esu 14 in
    let Aba := BCa .^ ((.~ BCe) .& BCi) in
    let Aba := Aba .^ (KeccakF_RoundConstants !!! (round + 1)%nat) in
    let Abe := BCe .^ ((.~ BCi) .& BCo) in
    let Abi := BCi .^ ((.~ BCo) .& BCu) in
    let Abo := BCo .^ ((.~ BCu) .& BCa) in
    let Abu := BCu .^ ((.~ BCa) .& BCe) in
    let BCa := ROL Ebo 28 in
    let BCe := ROL Egu 20 in
    let BCi := ROL Eka 3 in
    let BCo := ROL Eme 45 in
    let BCu := ROL Esi 61 in
    let Aga := BCa .^ ((.~ BCe) .& BCi) in
    let Age := BCe .^ ((.~ BCi) .& BCo) in
    let Agi := BCi .^ ((.~ BCo) .& BCu) in
    let Ago := BCo .^ ((.~ BCu) .& BCa) in
    let Agu := BCu .^ ((.~ BCa) .& BCe) in
    let BCa := ROL Ebe 1 in
    let BCe := ROL Egi 6 in
    let BCi := ROL Eko 25 in
    let BCo := ROL Emu 8 in
    let BCu := ROL Esa 18 in
    let Aka := BCa .^ ((.~ BCe) .& BCi) in
    let Ake := BCe .^ ((.~ BCi) .& BCo) in
    let Aki := BCi .^ ((.~ BCo) .& BCu) in
    let Ako := BCo .^ ((.~ BCu) .& BCa) in
    let Aku := BCu .^ ((.~ BCa) .& BCe) in
    let BCa := ROL Ebu 27 in
    let BCe := ROL Ega 36 in
    let BCi := ROL Eke 10 in
    let BCo := ROL Emi 15 in
    let BCu := ROL Eso 56 in
    let Ama := BCa .^ ((.~ BCe) .& BCi) in
    let Ame := BCe .^ ((.~ BCi) .& BCo) in
    let Ami := BCi .^ ((.~ BCo) .& BCu) in
    let Amo := BCo .^ ((.~ BCu) .& BCa) in
    let Amu := BCu .^ ((.~ BCa) .& BCe) in
    let BCa := ROL Ebi 62 in
    let BCe := ROL Ego 55 in
    let BCi := ROL Eku 39 in
    let BCo := ROL Ema 41 in
    let BCu := ROL Ese 2 in
    let Asa := BCa .^ ((.~ BCe) .& BCi) in
    let Ase := BCe .^ ((.~ BCi) .& BCo) in
    let Asi := BCi .^ ((.~ BCo) .& BCu) in
    let Aso := BCo .^ ((.~ BCu) .& BCa) in
    let Asu := BCu .^ ((.~ BCa) .& BCe) in
    [Aba; Abe; Abi; Abo; Abu; Aga; Age; Agi; Ago; Agu; Aka; Ake; Aki; Ako; Aku; Ama; Ame; Ami; Amo; Amu; Asa; Ase; Asi; Aso; Asu].

(** [for(round = 0; round < NROUNDS; round += 2)], with [n] the number of
    passes still to run. *)
Fixpoint KeccakF1600_Loop (n : nat) (round : nat) (A : list Z) : list Z :=
  match n with
  | O => A
  | S n' => KeccakF1600_Loop n' (round + 2) (KeccakF1600_TwoRounds round A)
  end.

(** The state array is copied into the locals, the loop runs [NROUNDS / 2]
    passes, and the locals are copied back. *)
Definition KeccakF1600_StatePermute (state : list Z) : list Z :=
  KeccakF1600_Loop (NROUNDS / 2) 0 state.

(** ** The sponge *)

(** [keccak_state]: the 25 lanes and the byte cursor. *)
Record keccak_state : Type := KeccakState { s : list Z; pos : nat }.

(** Modelled from the spec: the rates of [fips202.h], a header that is not
    among the sources ("SHAKE128_RATE = 168 B, SHAKE256_RATE = 136 B; SHA3-256
    uses rate 136 B, SHA3-512 uses rate 72 B"). *)
Definition SHAKE128_RATE : nat := 168.
Definition SHAKE256_RATE : nat := 136.
Definition SHA3_256_RATE : nat := 136.
Definition SHA3_512_RATE : nat := 72.

(** [keccak_init] *)
Definition keccak_init : list Z := replicate 25 0.

(** [s[i/8] ^= (uint64_t)b << 8*(i%8)] *)
Definition xor_byte (s : list Z) (i : nat) (b : Z) : list Z :=
  alter (fun lane => lane .^ Z.shiftl b (8 * Z.of_nat (i mod 8))) (i / 8)%nat s.

(** [for(i = pos; ...; i++) s[i/8] ^= (uint64_t)*in++ << 8*(i%8)], run over
    the bytes [bs] that the loop consumes. *)
Fixpoint xor_bytes (s : list Z) (i : nat) (bs : list Z) : list Z :=
  match bs with
  | [] => s
  | b :: bs' => xor_bytes (xor_byte s i b) (S i) bs'
  end.

(** [keccak_absorb].  The input pointer and its length are the list [inp]; a
    pass of the [while] loop consumes [r - pos] bytes, permutes and resets the
    cursor.  [fuel] bounds the number of passes, [None] is a loop that is still
    running when it is used up.  The model covers calls with [pos <= r] (every
    call of the file is one): beyond that the C subtraction [r - pos] wraps. *)
Fixpoint keccak_absorb_loop (fuel : nat) (s : list Z) (pos r : nat) (inp : list Z)
  : option (list Z * nat) :=
  if (r <=? pos + length inp)%nat then
    match fuel with
    | O => None
    | S fuel' =>
        let s := xor_bytes s pos (take (r - pos) inp) in
        let inp := drop (r - pos) inp in
        let s := KeccakF1600_StatePermute s in
        keccak_absorb_loop fuel' s 0 r inp
    end
  else Some (xor_bytes s pos inp, (pos + length inp)%nat).

Definition keccak_absorb (s : list Z) (pos r : nat) (inp : list Z) : option (list Z * nat) :=
  keccak_absorb_loop (S (length inp)) s pos r inp.

(** [keccak_finalize]; the index [r/8-1] is computed on [unsigned int]. *)
Definition keccak_finalize (s : list Z) (pos r : nat) (p : Z) : list Z :=
  let s := alter (fun lane => lane .^ Z.shiftl p (8 * Z.of_nat (pos mod 8))) (pos / 8)%nat s in
  alter (fun lane => lane .^ Z.shiftl 1 63) (Z.to_nat ((Z.of_nat (r / 8) - 1) mod 2 ^ 32)) s.

(** The bytes [s[i/8] >> 8*(i%8)] for [n] cursor positions from [pos] on. *)
Definition squeeze_bytes (s : list Z) (pos n : nat) : list Z :=
  map (fun i => Z.shiftr (s !!! (i / 8)%nat) (8 * Z.of_nat (i mod 8)) mod 256) (seq pos n).

(** [keccak_squeeze]: returns the bytes written to [out], the state and the
    new cursor.  The inner [for] runs [min (r - pos) outlen] times. *)
Fixpoint keccak_squeeze_loop (fuel : nat) (out : list Z) (outlen : nat)
    (s : list Z) (pos r : nat) : option (list Z * list Z * nat) :=
  match outlen with
  | O => Some (out, s, pos)
  | S _ =>
      match fuel with
      | O => None
      | S fuel' =>
          let '(s, pos) :=
            if (pos =? r)%nat then (KeccakF1600_StatePermute s, 0%nat) else (s, pos) in
          let n := ((r - pos) `min` outlen)%nat in
          keccak_squeeze_loop fuel' (out ++ squeeze_bytes s pos n) (outlen - n) s (pos + n) r
      end
  end.

Definition keccak_squeeze (outlen : nat) (s : list Z) (pos r : nat)
  : option (list Z * list Z * nat) :=
  keccak_squeeze_loop outlen [] outlen s pos r.

(** The [while(inlen >= r)] loop of [keccak_absorb_once]: whole blocks are
    XORed in lane by lane with [load64]. *)
Fixpoint keccak_absorb_once_loop (fuel : nat) (s : list Z) (r : nat) (inp : list Z)
  : option (list Z * list Z) :=
  if (r <=? length inp)%nat then
    match fuel with
    | O => None
    | S fuel' =>
        let s := foldl (fun s i => alter (fun lane => lane .^ load64 (drop (8 * i) inp)) i s)
                       s (seq 0 (r / 8)) in
        keccak_absorb_once_loop fuel' (KeccakF1600_StatePermute s) r (drop r inp)
    end
  else Some (s, inp).

(** [keccak_absorb_once] *)
Definition keccak_absorb_once (r : nat) (inp : list Z) (p : Z) : option (list Z) :=
  '(s, inp) ← keccak_absorb_once_loop (S (length inp)) keccak_init r inp;
  let s := xor_bytes s 0 inp in
  let i := length inp in
  let s := alter (fun lane => lane .^ Z.shiftl p (8 * Z.of_nat (i mod 8))) (i / 8)%nat s in
  Some (alter (fun lane => lane .^ Z.shiftl 1 63) ((r - 1) / 8)%nat s).

(** [keccak_squeezeblocks]: every block is a permutation followed by the
    [r/8] lanes of the rate window (the rates are multiples of 8, so a block
    is [r] bytes). *)
Fixpoint keccak_squeezeblocks (nblocks : nat) (s : list Z) (r : nat) : list Z * list Z :=
  match nblocks with
  | O => ([], s)
  | S n =>
      let s := KeccakF1600_StatePermute s in
      let block := flat_map (fun i => store64 (s !!! i)) (seq 0 (r / 8)) in
      let '(out, s) := keccak_squeezeblocks n s r in
      (block ++ out, s)
  end.

(** *** SHAKE128 and SHAKE256 *)

Definition shake128_init : keccak_state := KeccakState keccak_init 0.

Definition shake128_absorb (state : keccak_state) (inp : list Z) : option keccak_state :=
  '(s', pos') ← keccak_absorb (s state) (pos state) SHAKE128_RATE inp;
  Some (KeccakState s' pos').

Definition shake128_finalize (state : keccak_state) : keccak_state :=
  KeccakState (keccak_finalize (s state) (pos state) SHAKE128_RATE 0x1F) SHAKE128_RATE.

Definition shake128_squeeze (outlen : nat) (state : keccak_state)
  : option (list Z * keccak_state) :=
  '(out, s', pos') ← keccak_squeeze outlen (s state) (pos state) SHAKE128_RATE;
  Some (out, KeccakState s' pos').

Definition shake128_absorb_once (inp : list Z) : option keccak_state :=
  s' ← keccak_absorb_once SHAKE128_RATE inp 0x1F;
  Some (KeccakState s' SHAKE128_RATE).

Definition shake128_squeezeblocks (nblocks : nat) (state : keccak_state)
  : list Z * keccak_state :=
  let '(out, s') := keccak_squeezeblocks nblocks (s state) SHAKE128_RATE in
  (out, KeccakState s' (pos state)).

Definition shake256_init : keccak_state := KeccakState keccak_init 0.

Definition shake256_absorb (state : keccak_state) (inp : list Z) : option keccak_state :=
  '(s', pos') ← keccak_absorb (s state) (pos state) SHAKE256_RATE inp;
  Some (KeccakState s' pos').

Definition shake256_finalize (state : keccak_state) : keccak_state :=
  KeccakState (keccak_finalize (s state) (pos state) SHAKE256_RATE 0x1F) SHAKE256_RATE.

Definition shake256_squeeze (outlen : nat) (state : keccak_state)
  : option (list Z * keccak_state) :=
  '(out, s', pos') ← keccak_squeeze outlen (s state) (pos state) SHAKE256_RATE;
  Some (out, KeccakState s' pos').

Definition shake256_absorb_once (inp : list Z) : option keccak_state :=
  s' ← keccak_absorb_once SHAKE256_RATE inp 0x1F;
  Some (KeccakState s' SHAKE256_RATE).

Definition shake256_squeezeblocks (nblocks : nat) (state : keccak_state)
  : list Z * keccak_state :=
  let '(out, s') := keccak_squeezeblocks nblocks (s state) SHAKE256_RATE in
  (out, KeccakState s' (pos state)).

(** *** One-shot functions; the result is the content of [out] *)

Definition shake128 (outlen : nat) (inp : list Z) : option (list Z) :=
  state ← shake128_absorb_once inp;
  let nblocks := (outlen / SHAKE128_RATE)%nat in
  let '(out1, state) := shake128_squeezeblocks nblocks state in
  let outlen := (outlen - nblocks * SHAKE128_RATE)%nat in
  '(out2, _) ← shake128_squeeze outlen state;
  Some (out1 ++ out2).

Definition shake256 (outlen : nat) (inp : list Z) : option (list Z) :=
  state ← shake256_absorb_once inp;
  let nblocks := (outlen / SHAKE256_RATE)%nat in
  let '(out1, state) := shake256_squeezeblocks nblocks state in
  let outlen := (outlen - nblocks * SHAKE256_RATE)%nat in
  '(out2, _) ← shake256_squeeze outlen state;
  Some (out1 ++ out2).

Definition sha3_256 (inp : list Z) : option (list Z) :=
  s ← keccak_absorb_once SHA3_256_RATE inp 0x06;
  let s := KeccakF1600_StatePermute s in
  Some (flat_map (fun i => store64 (s !!! i)) (seq 0 4)).

Definition sha3_512 (inp : list Z) : option (list Z) :=
  s ← keccak_absorb_once SHA3_512_RATE inp 0x06;
  let s := KeccakF1600_StatePermute s in
  Some (flat_map (fun i => store64 (s !!! i)) (seq 0 8)).

(** Test vectors are written as hexadecimal strings. *)
Definition hex_digit (c : ascii) : Z :=
  let n := Z.of_nat (nat_of_ascii c) in
  if (48 <=? n) && (n <=? 57) then n - 48
  else if (97 <=? n) && (n <=? 102) then n - 87
  else 0.

Fixpoint hex (h : string) : list Z :=
  match h with
  | String hi (String lo rest) => (16 * hex_digit hi + hex_digit lo) :: hex rest
  | _ => []
  end.

(** ** The round function as the specification words it

    The state is a 5x5 matrix of lanes; lane [(x, y)] is entry [x + 5*y] of
    the state array. *)

Module Spec.

Definition lane (A : list Z) (x y : nat) : Z := A !!! (x + 5 * y)%nat.

(** The matrix whose lane [(x, y)] is [f x y]. *)
Definition matrix (f : nat -> nat -> Z) : list Z :=
  map (fun i => f (i mod 5)%nat (i / 5)%nat) (seq 0 25).

(** Rotate a 64-bit lane left by [n] positions, [0 <= n < 64]. *)
Definition rotl (a n : Z) : Z := U64.shl a n .| Z.shiftr a (64 - n).

(** theta: the parity of every column, then each lane XORed with the parity
    of the column to its left and the parity, rotated left by one, of the
    column to its right. *)
Definition parity (A : list Z) (x : nat) : Z :=
  lane A x 0 .^ lane A x 1 .^ lane A x 2 .^ lane A x 3 .^ lane A x 4.

Definition theta (A : list Z) : list Z :=
  let D x := parity A ((x + 4) mod 5) .^ rotl (parity A ((x + 1) mod 5)) 1 in
  matrix (fun x y => lane A x y .^ D x).

(** The standard rotation offsets, row [y] of the table holding the lanes
    [(0, y) .. (4, y)]. *)
Definition rho_offsets : list Z :=
  [  0;  1; 62; 28; 27;
    36; 44;  6; 55; 20;
     3; 10; 43; 25; 39;
    41; 45; 15; 21;  8;
    18;  2; 61; 56; 14 ].

(** rho: every lane rotated left by its offset. *)
Definition rho (A : list Z) : list Z :=
  matrix (fun x y => rotl (lane A x y) (rho_offsets !!! (x + 5 * y)%nat)).

(** pi: lane [(x, y)] moves to [(y, 2x + 3y mod 5)]. *)
Definition pi (A : list Z) : list Z :=
  foldl (fun B i =>
           let x := (i mod 5)%nat in
           let y := (i / 5)%nat in
           <[ (y + 5 * ((2 * x + 3 * y) mod 5))%nat := lane A x y ]> B)
        A (seq 0 25).

(** chi: along each row, [a <- a XOR ((NOT b) AND c)] with [b], [c] the next
    two lanes of the row. *)
Definition chi (A : list Z) : list Z :=
  matrix (fun x y =>
            lane A x y .^ ((.~ lane A ((x + 1) mod 5) y) .& lane A ((x + 2) mod 5) y)).

(** iota: the round constant XORed into lane (0,0). *)
Definition iota (round : nat) (A : list Z) : list Z :=
  alter (fun a => a .^ (KeccakF_RoundConstants !!! round)) 0%nat A.

Definition round (i : nat) (A : list Z) : list Z :=
  iota i (chi (pi (rho (theta A)))).

(** Rounds [0 .. 23], in order. *)
Definition keccak_f (A : list Z) : list Z :=
  foldl (fun A i => round i A) A (seq 0 24).

End Spec.

(** A well-formed state array: 25 lanes, each a [uint64_t]. *)
Definition state_wf (A : list Z) : Prop :=
  length A = 25%nat /\ Forall U64.wf A.

(** One round of the loop body on its own: theta, rho and pi, chi and iota
    from the lanes [A..] into the lanes [E..], with [rc] the round constant.
    [KeccakF1600_TwoRounds] is two of them (lemma [TwoRounds_Round]). *)
Definition KeccakF1600_Round (rc : Z) (A : list Z) : list Z :=
    let Aba := A !!! 0%nat in
    let Abe := A !!! 1%nat in
    let Abi := A !!! 2%nat in
    let Abo := A !!! 3%nat in
    let Abu := A !!! 4%nat in
    let Aga := A !!! 5%nat in
    let Age := A !!! 6%nat in
    let Agi := A !!! 7%nat in
    let Ago := A !!! 8%nat in
    let Agu := A !!! 9%nat in
    let Aka := A !!! 10%nat in
    let Ake := A !!! 11%nat in
    let Aki := A !!! 12%nat in
    let Ako := A !!! 13%nat in
    let Aku := A !!! 14%nat in
    let Ama := A !!! 15%nat in
    let Ame := A !!! 16%nat in
    let Ami := A !!! 17%nat in
    let Amo := A !!! 18%nat in
    let Amu := A !!! 19%nat in
    let Asa := A !!! 20%nat in
    let Ase := A !!! 21%nat in
    let Asi := A !!! 22%nat in
    let Aso := A !!! 23%nat in
    let Asu := A !!! 24%nat in
    (* theta, part 1: column parities *)
    let BCa := Aba .^ Aga .^ Aka .^ Ama .^ Asa in
    let BCe := Abe .^ Age .^ Ake .^ Ame .^ Ase in
    let BCi := Abi .^ Agi .^ Aki .^ Ami .^ Asi in
    let BCo := Abo .^ Ago .^ Ako .^ Amo .^ Aso in
    let BCu := Abu .^ Agu .^ Aku .^ Amu .^ Asu in
    (* theta, part 2: mixing values D, applied to every lane *)
    let Da := BCu .^ ROL BCe 1 in
    let De := BCa .^ ROL BCi 1 in
    let Di := BCe .^ ROL BCo 1 in
    let Do := BCi .^ ROL BCu 1 in
    let Du := BCo .^ ROL BCa 1 in
    let Aba := Aba .^ Da in
    let Age := Age .^ De in
    let Aki := Aki .^ Di in
    let Amo := Amo .^ Do in
    let Asu := Asu .^ Du in
    let Abo := Abo .^ Do in
    let Agu := Agu .^ Du in
    let Aka := Aka .^ Da in
    let Ame := Ame .^ De in
    let Asi := Asi .^ Di in
    let Abe := Abe .^ De in
    let Agi := Agi .^ Di in
    let Ako := Ako .^ Do in
    let Amu := Amu .^ Du in
    let Asa := Asa .^ Da in
    let Abu := Abu .^ Du in
    let Aga := Aga .^ Da in
    let Ake := Ake .^ De in
    let Ami := Ami .^ Di in
    let Aso := Aso .^ Do in
    let Abi := Abi .^ Di in
    let Ago := Ago .^ Do in
    let Aku := Aku .^ Du in
    let Ama := Ama .^ Da in
    let Ase := Ase .^ De in
    (* rho and pi, interleaved with chi; iota on the first lane *)
    let BCa := Aba in
    let BCe := ROL Age 44 in
    let BCi := ROL Aki 43 in
    let BCo := ROL Amo 21 in
    let BCu := ROL Asu 14 in
    let Eba := BCa .^ ((.~ BCe) .& BCi) in
    let Eba := Eba .^ rc in
    let Ebe := BCe .^ ((.~ BCi) .& BCo) in
    let Ebi := BCi .^ ((.~ BCo) .& BCu) in
    let Ebo := BCo .^ ((.~ BCu) .& BCa) in
    let Ebu := BCu .^ ((.~ BCa) .& BCe) in
    let BCa := ROL Abo 28 in
    let BCe := ROL Agu 20 in
    let BCi := ROL Aka 3 in
    let BCo := ROL Ame 45 in
    let BCu := ROL Asi 61 in
    let Ega := BCa .^ ((.~ BCe) .& BCi) in
    let Ege := BCe .^ ((.~ BCi) .& BCo) in
    let Egi := BCi .^ ((.~ BCo) .& BCu) in
    let Ego := BCo .^ ((.~ BCu) .& BCa) in
    let Egu := BCu .^ ((.~ BCa) .& BCe) in
    let BCa := ROL Abe 1 in
    let BCe := ROL Agi 6 in
    let BCi := ROL Ako 25 in
    let BCo := ROL Amu 8 in
    let BCu := ROL Asa 18 in
    let Eka := BCa .^ ((.~ BCe) .& BCi) in
    let Eke := BCe .^ ((.~ BCi) .& BCo) in
    let Eki := BCi .^ ((.~ BCo) .& BCu) in
    let Eko := BCo .^ ((.~ BCu) .& BCa) in
    let Eku := BCu .^ ((.~ BCa) .& BCe) in
    let BCa := ROL Abu 27 in
    let BCe := ROL Aga 36 in
    let BCi := ROL Ake 10 in
    let BCo := ROL Ami 15 in
    let BCu := ROL Aso 56 in
    let Ema := BCa .^ ((.~ BCe) .& BCi) in
    let Eme := BCe .^ ((.~ BCi) .& BCo) in
    let Emi := BCi .^ ((.~ BCo) .& BCu) in
    let Emo := BCo .^ ((.~ BCu) .& BCa) in
    let Emu := BCu .^ ((.~ BCa) .& BCe) in
    let BCa := ROL Abi 62 in
    let BCe := ROL Ago 55 in
    let BCi := ROL Aku 39 in
    let BCo := ROL Ama 41 in
    let BCu := ROL Ase 2 in
    let Esa := BCa .^ ((.~ BCe) .& BCi) in
    let Ese := BCe .^ ((.~ BCi) .& BCo) in
    let Esi := BCi .^ ((.~ BCo) .& BCu) in
    let Eso := BCo .^ ((.~ BCu) .& BCa) in
    let Esu := BCu .^ ((.~ BCa) .& BCe) in
    [Eba; Ebe; Ebi; Ebo; Ebu; Ega; Ege; Egi; Ego; Egu; Eka; Eke; Eki; Eko; Eku; Ema; Eme; Emi; Emo; Emu; Esa; Ese; Esi; Eso; Esu].

(** ** Absorption, byte by byte

    The sponge as the specification describes it ("XOR incoming bytes into
    the state at the cursor; whenever the cursor reaches the rate, permute and
    reset"), one byte at a time.  [keccak_absorb] is proved equal to it. *)

Definition absorb_byte (r : nat) (st : list Z * nat) (b : Z) : list Z * nat :=
  let s' := xor_byte st.1 st.2 b in
  if (S st.2 =? r)%nat then (KeccakF1600_StatePermute s', 0%nat) else (s', S st.2).

Definition absorb_bytes (r : nat) (st : list Z * nat) (bs : list Z) : list Z * nat :=
  foldl (absorb_byte r) st bs.

(** * The vector layer ([params.h], [poly.h], [polyvec.c]) *)

(** [DILITHIUM_MODE] selects the parameter set when the code is compiled. *)
Inductive DILITHIUM_MODE : Set := MODE2 | MODE3 | MODE5.

Definition N : nat := 256.
Definition Q : Z := 8380417.

Definition K (mode : DILITHIUM_MODE) : nat :=
  match mode with MODE2 => 4 | MODE3 => 6 | MODE5 => 8 end.

Definition L (mode : DILITHIUM_MODE) : nat :=
  match mode with MODE2 => 4 | MODE3 => 5 | MODE5 => 7 end.

(** [poly]: the coefficients; [polyvecl], [polyveck]: [L] and [K] of them. *)
Definition poly : Type := list Z.
Abbreviation polyvecl := (list poly) (only parsing).
Abbreviation polyveck := (list poly) (only parsing).

(** The functions that [poly.h] declares and [polyvec.c] calls.  Their bodies
    ([poly.c]) are not among the sources: the vector layer is verified for
    every implementation of the interface.  An output parameter is the value
    returned. *)
Class PolyOps : Type := {
  poly_add : poly -> poly -> poly;
  poly_pointwise_montgomery : poly -> poly -> poly;
  poly_make_hint : poly -> poly -> poly * Z;
  poly_chknorm : poly -> Z -> Z;
  poly_uniform : list Z -> Z -> poly;
  poly_uniform_eta : list Z -> Z -> poly;
  poly_uniform_gamma1 : list Z -> Z -> poly
}.

(** A value passed for a [uint16_t] parameter is converted modulo [2^16]. *)
Definition uint16 (z : Z) : Z := z mod 2 ^ 16.

(** [unsigned int] addition. *)
Definition uadd32 (a b : Z) : Z := (a + b) mod 2 ^ 32.

(** [for(i = lo; i < hi; ++i) body], the body a transformer of the variables
    the loop changes. *)
Definition for_loop {St : Type} (lo hi : nat) (body : nat -> St -> St) (st : St) : St :=
  foldl (fun st i => body i st) st (seq lo (hi - lo)).

(** The sum of a list of integers. *)
Definition sumZ (l : list Z) : Z := foldr Z.add 0 l.

(** What a run of [polyvecl_chknorm] or [polyveck_chknorm] does, in order. *)
Inductive op : Set :=
| OpChknorm (i : nat)      (* the call [poly_chknorm(&v->vec[i], bound)] *)
| OpBranch (taken : bool)  (* the test of the [if] on its result *)
| OpReturn (r : Z).        (* [return r] *)

Section VectorLayer.

Context `{ops : PolyOps}.
Variable mode : DILITHIUM_MODE.

(** [polyvec_matrix_expand]: [mat[i].vec[j]] is overwritten for every [i],
    [j]; the nonce [(i << 8) + j] is an [unsigned int], passed for a
    [uint16_t]. *)
Definition polyvec_matrix_expand (mat : list polyvecl) (rho : list Z) : list polyvecl :=
  for_loop 0 (K mode) (fun i mat =>
    for_loop 0 (L mode) (fun j mat =>
      alter (fun row =>
               <[j := poly_uniform rho (uint16 (uadd32 (Z.shiftl (Z.of_nat i) 8) (Z.of_nat j)))]> row)
            i mat) mat) mat.

(** [polyvecl_pointwise_acc_montgomery]: returns [w]. *)
Definition polyvecl_pointwise_acc_montgomery (u v : polyvecl) : poly :=
  let w := poly_pointwise_montgomery (u !!! 0%nat) (v !!! 0%nat) in
  for_loop 1 (L mode) (fun i w =>
    let t := poly_pointwise_montgomery (u !!! i) (v !!! i) in
    poly_add w t) w.

(** [polyvec_matrix_pointwise_montgomery] *)
Definition polyvec_matrix_pointwise_montgomery
    (t : polyveck) (mat : list polyvecl) (v : polyvecl) : polyveck :=
  for_loop 0 (K mode) (fun i t =>
    <[i := polyvecl_pointwise_acc_montgomery (mat !!! i) v]> t) t.

(** [polyvecl_uniform_eta]: the loop changes [v] and the local [nonce]. *)
Definition polyvecl_uniform_eta (v : polyvecl) (seed : list Z) (nonce : Z) : polyvecl :=
  (for_loop 0 (L mode) (fun i '(v, nonce) =>
     (<[i := poly_uniform_eta seed nonce]> v, uint16 (nonce + 1))) (v, nonce)).1.

(** [polyvecl_uniform_gamma1]: [L*nonce + i] is an [unsigned int], passed
    for a [uint16_t]. *)
Definition polyvecl_uniform_gamma1 (v : polyvecl) (seed : list Z) (nonce : Z) : polyvecl :=
  for_loop 0 (L mode) (fun i v =>
    <[i := poly_uniform_gamma1 seed
             (uint16 (uadd32 (Z.of_nat (L mode) * nonce) (Z.of_nat i)))]> v) v.

(** [polyveck_uniform_eta] *)
Definition polyveck_uniform_eta (v : polyveck) (seed : list Z) (nonce : Z) : polyveck :=
  (for_loop 0 (K mode) (fun i '(v, nonce) =>
     (<[i := poly_uniform_eta seed nonce]> v, uint16 (nonce + 1))) (v, nonce)).1.

(** The loop of the two norm checks, from index [i] with [n] components still
    to visit: [if(poly_chknorm(&v->vec[i], bound)) return 1;] leaves the
    function, falling out of the loop reaches [return 0].  The run is returned
    as the operations performed and the value. *)
Fixpoint chknorm_loop (n i : nat) (v : list poly) (bound : Z) : list op * Z :=
  match n with
  | O => ([OpReturn 0], 0)
  | S n' =>
      if bool_decide (poly_chknorm (v !!! i) bound <> 0)
      then ([OpChknorm i; OpBranch true; OpReturn 1], 1)
      else let '(tr, r) := chknorm_loop n' (S i) v bound in
           (OpChknorm i :: OpBranch false :: tr, r)
  end.

(** [polyvecl_chknorm] *)
Definition polyvecl_chknorm (v : polyvecl) (bound : Z) : Z :=
  (chknorm_loop (L mode) 0 v bound).2.

(** [polyveck_chknorm] *)
Definition polyveck_chknorm (v : polyveck) (bound : Z) : Z :=
  (chknorm_loop (K mode) 0 v bound).2.

Definition polyvecl_chknorm_ops (v : polyvecl) (bound : Z) : list op :=
  (chknorm_loop (L mode) 0 v bound).1.

Definition polyveck_chknorm_ops (v : polyveck) (bound : Z) : list op :=
  (chknorm_loop (K mode) 0 v bound).1.

(** [polyveck_make_hint]: returns [h] and the [unsigned int] sum [s]. *)
Definition polyveck_make_hint (h v0 v1 : polyveck) : polyveck * Z :=
  for_loop 0 (K mode) (fun i '(h, s) =>
    let '(hi, n) := poly_make_hint (v0 !!! i) (v1 !!! i) in
    (<[i := hi]> h, uadd32 s n)) (h, 0).

(** The dot product as the specification words it, [t = sum_j pointwise(u[j],
    v[j])]: the products of the components, index by index, the first one
    assigned and the others added to it in order; [None] for no component. *)
Definition dot_product (u v : polyvecl) : option poly :=
  match zip_with poly_pointwise_montgomery u v with
  | [] => None
  | p :: ps => Some (foldl poly_add p ps)
  end.

(** The contract the specification states for [poly_chknorm], "returns 1 iff
    some centered |a[i]| >= B": the input is assumed centrally reduced, so
    the centered absolute value of a coefficient is its absolute value. *)
Definition poly_chknorm_contract : Prop :=
  forall (a : poly) (B : Z),
    poly_chknorm a B <> 0 <-> exists c, c ∈ a /\ B <= Z.abs c.

(** The index of the first polynomial of [v] that [poly_chknorm] rejects. *)
Definition first_violation (v : list poly) (bound : Z) : option nat :=
  fst <$> list_find (fun a => poly_chknorm a bound <> 0) v.

(** The operations of a norm check over [n] polynomials whose first rejected
    polynomial is [fv]: the polynomials before it are checked and passed, it is
    checked and the function returns 1; with none rejected all [n] are checked
    and the function returns 0. *)
Definition chknorm_ops_of (n : nat) (fv : option nat) : list op :=
  let passed k := flat_map (fun i => [OpChknorm i; OpBranch false]) (seq 0 k) in
  match fv with
  | Some k => passed k ++ [OpChknorm k; OpBranch true; OpReturn 1]
  | None => passed n ++ [OpReturn 0]
  end.

(** The number of coefficients 1 of a hint polynomial. *)
Definition popcount (h : poly) : Z :=
  Z.of_nat (length (filter (fun c => c = 1) h)).

End VectorLayer.

(** ** An implementation of the interface, from the specification

    [poly.c] is not among the sources.  The functions below follow the words
    of the specification and give the interface an instance on which the
    theorems of the vector layer can be run. *)

Module SpecPoly.

Definition ETA (mode : DILITHIUM_MODE) : Z :=
  match mode with MODE2 => 2 | MODE3 => 4 | MODE5 => 2 end.

Definition GAMMA1 (mode : DILITHIUM_MODE) : Z :=
  match mode with MODE2 => 2 ^ 17 | MODE3 => 2 ^ 19 | MODE5 => 2 ^ 19 end.

Definition GAMMA2 (mode : DILITHIUM_MODE) : Z :=
  match mode with MODE2 => (Q - 1) / 88 | MODE3 => (Q - 1) / 32 | MODE5 => (Q - 1) / 32 end.

Definition POLYZ_PACKEDBYTES (mode : DILITHIUM_MODE) : nat :=
  match mode with MODE2 => 576 | MODE3 => 640 | MODE5 => 640 end.

Definition QINV : Z := 58728449.

(** Modelled from the spec: Montgomery reduce, "t = (int32)(a * QINV mod
    2^32); r = (a - t*Q) >> 32". *)
Definition montgomery_reduce (a : Z) : Z :=
  let t := (a * QINV + 2 ^ 31) mod 2 ^ 32 - 2 ^ 31 in
  Z.shiftr (a - t * Q) 32.

(** Modelled from the spec: add, "c[i] = a[i] + b[i]". *)
Definition poly_add (a b : poly) : poly := zip_with Z.add a b.

(** Modelled from the spec: pointwise, "c[i] = mont_reduce(a[i]*b[i])". *)
Definition poly_pointwise_montgomery (a b : poly) : poly :=
  zip_with (fun x y => montgomery_reduce (x * y)) a b.

(** Modelled from the spec: chknorm, "return 1 if any |t| >= B, else 0", on
    centrally reduced input. *)
Definition poly_chknorm (a : poly) (B : Z) : Z :=
  if existsb (fun c => B <=? Z.abs c) a then 1 else 0.

(** Modelled from the spec: make_hint, "returns 1 iff a0 > GAMMA2 OR a0 <
    -GAMMA2 OR (a0 = -GAMMA2 AND a1 <> 0)", coefficient by coefficient, with
    the number of ones. *)
Definition make_hint (mode : DILITHIUM_MODE) (a0 a1 : Z) : Z :=
  if (GAMMA2 mode <? a0) || (a0 <? - GAMMA2 mode)
     || ((a0 =? - GAMMA2 mode) && negb (a1 =? 0))
  then 1 else 0.

Definition poly_make_hint (mode : DILITHIUM_MODE) (a0 a1 : poly) : poly * Z :=
  let h := zip_with (make_hint mode) a0 a1 in
  (h, Z.of_nat (length (filter (fun c => c = 1) h))).

(** The 16-bit nonce, little-endian, after the seed. *)
Definition with_nonce (seed : list Z) (nonce : Z) : list Z :=
  seed ++ [nonce mod 256; (nonce / 256) mod 256].

(** Modelled from the spec: uniform, "consume 3 bytes at a time into a
    23-bit integer t = b0 | b1<<8 | (b2 & 0x7F)<<16; accept if t < Q,
    otherwise reject". *)
Fixpoint rej_uniform (bytes : list Z) : list Z :=
  match bytes with
  | b0 :: b1 :: b2 :: rest =>
      let t := b0 .| Z.shiftl b1 8 .| Z.shiftl (b2 .& 0x7F) 16 in
      if t <? Q then t :: rej_uniform rest else rej_uniform rest
  | _ => []
  end.

(** Modelled from the spec: uniform, "absorb rho || nonce_le16 into
    SHAKE128, then squeeze blocks ... stop when N coefficients are produced".
    Six blocks of the stream are squeezed here. *)
Definition poly_uniform (rho : list Z) (nonce : Z) : poly :=
  take N (rej_uniform (default [] (shake128 (6 * SHAKE128_RATE) (with_nonce rho nonce)))).

(** Modelled from the spec: uniform-eta, "per nibble: when ETA = 2, accept
    nibbles < 15 and map coefficient <- 2 - (nibble mod 5); when ETA = 4,
    accept nibbles < 9 and map coefficient <- 4 - nibble".  The low nibble of
    a byte comes first. *)
Definition rej_eta (mode : DILITHIUM_MODE) (bytes : list Z) : list Z :=
  flat_map (fun b =>
    flat_map (fun t =>
      if ETA mode =? 2
      then (if t <? 15 then [2 - t mod 5] else [])
      else (if t <? 9 then [4 - t] else []))
      [b mod 16; b / 16]) bytes.

(** Modelled from the spec: uniform-eta, "absorb seed || nonce_le16 into
    SHAKE256".  Four blocks of the stream are squeezed here. *)
Definition poly_uniform_eta (mode : DILITHIUM_MODE) (seed : list Z) (nonce : Z) : poly :=
  take N (rej_eta mode (default [] (shake256 (4 * SHAKE256_RATE) (with_nonce seed nonce)))).

(** Modelled from the spec: z packing, "little-endian, coefficient order
    preserved, no padding bits", 18 bits a coefficient for GAMMA1 = 2^17 and
    20 for 2^19, "map c <- GAMMA1 - c"; unpack is the inverse. *)
Definition polyz_unpack (mode : DILITHIUM_MODE) (bytes : list Z) : poly :=
  let bits := Z.log2 (GAMMA1 mode) + 1 in
  let stream := foldr (fun b acc => b + 256 * acc) 0 bytes in
  map (fun i => GAMMA1 mode - Z.shiftr stream (bits * Z.of_nat i) mod 2 ^ bits) (seq 0 N).

(** Modelled from the spec: uniform-gamma1, "absorb seed || nonce_le16 into
    SHAKE256, then squeeze exactly POLYZ_PACKEDBYTES bytes and invoke
    z_unpack on the result". *)
Definition poly_uniform_gamma1 (mode : DILITHIUM_MODE) (seed : list Z) (nonce : Z) : poly :=
  polyz_unpack mode (default [] (shake256 (POLYZ_PACKEDBYTES mode) (with_nonce seed nonce))).

Definition ops (mode : DILITHIUM_MODE) : PolyOps :=
  Build_PolyOps poly_add poly_pointwise_montgomery (poly_make_hint mode) poly_chknorm
                poly_uniform (poly_uniform_eta mode) (poly_uniform_gamma1 mode).

End SpecPoly.


(** * More of the code: auxiliary definitions *)

(** The values a [uint8_t] can hold. *)
Definition byte_wf (b : Z) : Prop := 0 <= b < 256.

(** ** Squeezing, byte by byte

    The sponge output one byte at a time: at the end of the rate window the
    state is permuted and the cursor reset, then the byte at the cursor is
    emitted.  [keccak_squeeze] is proved equal to it. *)
Definition squeeze_byte (r : nat) (st : list Z * nat) : Z * (list Z * nat) :=
  let '(s, pos) :=
    if (st.2 =? r)%nat then (KeccakF1600_StatePermute st.1, 0%nat) else st in
  (Z.shiftr (s !!! (pos / 8)%nat) (8 * Z.of_nat (pos mod 8)) mod 256, (s, S pos)).

Fixpoint squeeze_stream (n : nat) (r : nat) (st : list Z * nat) : list Z * (list Z * nat) :=
  match n with
  | O => ([], st)
  | S n' =>
      let '(b, st) := squeeze_byte r st in
      let '(out, st) := squeeze_stream n' r st in
      (b :: out, st)
  end.

(** Byte [j] of the state, as [keccak_squeeze] reads it:
    [s[j/8] >> 8*(j%8)], kept to eight bits. *)
Definition state_byte (s : list Z) (j : nat) : Z :=
  Z.shiftr (s !!! (j / 8)%nat) (8 * Z.of_nat (j mod 8)) mod 256.

(** ** The rest of the vector layer

    The other functions of [poly.h] that [polyvec.c] calls. *)
Class PolyMoreOps : Type := {
  poly_reduce : poly -> poly;
  poly_caddq : poly -> poly;
  poly_sub : poly -> poly -> poly;
  poly_shiftl : poly -> poly;
  poly_ntt : poly -> poly;
  poly_invntt_tomont : poly -> poly;
  poly_power2round : poly -> poly * poly;  (* a1, a0 *)
  poly_decompose : poly -> poly * poly;    (* a1, a0 *)
  poly_use_hint : poly -> poly -> poly;
  polyw1_pack : poly -> list Z
}.

(** [POLYW1_PACKEDBYTES] of [params.h]: 192 for GAMMA2 = (Q-1)/88 (level 2),
    128 for GAMMA2 = (Q-1)/32. *)
Definition POLYW1_PACKEDBYTES (mode : DILITHIUM_MODE) : nat :=
  match mode with MODE2 => 192 | MODE3 => 128 | MODE5 => 128 end.

(** The vectors a call can point to, by address: two pointer arguments that
    are the same address are the same vector.  [vec_read mem p i] is
    [p->vec[i]], [vec_write mem p i x] the assignment to it.  A function of
    [poly.h] reads its input polynomials and returns what it stores in its
    output polynomials. *)
Definition vec_read (mem : list (list poly)) (p i : nat) : poly := (mem !!! p) !!! i.

Definition vec_write (mem : list (list poly)) (p i : nat) (x : poly) : list (list poly) :=
  alter (fun vec => <[i := x]> vec) p mem.

Section VectorLayerMore.

Context `{ops : PolyOps} `{more : PolyMoreOps}.
Variable mode : DILITHIUM_MODE.

(** *** In place, polynomial by polynomial *)

Definition polyvecl_reduce (v : polyvecl) : polyvecl :=
  for_loop 0 (L mode) (fun i v => alter poly_reduce i v) v.

Definition polyvecl_ntt (v : polyvecl) : polyvecl :=
  for_loop 0 (L mode) (fun i v => alter poly_ntt i v) v.

Definition polyvecl_invntt_tomont (v : polyvecl) : polyvecl :=
  for_loop 0 (L mode) (fun i v => alter poly_invntt_tomont i v) v.

Definition polyveck_reduce (v : polyveck) : polyveck :=
  for_loop 0 (K mode) (fun i v => alter poly_reduce i v) v.

Definition polyveck_caddq (v : polyveck) : polyveck :=
  for_loop 0 (K mode) (fun i v => alter poly_caddq i v) v.

Definition polyveck_shiftl (v : polyveck) : polyveck :=
  for_loop 0 (K mode) (fun i v => alter poly_shiftl i v) v.

Definition polyveck_ntt (v : polyveck) : polyveck :=
  for_loop 0 (K mode) (fun i v => alter poly_ntt i v) v.

Definition polyveck_invntt_tomont (v : polyveck) : polyveck :=
  for_loop 0 (K mode) (fun i v => alter poly_invntt_tomont i v) v.

(** *** From two vectors into a third, the three given by address *)

Definition polyvecl_add (mem : list (list poly)) (w u v : nat) : list (list poly) :=
  for_loop 0 (L mode) (fun i mem =>
    vec_write mem w i (poly_add (vec_read mem u i) (vec_read mem v i))) mem.

Definition polyveck_add (mem : list (list poly)) (w u v : nat) : list (list poly) :=
  for_loop 0 (K mode) (fun i mem =>
    vec_write mem w i (poly_add (vec_read mem u i) (vec_read mem v i))) mem.

Definition polyveck_sub (mem : list (list poly)) (w u v : nat) : list (list poly) :=
  for_loop 0 (K mode) (fun i mem =>
    vec_write mem w i (poly_sub (vec_read mem u i) (vec_read mem v i))) mem.

Definition polyveck_use_hint (mem : list (list poly)) (w u h : nat) : list (list poly) :=
  for_loop 0 (K mode) (fun i mem =>
    vec_write mem w i (poly_use_hint (vec_read mem u i) (vec_read mem h i))) mem.

(** *** A polynomial times a vector, the vectors given by address *)

Definition polyvecl_pointwise_poly_montgomery
    (mem : list (list poly)) (r : nat) (a : poly) (v : nat) : list (list poly) :=
  for_loop 0 (L mode) (fun i mem =>
    vec_write mem r i (poly_pointwise_montgomery a (vec_read mem v i))) mem.

Definition polyveck_pointwise_poly_montgomery
    (mem : list (list poly)) (r : nat) (a : poly) (v : nat) : list (list poly) :=
  for_loop 0 (K mode) (fun i mem =>
    vec_write mem r i (poly_pointwise_montgomery a (vec_read mem v i))) mem.

(** *** Splitting into high and low parts, the three vectors given by address

    [v1] and [v0] receive the two results; [v] may be one of them, as in
    [polyveck_decompose(&w1, &w0, &w1)]. *)

Definition polyveck_power2round (mem : list (list poly)) (v1 v0 v : nat) : list (list poly) :=
  for_loop 0 (K mode) (fun i mem =>
    let '(a1, a0) := poly_power2round (vec_read mem v i) in
    vec_write (vec_write mem v1 i a1) v0 i a0) mem.

Definition polyveck_decompose (mem : list (list poly)) (v1 v0 v : nat) : list (list poly) :=
  for_loop 0 (K mode) (fun i mem =>
    let '(a1, a0) := poly_decompose (vec_read mem v i) in
    vec_write (vec_write mem v1 i a1) v0 i a0) mem.

(** [polyveck_pack_w1]: [polyw1_pack] writes its bytes into [r] from offset
    [i*POLYW1_PACKEDBYTES] on. *)
Definition polyveck_pack_w1 (r : list Z) (w1 : polyveck) : list Z :=
  for_loop 0 (K mode) (fun i r =>
    list_inserts (i * POLYW1_PACKEDBYTES mode) (polyw1_pack (w1 !!! i)) r) r.

End VectorLayerMore.

(** ** The rest of the interface, from the specification *)

Module SpecPolyMore.

Definition D : Z := 13.

Definition ROOT_OF_UNITY : Z := 1753.

(** Modelled from the spec: central reduce, "t = (a + (1<<22)) >> 23;
    r = a - t*Q", per coefficient. *)
Definition reduce32 (a : Z) : Z := a - Z.shiftr (a + Z.shiftl 1 22) 23 * Q.

Definition poly_reduce (a : poly) : poly := reduce32 <$> a.

(** Modelled from the spec: caddq, "if a < 0 return a + Q, else a", per
    coefficient. *)
Definition caddq (a : Z) : Z := if a <? 0 then a + Q else a.

Definition poly_caddq (a : poly) : poly := caddq <$> a.

(** Modelled from the spec: sub, "c[i] = a[i] - b[i]". *)
Definition poly_sub (a b : poly) : poly := zip_with Z.sub a b.

(** Modelled from the spec: shiftl, "a[i] <- a[i] * 2^D". *)
Definition poly_shiftl (a : poly) : poly := (fun c => c * 2 ^ D) <$> a.

(** Modelled from the spec: "precomputed zetas (powers of ROOT_OF_UNITY in
    Montgomery form, reordered in bit-reverse)", as centred representatives. *)
Definition brv8 (k : nat) : Z :=
  foldr (fun i acc => acc + (if Z.testbit (Z.of_nat k) (Z.of_nat i) then 2 ^ (7 - Z.of_nat i) else 0))
        0 (seq 0 8).

Definition centred (x : Z) : Z :=
  let r := x mod Q in if (Q - 1) / 2 <? r then r - Q else r.

Definition zetas (k : nat) : Z := centred (2 ^ 32 * ROOT_OF_UNITY ^ brv8 k).

(** Modelled from the spec: "Forward transform in place, Cooley-Tukey
    butterflies, 8 layers; each butterfly: t = mont_reduce(zeta * a[j+len]);
    a[j+len] = a[j] - t; a[j] = a[j] + t". *)
Definition ntt_butterfly (zeta : Z) (len j : nat) (a : poly) : poly :=
  let t := SpecPoly.montgomery_reduce (zeta * a !!! (j + len)%nat) in
  <[j := a !!! j + t]> (<[(j + len)%nat := a !!! j - t]> a).

Definition ntt_layer (a : poly) (len : nat) : poly :=
  let blocks := (N / (2 * len))%nat in
  for_loop 0 blocks (fun b a =>
    for_loop (2 * len * b) (2 * len * b + len) (ntt_butterfly (zetas (blocks + b)) len) a) a.

Definition poly_ntt (a : poly) : poly :=
  foldl ntt_layer a [128; 64; 32; 16; 8; 4; 2; 1]%nat.

(** Modelled from the spec: "Inverse transform: Gentleman-Sande butterflies
    with negated zetas in reverse order; on completion multiply every
    coefficient by the precomputed constant F = (256^{-1} mod Q) * 2^{32}
    mod Q via Montgomery reduction". *)
Definition invntt_butterfly (zeta : Z) (len j : nat) (a : poly) : poly :=
  let t := a !!! j in
  let u := a !!! (j + len)%nat in
  <[(j + len)%nat := SpecPoly.montgomery_reduce (zeta * (t - u))]> (<[j := t + u]> a).

Definition invntt_layer (a : poly) (len : nat) : poly :=
  let blocks := (N / (2 * len))%nat in
  for_loop 0 blocks (fun b a =>
    for_loop (2 * len * b) (2 * len * b + len)
             (invntt_butterfly (- zetas (2 * blocks - 1 - b)) len) a) a.

Definition F : Z := (2 ^ 32 / 256) mod Q.

Definition poly_invntt_tomont (a : poly) : poly :=
  (fun c => SpecPoly.montgomery_reduce (F * c))
    <$> foldl invntt_layer a [1; 2; 4; 8; 16; 32; 64; 128]%nat.

(** Modelled from the spec: power2round, "a1 = (a + 2^{D-1} - 1) >> D;
    a0 = a - a1*2^D", per coefficient. *)
Definition power2round (a : Z) : Z * Z :=
  let a1 := Z.shiftr (a + 2 ^ (D - 1) - 1) D in (a1, a - a1 * 2 ^ D).

Definition poly_power2round (a : poly) : poly * poly :=
  (fst <$> (power2round <$> a), snd <$> (power2round <$> a)).

(** Modelled from the spec: decompose, "a1 = a/alpha rounded to nearest",
    "set a0 = a - a1*alpha", "Edge case: if a1 = (Q-1)/alpha, set a1 = 0 and
    a0 = a - Q", with alpha = 2*GAMMA2 and a0 in (-alpha/2, alpha/2]. *)
Definition decompose (mode : DILITHIUM_MODE) (a : Z) : Z * Z :=
  let alpha := 2 * SpecPoly.GAMMA2 mode in
  let a1 := (a + alpha / 2 - 1) / alpha in
  if a1 =? (Q - 1) / alpha then (0, a - Q) else (a1, a - a1 * alpha).

Definition poly_decompose (mode : DILITHIUM_MODE) (a : poly) : poly * poly :=
  (fst <$> (decompose mode <$> a), snd <$> (decompose mode <$> a)).

(** Modelled from the spec: use_hint, "compute (a1, a0) = decompose(a); if
    h = 0 return a1; else return (a1 + 1) mod m or (a1 - 1) mod m based on
    sign of a0, where m = 44 (GAMMA2 = (Q-1)/88) or 16 (GAMMA2 = (Q-1)/32)". *)
Definition use_hint (mode : DILITHIUM_MODE) (a h : Z) : Z :=
  let m := match mode with MODE2 => 44 | MODE3 => 16 | MODE5 => 16 end in
  let '(a1, a0) := decompose mode a in
  if h =? 0 then a1 else if 0 <? a0 then (a1 + 1) mod m else (a1 - 1) mod m.

Definition poly_use_hint (mode : DILITHIUM_MODE) (a h : poly) : poly :=
  zip_with (use_hint mode) a h.

(** Modelled from the spec: w1 packing, "little-endian, coefficient order
    preserved, no padding bits", 6 bits a coefficient for alpha = (Q-1)/44
    and 4 for alpha = (Q-1)/16, in 192 and 128 bytes. *)
Definition polyw1_pack (mode : DILITHIUM_MODE) (a : poly) : list Z :=
  let bits := match mode with MODE2 => 6 | MODE3 => 4 | MODE5 => 4 end in
  let stream := foldr (fun c acc => c + 2 ^ bits * acc) 0 a in
  map (fun i => Z.shiftr stream (8 * Z.of_nat i) mod 256) (seq 0 (POLYW1_PACKEDBYTES mode)).

Definition ops (mode : DILITHIUM_MODE) : PolyMoreOps :=
  Build_PolyMoreOps poly_reduce poly_caddq poly_sub poly_shiftl poly_ntt poly_invntt_tomont
                    poly_power2round (poly_decompose mode) (poly_use_hint mode)
                    (polyw1_pack mode).

End SpecPolyMore.
(** * Lemmas and theorems *)

(** ** Lanes stay 64-bit *)

Module U64Facts.

Lemma wf_bits a : U64.wf a <-> 0 <= a /\ forall l, 64 <= l -> Z.testbit a l = false.
Proof.
  unfold U64.wf, U64.modulus. split.
  - intros H. split; [lia|]. apply Z.bounded_iff_bits_nonneg; lia.
  - intros [H0 H]. split; [done|]. apply Z.bounded_iff_bits_nonneg; auto; lia.
Qed.

Lemma wf_mod a : U64.wf (a mod U64.modulus).
Proof. unfold U64.wf. apply Z.mod_pos_bound. reflexivity. Qed.

Lemma wf_not a : U64.wf (.~ a).
Proof. apply wf_mod. Qed.

Lemma wf_shl a n : U64.wf (U64.shl a n).
Proof. apply wf_mod. Qed.

Lemma wf_lxor a b : U64.wf a -> U64.wf b -> U64.wf (a .^ b).
Proof.
  rewrite !wf_bits. intros [Ha Ha'] [Hb Hb']. split.
  - by apply Z.lxor_nonneg.
  - intros l Hl. by rewrite Z.lxor_spec, Ha', Hb'.
Qed.

Lemma wf_land a b : U64.wf a -> U64.wf b -> U64.wf (a .& b).
Proof.
  rewrite !wf_bits. intros [Ha Ha'] [Hb Hb']. split.
  - apply Z.land_nonneg; auto.
  - intros l Hl. by rewrite Z.land_spec, Ha'.
Qed.

Lemma wf_lor a b : U64.wf a -> U64.wf b -> U64.wf (a .| b).
Proof.
  rewrite !wf_bits. intros [Ha Ha'] [Hb Hb']. split.
  - by apply Z.lor_nonneg.
  - intros l Hl. by rewrite Z.lor_spec, Ha', Hb'.
Qed.

Lemma wf_shiftr a n : U64.wf a -> 0 <= n -> U64.wf (Z.shiftr a n).
Proof.
  rewrite !wf_bits. intros [Ha Ha'] Hn. split.
  - by apply Z.shiftr_nonneg.
  - intros l Hl. rewrite Z.shiftr_spec by lia. apply Ha'. lia.
Qed.

Lemma wf_ROL a n : U64.wf a -> n <= 64 -> U64.wf (ROL a n).
Proof. intros. apply wf_lxor; [apply wf_shl | apply wf_shiftr; [done | lia]]. Qed.

Lemma wf_rotl a n : U64.wf a -> n <= 64 -> U64.wf (Spec.rotl a n).
Proof. intros. apply wf_lor; [apply wf_shl | apply wf_shiftr; [done | lia]]. Qed.

(** The two halves of a rotation have no bit in common, so the XOR of the
    macro [ROL] is the OR of the rotation. *)
Lemma rotl_halves_disjoint a n :
  U64.wf a -> 0 <= n <= 64 -> U64.shl a n .& Z.shiftr a (64 - n) = 0.
Proof.
  intros [Ha Ha']%wf_bits Hn. apply Z.bits_inj'. intros i Hi.
  rewrite Z.land_spec, Z.bits_0, Z.shiftr_spec by done.
  unfold U64.shl, U64.modulus.
  destruct (decide (i < n)).
  - rewrite Z.mod_pow2_bits_low, Z.shiftl_spec_low by lia. done.
  - rewrite (Ha' (i + (64 - n))) by lia. apply andb_false_r.
Qed.

Lemma rotl_ROL a n : U64.wf a -> 0 <= n <= 64 -> Spec.rotl a n = ROL a n.
Proof.
  intros. unfold Spec.rotl, ROL. symmetry. by apply Z.lxor_lor, rotl_halves_disjoint.
Qed.

Lemma rotl_0 a : U64.wf a -> Spec.rotl a 0 = a.
Proof.
  intros Ha. unfold Spec.rotl, U64.shl. rewrite Z.shiftl_0_r.
  destruct Ha. rewrite Z.mod_small by done.
  rewrite Z.shiftr_div_pow2, Z.div_small by done. apply Z.lor_0_r.
Qed.

(** [Spec.rotl] is the rotation: bit [i] of the result is bit [i - n],
    modulo 64, of the lane. *)
Lemma rotl_testbit a n i :
  U64.wf a -> 0 <= n < 64 -> 0 <= i < 64 ->
  Z.testbit (Spec.rotl a n) i = Z.testbit a ((i - n) mod 64).
Proof.
  intros [Ha Ha']%wf_bits Hn Hi. unfold Spec.rotl, U64.shl, U64.modulus.
  rewrite Z.lor_spec, Z.shiftr_spec, Z.mod_pow2_bits_low by lia.
  destruct (decide (i < n)).
  - rewrite Z.shiftl_spec_low, orb_false_l by lia.
    f_equal. apply Z.mod_unique with (-1); lia.
  - rewrite Z.shiftl_spec, (Ha' (i + (64 - n))), orb_false_r by lia.
    f_equal. apply Z.mod_unique with 0; lia.
Qed.

End U64Facts.

(** ** The unrolled permutation against the round function *)

Create HintDb u64 discriminated.
#[local] Hint Resolve U64Facts.wf_not U64Facts.wf_shl U64Facts.wf_lxor U64Facts.wf_land
  U64Facts.wf_lor U64Facts.wf_ROL U64Facts.wf_rotl : u64.
#[local] Hint Extern 1 (_ <= _) => lia : u64.
#[local] Hint Extern 1 (_ <= _ <= _) => lia : u64.

(** A list of exactly 25 lanes is its 25 entries. *)
Lemma state_wf_inv (A : list Z) :
  state_wf A ->
  exists a0 a1 a2 a3 a4 a5 a6 a7 a8 a9 a10 a11 a12 a13 a14 a15 a16 a17 a18 a19
         a20 a21 a22 a23 a24,
    A = [a0; a1; a2; a3; a4; a5; a6; a7; a8; a9; a10; a11; a12; a13; a14; a15;
         a16; a17; a18; a19; a20; a21; a22; a23; a24]
    /\ Forall U64.wf A.
Proof.
  intros [Hlen Hwf].
  do 25 (destruct A as [|? A]; [discriminate Hlen|]).
  destruct A; [|discriminate Hlen].
  repeat eexists; eauto.
Qed.

Ltac destruct_state H :=
  apply state_wf_inv in H;
  destruct H as (?a & ?a & ?a & ?a & ?a & ?a & ?a & ?a & ?a & ?a & ?a & ?a & ?a
                 & ?a & ?a & ?a & ?a & ?a & ?a & ?a & ?a & ?a & ?a & ?a & ?a & -> & H);
  repeat match goal with
         | Hall : Forall _ (_ :: _) |- _ =>
             let Hlane := fresh "Hlane" in
             apply Forall_cons_1 in Hall; destruct Hall as [Hlane Hall]
         end.

Lemma RoundConstants_wf i : U64.wf (KeccakF_RoundConstants !!! i).
Proof.
  do 24 (destruct i as [|i]; [by vm_compute|]). by vm_compute.
Qed.

(** The body of the loop is its round, run twice. *)
Lemma TwoRounds_Round round A :
  state_wf A ->
  KeccakF1600_TwoRounds round A =
  KeccakF1600_Round (KeccakF_RoundConstants !!! (round + 1)%nat)
    (KeccakF1600_Round (KeccakF_RoundConstants !!! round) A).
Proof.
  intros HA. destruct_state HA.
  cbv -[Z.lxor Z.land U64.not ROL KeccakF_RoundConstants].
  reflexivity.
Qed.

Lemma Round_wf rc A : U64.wf rc -> state_wf A -> state_wf (KeccakF1600_Round rc A).
Proof.
  intros Hrc HA. destruct_state HA.
  split; [reflexivity|].
  cbv -[Z.lxor Z.land U64.not ROL U64.wf].
  repeat first [apply Forall_nil_2 | apply Forall_cons]; auto 20 with u64.
Qed.

(** The round of the code is the round of the specification. *)
Lemma Round_spec i A :
  state_wf A -> KeccakF1600_Round (KeccakF_RoundConstants !!! i) A = Spec.round i A.
Proof.
  intros HA. unfold Spec.round, Spec.iota.
  pose proof (RoundConstants_wf i) as Hrc.
  revert Hrc. generalize (KeccakF_RoundConstants !!! i). intros rc Hrc.
  destruct_state HA.
  cbv -[Z.lxor Z.land U64.not ROL Spec.rotl].
  rewrite U64Facts.rotl_0 by auto 20 with u64.
  rewrite !U64Facts.rotl_ROL by auto 20 with u64.
  reflexivity.
Qed.

Lemma Spec_round_wf i A : state_wf A -> state_wf (Spec.round i A).
Proof. 
  intros HA. rewrite <- Round_spec by done. apply Round_wf; [apply RoundConstants_wf | done].
Qed.

Lemma Loop_spec n : forall round A,
  state_wf A ->
  KeccakF1600_Loop n round A = foldl (fun A i => Spec.round i A) A (seq round (2 * n)).
Proof.
  induction n as [|n IH]; intros round A HA; [reflexivity|].
  replace (2 * S n)%nat with (S (S (2 * n))) by lia.
  cbn [KeccakF1600_Loop seq foldl].
  rewrite TwoRounds_Round by exact HA.
  rewrite (Round_spec round) by exact HA.
  rewrite (Round_spec (round + 1)) by (apply Spec_round_wf; exact HA).
  rewrite IH by (do 2 apply Spec_round_wf; exact HA).
  replace (round + 1)%nat with (S round) by lia.
  replace (round + 2)%nat with (S (S round)) by lia.
  reflexivity.
Qed.

(** C1. For every state of 25 64-bit lanes, the unrolled, two rounds at a
    time [KeccakF1600_StatePermute] returns what 24 applications of the
    round of the specification return, rounds 0 to 23 in order, each one
    theta, rho, pi, chi and iota with [KeccakF_RoundConstants] at the index
    of the round. *)
Theorem KeccakF1600_StatePermute_rounds (A : list Z) :
  state_wf A ->
  KeccakF1600_StatePermute A = Spec.keccak_f A.
Proof. intros HA. unfold KeccakF1600_StatePermute, Spec.keccak_f. rewrite Loop_spec by exact HA. reflexivity. Qed.

Lemma KeccakF1600_StatePermute_rounds_witness :
  state_wf keccak_init /\ KeccakF1600_StatePermute keccak_init = Spec.keccak_f keccak_init.
Proof.
  assert (H : state_wf keccak_init).
  { split; [reflexivity|]. repeat constructor; by vm_compute. }
  split; [exact H | exact (KeccakF1600_StatePermute_rounds keccak_init H)].
Defined.

(** ** Test vectors of the one-shot functions *)

(** C2, as the code has it. The one-shot functions reproduce the published
    empty-input vectors of SHA3-256, SHA3-512, SHAKE128 and SHAKE256 (32
    output bytes), and SHAKE128 of the single byte 0x00 with 32 output bytes
    is 0b784469a0628e03861cd8a196dfafa0e9e8056d04cddcc49f0746b9ad43ccb2. *)
Theorem one_shot_test_vectors :
  sha3_256 [] =
    Some (hex "a7ffc6f8bf1ed76651c14756a061d662f580ff4de43b49fa82d80a4b80f8434a")
  /\ sha3_512 [] =
    Some (hex ("a69f73cca23a9ac5c8b567dc185a756e97c982164fe25859e0d1dcc1475c80a6"
            ++ "15b2123af1f5f94c11e3e9402c3ac558f500199d95b6d3e301758586281dcd26"))
  /\ shake128 32 [] =
    Some (hex "7f9c2ba4e88f827d616045507605853ed73b8093f6efbc88eb1a6eacfa66ef26")
  /\ shake256 32 [] =
    Some (hex "46b9dd2b0ba88d13233b3feb743eeb243fcd52ea62b81b82b50c27646ed5762f")
  /\ shake128 32 [0x00] =
    Some (hex "0b784469a0628e03861cd8a196dfafa0e9e8056d04cddcc49f0746b9ad43ccb2").
Proof.
  split; [|split; [|split; [|split]]]; vm_compute; reflexivity.
Qed.

(** C2, counterexample. SHAKE128 of the single byte 0x00 is not the 32 bytes
    0edd33d3... that the end-to-end scenario lists. *)
Lemma shake128_zero_byte_not_listed_vector :
  shake128 32 [0x00] <>
    Some (hex "0edd33d3c621e546455bd8ba1418bd1379d1ffbdfedae27c86eb0b0d29b9f97b").
Proof. vm_compute. discriminate. Qed.

(** ** The cursor of the sponge *)

Section Absorb.

Variable r : nat.

Lemma absorb_bytes_app st x y :
  absorb_bytes r st (x ++ y) = absorb_bytes r (absorb_bytes r st x) y.
Proof. apply foldl_app. Qed.

(** Bytes that do not fill the block are XORed in and move the cursor. *)
Lemma absorb_bytes_short bs : forall s pos,
  (pos + length bs < r)%nat ->
  absorb_bytes r (s, pos) bs = (xor_bytes s pos bs, (pos + length bs)%nat).
Proof.
  induction bs as [|b bs IH]; intros s pos Hlt; cbn [length] in Hlt.
  - cbn. by rewrite Nat.add_0_r.
  - cbn [absorb_bytes foldl xor_bytes length]. unfold absorb_byte at 2. cbn [fst snd].
    rewrite (proj2 (Nat.eqb_neq _ _)) by lia.
    fold (absorb_bytes r (xor_byte s pos b, S pos) bs).
    rewrite IH by lia. f_equal. lia.
Qed.

(** Bytes that fill the block exactly end in a permutation and cursor 0. *)
Lemma absorb_bytes_fill bs : forall s pos,
  (pos < r)%nat -> length bs = (r - pos)%nat ->
  absorb_bytes r (s, pos) bs = (KeccakF1600_StatePermute (xor_bytes s pos bs), 0%nat).
Proof.
  induction bs as [|b bs IH]; intros s pos Hlt Hlen; cbn [length] in Hlen; [lia|].
  cbn [absorb_bytes foldl xor_bytes]. unfold absorb_byte at 2. cbn [fst snd].
  destruct (Nat.eqb_spec (S pos) r) as [Heq|Hne].
  - destruct bs; [reflexivity | cbn [length] in Hlen; lia].
  - fold (absorb_bytes r (xor_byte s pos b, S pos) bs). apply IH; lia.
Qed.

(** The [while] loop of [keccak_absorb] absorbs byte by byte. *)
Lemma keccak_absorb_loop_bytes fuel : forall s pos inp,
  (pos < r)%nat -> (length inp < fuel)%nat ->
  keccak_absorb_loop fuel s pos r inp = Some (absorb_bytes r (s, pos) inp).
Proof.
  induction fuel as [|fuel IH]; intros s pos inp Hpos Hfuel; [lia|].
  cbn [keccak_absorb_loop].
  destruct (Nat.leb_spec r (pos + length inp)) as [Hfull|Hshort].
  - rewrite IH; [|lia|rewrite length_drop; lia].
    rewrite <- (take_drop (r - pos) inp) at 3.
    rewrite absorb_bytes_app, (absorb_bytes_fill (take (r - pos) inp) s pos); [done|lia|].
    rewrite length_take. lia.
  - by rewrite absorb_bytes_short.
Qed.

Lemma keccak_absorb_bytes s pos inp :
  (pos < r)%nat ->
  keccak_absorb s pos r inp = Some (absorb_bytes r (s, pos) inp).
Proof. intros. apply keccak_absorb_loop_bytes; [done|lia]. Qed.

(** The cursor after absorbing is the byte count modulo the rate. *)
Lemma absorb_bytes_cursor bs : forall s pos,
  (pos < r)%nat ->
  (absorb_bytes r (s, pos) bs).2 = ((pos + length bs) mod r)%nat.
Proof.
  induction bs as [|b bs IH]; intros s pos Hpos.
  - cbn. rewrite Nat.add_0_r. symmetry. by apply Nat.mod_small.
  - cbn [absorb_bytes foldl length]. unfold absorb_byte at 2. cbn [fst snd].
    destruct (Nat.eqb_spec (S pos) r) as [Heq|Hne].
    + fold (absorb_bytes r (KeccakF1600_StatePermute (xor_byte s pos b), 0%nat) bs).
      rewrite IH by lia.
      replace (pos + S (length bs))%nat with (length bs + 1 * r)%nat by lia.
      rewrite Nat.Div0.mod_add. done.
    + fold (absorb_bytes r (xor_byte s pos b, S pos) bs).
      rewrite IH by lia. f_equal. lia.
Qed.

(** Cursor 0 after at least one byte: the state has just been permuted. *)
Lemma absorb_bytes_fresh bs st :
  bs <> [] -> (absorb_bytes r st bs).2 = 0%nat ->
  exists s0, (absorb_bytes r st bs).1 = KeccakF1600_StatePermute s0.
Proof.
  destruct bs as [|b bs _] using rev_ind; [done|]. intros _.
  rewrite absorb_bytes_app. cbn [absorb_bytes foldl].
  fold (absorb_bytes r st bs). unfold absorb_byte.
  destruct (Nat.eqb_spec (S (absorb_bytes r st bs).2) r); cbn [fst snd]; [eauto | discriminate].
Qed.

End Absorb.

(** C3. [keccak_absorb], called with a cursor in [0, r), returns, and the
    cursor it returns is the number of bytes in the block so far modulo the
    rate: a position in [0, r), and 0 when the total absorbed since an empty
    block is a multiple of the rate.  When that cursor is 0 and bytes were
    absorbed, the state is the output of a permutation, and [keccak_finalize]
    XORs the domain byte [p] into byte 0 of lane 0 of that fresh block (and
    the top bit into the last lane of the rate window). *)
Theorem keccak_absorb_cursor (s : list Z) (pos r : nat) (inp : list Z) (p : Z) :
  (pos < r)%nat ->
  exists s' pos',
    keccak_absorb s pos r inp = Some (s', pos')
    /\ pos' = ((pos + length inp) mod r)%nat
    /\ (pos' < r)%nat
    /\ (pos = 0%nat -> (length inp mod r = 0)%nat -> pos' = 0%nat)
    /\ (pos' = 0%nat -> inp <> [] ->
        (exists s0, s' = KeccakF1600_StatePermute s0)
        /\ keccak_finalize s' pos' r p =
           alter (fun lane => lane .^ Z.shiftl 1 63)
                 (Z.to_nat ((Z.of_nat (r / 8) - 1) mod 2 ^ 32))
                 (alter (fun lane => lane .^ p) 0%nat s')).
Proof.
  intros Hpos.
  exists (absorb_bytes r (s, pos) inp).1, (absorb_bytes r (s, pos) inp).2.
  pose proof (absorb_bytes_cursor r inp s pos Hpos) as Hcur.
  split; [|split; [|split; [|split]]].
  - rewrite keccak_absorb_bytes by done. by destruct (absorb_bytes r (s, pos) inp).
  - exact Hcur.
  - rewrite Hcur. apply Nat.mod_upper_bound. lia.
  - intros -> Hmul. by rewrite Hcur.
  - intros H0 Hne. split; [by apply absorb_bytes_fresh|].
    rewrite H0. reflexivity.
Qed.

Lemma keccak_absorb_cursor_witness :
  exists s' pos',
    keccak_absorb keccak_init 0 SHAKE128_RATE (replicate 168 0x61) = Some (s', pos')
    /\ pos' = 0%nat.
Proof.
  destruct (keccak_absorb_cursor keccak_init 0 SHAKE128_RATE (replicate 168 0x61) 0x1F)
    as (s' & pos' & Habs & Hcur & _); [unfold SHAKE128_RATE; lia|].
  exists s', pos'. split; [exact Habs | rewrite Hcur; reflexivity].
Defined.

Ltac simpl_keccak_state := cbn [s pos].

(** C4. Absorbing [x] and then [y], the cursor threaded through, is absorbing
    [x ++ y] at once: both return, with the same state and cursor.  The same
    holds of [shake128_absorb] on a [keccak_state]. *)
Theorem keccak_absorb_app (s : list Z) (pos r : nat) (x y : list Z) :
  (pos < r)%nat ->
  (exists s' pos', keccak_absorb s pos r (x ++ y) = Some (s', pos'))
  /\ keccak_absorb s pos r (x ++ y) =
     ('(s1, pos1) ← keccak_absorb s pos r x; keccak_absorb s1 pos1 r y)
  /\ (r = SHAKE128_RATE ->
      shake128_absorb (KeccakState s pos) (x ++ y) =
      (state1 ← shake128_absorb (KeccakState s pos) x; shake128_absorb state1 y)).
Proof.
  intros Hpos.
  assert (Happ : keccak_absorb s pos r (x ++ y) =
                 ('(s1, pos1) ← keccak_absorb s pos r x; keccak_absorb s1 pos1 r y)).
  { rewrite !keccak_absorb_bytes by done. cbn [mbind option_bind].
    pose proof (absorb_bytes_cursor r x s pos Hpos) as Hcur.
    destruct (absorb_bytes r (s, pos) x) as [s1 pos1] eqn:Hx. cbn [snd] in Hcur.
    rewrite keccak_absorb_bytes.
    - by rewrite absorb_bytes_app, Hx.
    - rewrite Hcur. apply Nat.mod_upper_bound. lia. }
  split; [|split].
  - rewrite keccak_absorb_bytes by done.
    destruct (absorb_bytes r (s, pos) (x ++ y)); eauto.
  - exact Happ.
  - intros ->. unfold shake128_absorb. simpl_keccak_state. rewrite Happ.
    destruct (keccak_absorb s pos SHAKE128_RATE x) as [[s1 pos1]|]; reflexivity.
Qed.

Lemma keccak_absorb_app_witness :
  keccak_absorb keccak_init 0 SHAKE256_RATE ([1; 2; 3] ++ [4; 5]) =
  ('(s1, pos1) ← keccak_absorb keccak_init 0 SHAKE256_RATE [1; 2; 3];
   keccak_absorb s1 pos1 SHAKE256_RATE [4; 5]).
Proof.
  refine (proj1 (proj2 (keccak_absorb_app keccak_init 0 SHAKE256_RATE [1; 2; 3] [4; 5] _))).
  unfold SHAKE256_RATE. lia.
Defined.

(** ** Loops of the vector layer *)

Section ForLoop.

Context {St : Type}.

Lemma for_loop_empty lo (body : nat -> St -> St) st : for_loop lo lo body st = st.
Proof. unfold for_loop. by rewrite Nat.sub_diag. Qed.

(** One more pass runs the body once more, last. *)
Lemma for_loop_S lo hi (body : nat -> St -> St) st :
  (lo <= hi)%nat ->
  for_loop lo (S hi) body st = body hi (for_loop lo hi body st).
Proof.
  intros Hle. unfold for_loop.
  replace (S hi - lo)%nat with (S (hi - lo)) by lia.
  rewrite seq_S, foldl_app. cbn [foldl].
  by replace (lo + (hi - lo))%nat with hi by lia.
Qed.

(** Bodies that agree on the range of the counter run the same loop. *)
Lemma for_loop_ext lo hi (body1 body2 : nat -> St -> St) st :
  (forall i st, (lo <= i < hi)%nat -> body1 i st = body2 i st) ->
  for_loop lo hi body1 st = for_loop lo hi body2 st.
Proof.
  intros Hext. unfold for_loop.
  assert (Hseq : Forall (fun i => lo <= i < hi)%nat (seq lo (hi - lo))).
  { apply Forall_seq. lia. }
  revert st. induction Hseq as [|i l Hi _ IH]; intros st; [done|].
  cbn [foldl]. rewrite Hext by done. apply IH.
Qed.

(** An invariant of the loop counter and the loop variables. *)
Lemma for_loop_ind (P : nat -> St -> Prop) lo hi (body : nat -> St -> St) st :
  (lo <= hi)%nat ->
  P lo st ->
  (forall i st, (lo <= i < hi)%nat -> P i st -> P (S i) (body i st)) ->
  P hi (for_loop lo hi body st).
Proof.
  intros Hle H0 Hstep. induction hi as [|hi IH].
  - assert (lo = 0%nat) as -> by lia. by rewrite for_loop_empty.
  - destruct (decide (lo = S hi)) as [->|Hne].
    + by rewrite for_loop_empty.
    + rewrite for_loop_S by lia. apply Hstep; [lia|].
      apply IH; [lia|]. intros i st' Hi. apply Hstep. lia.
Qed.

End ForLoop.

(** [for(i = 0; i < n; ++i) v[i] = g i]: the first [n] entries are written. *)
Lemma for_loop_fill {A : Type} (g : nat -> A) n (v : list A) :
  (n <= length v)%nat ->
  for_loop 0 n (fun i v => <[i := g i]> v) v = (g <$> seq 0 n) ++ drop n v.
Proof.
  intros Hn.
  apply (for_loop_ind (fun i (w : list A) => (i <= length v)%nat -> w = (g <$> seq 0 i) ++ drop i v));
    [lia | done | | done].
  intros i w Hi IH Hlen. rewrite IH by lia.
  rewrite seq_S, fmap_app. cbn [fmap list_fmap Nat.add].
  rewrite insert_app_r_alt by (rewrite length_fmap, length_seq; lia).
  rewrite length_fmap, length_seq, Nat.sub_diag.
  destruct (lookup_lt_is_Some_2 v i) as [x Hx]; [lia|].
  rewrite (drop_S v x i Hx). cbn [list_insert insert]. by rewrite <- app_assoc.
Qed.

Lemma for_loop_fill_lookup {A : Type} (g : nat -> A) n (v : list A) i :
  (n <= length v)%nat -> (i < n)%nat ->
  for_loop 0 n (fun i v => <[i := g i]> v) v !! i = Some (g i).
Proof.
  intros Hn Hi. rewrite for_loop_fill by done.
  rewrite lookup_app_l by (rewrite length_fmap, length_seq; lia).
  rewrite list_lookup_fmap, lookup_seq_lt by done. done.
Qed.

(** ** Matrix expansion *)

Lemma K_le_8 mode : (K mode <= 8)%nat.
Proof. destruct mode; cbn; lia. Qed.

Lemma L_lt_K_bounds mode : (0 < L mode <= 7)%nat.
Proof. destruct mode; cbn; lia. Qed.

(** With the column below 256 the sum of the code is the OR of the
    specification, and with the row below 256 too it fits a [uint16_t]. *)
Lemma expand_nonce (i j : Z) :
  0 <= i < 256 -> 0 <= j < 256 ->
  uint16 (uadd32 (Z.shiftl i 8) j) = Z.shiftl i 8 .| j.
Proof.
  intros Hi Hj.
  assert (Hland : Z.shiftl i 8 .& j = 0).
  { apply Z.bits_inj'. intros n Hn. rewrite Z.land_spec, Z.bits_0.
    destruct (decide (n < 8)).
    - by rewrite Z.shiftl_spec_low.
    - replace (Z.testbit j n) with false; [apply andb_false_r|].
      symmetry. apply (Z.bounded_iff_bits_nonneg 8 j); lia. }
  pose proof (Z.add_lor_land (Z.shiftl i 8) j) as Hadd.
  rewrite Hland, Z.add_0_r in Hadd. rewrite Hadd.
  unfold uint16, uadd32. rewrite Z.shiftl_mul_pow2 by lia.
  rewrite (Z.mod_small (i * 2 ^ 8 + j) (2 ^ 32)) by lia.
  apply Z.mod_small. lia.
Qed.

Section MatrixExpand.

Context `{ops : PolyOps}.
Variable mode : DILITHIUM_MODE.

(** The loop over the columns of row [i] rewrites that row only. *)
Lemma expand_row (g : nat -> poly) (i n : nat) (mat : list polyvecl) :
  for_loop 0 n (fun j mat => alter (fun row => <[j := g j]> row) i mat) mat =
  alter (fun row => for_loop 0 n (fun j row => <[j := g j]> row) row) i mat.
Proof.
  induction n as [|n IH].
  - rewrite for_loop_empty. symmetry. apply list_alter_id. intros row.
    by rewrite for_loop_empty.
  - rewrite for_loop_S, IH by lia. rewrite list_alter_alter_eq.
    apply list_alter_ext; [|done]. intros row _. unfold compose.
    by rewrite for_loop_S by lia.
Qed.

(** A loop that changes entry [i] in pass [i] has changed the first [n]
    entries after [n] passes, each once. *)
Lemma for_loop_alter {A : Type} (F : nat -> A -> A) (n : nat) (v : list A) (i : nat) :
  (i < n)%nat ->
  for_loop 0 n (fun i v => alter (F i) i v) v !! i = F i <$> v !! i.
Proof.
  intros Hi.
  enough (Hall : (forall i, (i < n)%nat ->
                    for_loop 0 n (fun i v => alter (F i) i v) v !! i = F i <$> v !! i)
                 /\ (forall i, (n <= i)%nat ->
                    for_loop 0 n (fun i v => alter (F i) i v) v !! i = v !! i))
    by by apply Hall.
  apply (for_loop_ind (fun k (w : list A) =>
           (forall i, (i < k)%nat -> w !! i = F i <$> v !! i)
           /\ (forall i, (k <= i)%nat -> w !! i = v !! i))); [lia | | ].
  - split; [lia | done].
  - intros k w Hk [IHlt IHge]. split; intros i' Hi'.
    + destruct (decide (i' = k)) as [->|Hne].
      * rewrite list_lookup_alter_eq, IHge; [done | lia].
      * rewrite list_lookup_alter_ne by done. apply IHlt. lia.
    + rewrite list_lookup_alter_ne by lia. apply IHge. lia.
Qed.

(** C5. For every seed [rho], after [polyvec_matrix_expand] entry [(i, j)] of
    the K x L matrix is [poly_uniform rho ((i << 8) | j)], for all [i < K] and
    [j < L]; that nonce is [256 * i + j]. *)
Theorem polyvec_matrix_expand_entries (mat : list polyvecl) (rho : list Z) (i j : nat) :
  length mat = K mode -> Forall (fun row => length row = L mode) mat ->
  (i < K mode)%nat -> (j < L mode)%nat ->
  exists row,
    polyvec_matrix_expand mode mat rho !! i = Some row
    /\ row !! j = Some (poly_uniform rho (Z.shiftl (Z.of_nat i) 8 .| Z.of_nat j))
    /\ Z.shiftl (Z.of_nat i) 8 .| Z.of_nat j = 256 * Z.of_nat i + Z.of_nat j.
Proof.
  intros Hrows Hcols Hi Hj.
  pose proof (K_le_8 mode). pose proof (L_lt_K_bounds mode).
  destruct (lookup_lt_is_Some_2 mat i) as [row0 Hrow0]; [lia|].
  assert (Hlen0 : length row0 = L mode).
  { by apply (Forall_lookup_1 _ _ _ _ Hcols Hrow0). }
  unfold polyvec_matrix_expand.
  erewrite for_loop_ext.
  2:{ intros i' mat' _. apply expand_row. }
  rewrite for_loop_alter by done. rewrite Hrow0. cbn [fmap option_fmap option_map].
  eexists. split; [reflexivity|]. split.
  - rewrite (for_loop_fill_lookup
               (fun j => poly_uniform rho (uint16 (uadd32 (Z.shiftl (Z.of_nat i) 8) (Z.of_nat j)))))
      by lia.
    by rewrite expand_nonce by lia.
  - rewrite <- expand_nonce by lia. unfold uint16, uadd32.
    rewrite Z.shiftl_mul_pow2 by lia.
    rewrite (Z.mod_small (Z.of_nat i * 2 ^ 8 + Z.of_nat j) (2 ^ 32)) by lia.
    rewrite Z.mod_small by lia. lia.
Qed.

End MatrixExpand.

(** ** Matrix-vector product *)

Section MatrixVector.

Context `{ops : PolyOps}.
Variable mode : DILITHIUM_MODE.

(** Products by index are the products of the zipped vectors. *)
Lemma zip_with_by_index (u v : polyvecl) (n : nat) :
  length u = n -> length v = n ->
  zip_with poly_pointwise_montgomery u v =
  (fun j => poly_pointwise_montgomery (u !!! j) (v !!! j)) <$> seq 0 n.
Proof.
  intros Hu Hv. apply list_eq. intros j.
  rewrite lookup_zip_with, list_lookup_fmap.
  destruct (decide (j < n)%nat) as [Hj|Hj].
  - rewrite lookup_seq_lt by done.
    rewrite (list_lookup_lookup_total_lt u j), (list_lookup_lookup_total_lt v j) by lia.
    reflexivity.
  - rewrite lookup_seq_ge, (lookup_ge_None_2 u j) by lia. reflexivity.
Qed.

Lemma polyvecl_pointwise_acc_montgomery_dot (u v : polyvecl) :
  length u = L mode -> length v = L mode ->
  dot_product u v = Some (polyvecl_pointwise_acc_montgomery mode u v).
Proof.
  intros Hu Hv. pose proof (L_lt_K_bounds mode) as HL.
  unfold dot_product, polyvecl_pointwise_acc_montgomery, for_loop.
  rewrite (zip_with_by_index u v (L mode)) by done.
  replace (L mode) with (S (L mode - 1)) at 1 by lia.
  cbn [seq fmap list_fmap]. by rewrite foldl_fmap.
Qed.

(** C6. For a K x L matrix [mat] and a vector [v] of length L, every
    component [i < K] of the result of [polyvec_matrix_pointwise_montgomery]
    is the dot product of row [i] with [v]: the [poly_pointwise_montgomery]
    products of the L components, the first assigned and the other L-1 added
    with [poly_add] in index order. *)
Theorem polyvec_matrix_pointwise_montgomery_dot
    (t : polyveck) (mat : list polyvecl) (v : polyvecl) (i : nat) :
  length t = K mode -> length mat = K mode ->
  Forall (fun row => length row = L mode) mat -> length v = L mode ->
  (i < K mode)%nat ->
  exists row p0 ps,
    mat !! i = Some row
    /\ zip_with poly_pointwise_montgomery row v = p0 :: ps
    /\ length ps = (L mode - 1)%nat
    /\ polyvec_matrix_pointwise_montgomery mode t mat v !! i = Some (foldl poly_add p0 ps)
    /\ dot_product row v = Some (foldl poly_add p0 ps).
Proof.
  intros Ht Hmat Hrows Hv Hi. pose proof (L_lt_K_bounds mode) as HL.
  destruct (lookup_lt_is_Some_2 mat i) as [row Hrow]; [lia|].
  assert (Hlen : length row = L mode).
  { by apply (Forall_lookup_1 _ _ _ _ Hrows Hrow). }
  pose proof (polyvecl_pointwise_acc_montgomery_dot row v Hlen Hv) as Hdot.
  unfold dot_product in Hdot.
  destruct (zip_with poly_pointwise_montgomery row v) as [|p0 ps] eqn:Hzip; [done|].
  exists row, p0, ps. split; [done|]. split; [done|]. split.
  { apply (f_equal length) in Hzip. rewrite length_zip_with in Hzip.
    cbn [length] in Hzip. lia. }
  split.
  - unfold polyvec_matrix_pointwise_montgomery.
    rewrite (for_loop_fill_lookup
               (fun i => polyvecl_pointwise_acc_montgomery mode (mat !!! i) v)) by lia.
    rewrite (list_lookup_total_correct mat i row Hrow). congruence.
  - unfold dot_product. by rewrite Hzip.
Qed.

End MatrixVector.

(** ** Norm check *)

Section Chknorm.

Context `{ops : PolyOps}.
Variable mode : DILITHIUM_MODE.

Lemma chknorm_loop_01 n : forall i v B,
  (chknorm_loop n i v B).2 = 0 \/ (chknorm_loop n i v B).2 = 1.
Proof.
  induction n as [|n IH]; intros i v B; cbn [chknorm_loop]; [by left|].
  case_bool_decide; [by right|].
  specialize (IH (S i) v B). by destruct (chknorm_loop n (S i) v B).
Qed.

Lemma chknorm_loop_1 n : forall i v B,
  (chknorm_loop n i v B).2 = 1 <->
  exists k, (i <= k < i + n)%nat /\ poly_chknorm (v !!! k) B <> 0.
Proof.
  induction n as [|n IH]; intros i v B; cbn [chknorm_loop].
  - split; [done | intros (k & ? & _); lia].
  - case_bool_decide as Hi.
    + split; [|done]. intros _. exists i. split; [lia | done].
    + specialize (IH (S i) v B). destruct (chknorm_loop n (S i) v B) as [tr r].
      cbn [snd] in *. rewrite IH. split; intros (k & Hk & Hbad).
      * exists k. split; [lia | done].
      * exists k. split; [|done].
        destruct (decide (k = i)) as [->|]; [done | lia].
Qed.

(** Some polynomial of a vector of length [n] is rejected iff one of its
    first [n] entries is. *)
Lemma exists_index_elem (v : list poly) (n : nat) (P : poly -> Prop) :
  length v = n ->
  (exists k, (0 <= k < 0 + n)%nat /\ P (v !!! k)) <-> (exists a, a ∈ v /\ P a).
Proof.
  intros Hlen. split.
  - intros (k & Hk & HP). exists (v !!! k). split; [|done].
    apply list_elem_of_lookup. exists k. apply list_lookup_lookup_total_lt. lia.
  - intros (a & [k Hk]%list_elem_of_lookup & HP). exists k.
    pose proof (lookup_lt_Some _ _ _ Hk).
    rewrite (list_lookup_total_correct _ _ _ Hk). split; [lia | done].
Qed.

(** C7. [polyveck_chknorm] and [polyvecl_chknorm] return 0 or 1, and 1
    exactly when [poly_chknorm] returns nonzero for one of the K (L)
    polynomials of the vector; when [poly_chknorm] keeps the contract of the
    specification, that is exactly when some coefficient of the vector has
    absolute value at least the bound. *)
Theorem polyvec_chknorm_result (v : list poly) (B : Z) :
  ((polyveck_chknorm mode v B = 0 \/ polyveck_chknorm mode v B = 1)
   /\ (polyveck_chknorm mode v B = 1 <->
       exists i, (i < K mode)%nat /\ poly_chknorm (v !!! i) B <> 0)
   /\ (poly_chknorm_contract -> length v = K mode ->
       (polyveck_chknorm mode v B = 1 <->
        exists a c, a ∈ v /\ c ∈ a /\ B <= Z.abs c)))
  /\
  ((polyvecl_chknorm mode v B = 0 \/ polyvecl_chknorm mode v B = 1)
   /\ (polyvecl_chknorm mode v B = 1 <->
       exists i, (i < L mode)%nat /\ poly_chknorm (v !!! i) B <> 0)
   /\ (poly_chknorm_contract -> length v = L mode ->
       (polyvecl_chknorm mode v B = 1 <->
        exists a c, a ∈ v /\ c ∈ a /\ B <= Z.abs c))).
Proof.
  unfold polyveck_chknorm, polyvecl_chknorm.
  split; (split; [apply chknorm_loop_01|]); (split; [|intros Hc Hlen]);
    rewrite chknorm_loop_1.
  1,3: split; intros (k & Hk & Hbad); exists k; (split; [lia | done]).
  all: rewrite (exists_index_elem v _ (fun a => poly_chknorm a B <> 0) Hlen).
  all: split; [intros (a & Ha & (c & Hc1 & Hc2)%Hc); eauto
              | intros (a & c & Ha & Hc1 & Hc2); exists a; split; [done|]; apply Hc; eauto].
Qed.

(** *** The operations of a norm check *)

Lemma chknorm_loop_ops n : forall (pre v : list poly) B,
  length v = n ->
  (chknorm_loop n (length pre) (pre ++ v) B).1 =
  match list_find (fun a => poly_chknorm a B <> 0) v with
  | Some (k, _) =>
      flat_map (fun j => [OpChknorm j; OpBranch false]) (seq (length pre) k)
      ++ [OpChknorm (length pre + k); OpBranch true; OpReturn 1]
  | None =>
      flat_map (fun j => [OpChknorm j; OpBranch false]) (seq (length pre) n)
      ++ [OpReturn 0]
  end.
Proof.
  induction n as [|n IH]; intros pre v B Hlen.
  - destruct v; [done | discriminate Hlen].
  - destruct v as [|a v]; [discriminate Hlen|]. cbn [chknorm_loop list_find].
    match goal with |- context [bool_decide (poly_chknorm ?x B <> 0)] =>
      assert (Hi : x = a) end.
    { apply list_lookup_total_correct. by rewrite lookup_app_r, Nat.sub_diag. }
    rewrite Hi. case_bool_decide as Hbad.
    + rewrite decide_True by done. cbn. by rewrite Nat.add_0_r.
    + rewrite decide_False by (intros Hne; exact (Hne Hbad)).
      specialize (IH (pre ++ [a]) v B).
      rewrite <- app_assoc, length_app in IH. cbn [app length] in IH.
      rewrite Nat.add_1_r in IH.
      destruct (chknorm_loop n (S (length pre)) (pre ++ a :: v) B) as [tr r].
      cbn [fst] in *. rewrite IH by (cbn in Hlen; lia).
      destruct (list_find _ v) as [[k x]|];
        cbn [fmap option_fmap option_map prod_map fst snd seq flat_map app].
      * by replace (length pre + S k)%nat with (S (length pre) + k)%nat by lia.
      * done.
Qed.

Lemma chknorm_ops_of_inj n fv fv' :
  (forall k, fv = Some k -> (k < n)%nat) -> (forall k, fv' = Some k -> (k < n)%nat) ->
  chknorm_ops_of n fv = chknorm_ops_of n fv' -> fv = fv'.
Proof.
  intros Hfv Hfv' Heq.
  assert (Hlen : forall lo k,
             length (flat_map (fun i => [OpChknorm i; OpBranch false]) (seq lo k))
             = (2 * k)%nat).
  { intros lo k. revert lo. induction k as [|k IH]; intros lo; [done|].
    cbn [seq flat_map app length]. rewrite IH. lia. }
  unfold chknorm_ops_of in Heq.
  destruct fv as [k|], fv' as [k'|]; [| | |done].
  - apply (f_equal length) in Heq. rewrite !length_app, !Hlen in Heq.
    cbn [length] in Heq. f_equal. lia.
  - apply (f_equal (@rev op)) in Heq. rewrite !rev_app_distr in Heq. discriminate Heq.
  - apply (f_equal (@rev op)) in Heq. rewrite !rev_app_distr in Heq. discriminate Heq.
Qed.

Lemma chknorm_ops_first_violation n (v : list poly) B :
  length v = n ->
  (chknorm_loop n 0 v B).1 = chknorm_ops_of n (first_violation v B).
Proof.
  intros Hlen. pose proof (chknorm_loop_ops n [] v B Hlen) as Hops.
  cbn [app length] in Hops. rewrite Hops. unfold chknorm_ops_of, first_violation.
  by destruct (list_find _ v) as [[k x]|].
Qed.

Lemma first_violation_lt (v : list poly) B k :
  first_violation v B = Some k -> (k < length v)%nat.
Proof.
  unfold first_violation. destruct (list_find _ v) as [[k' x]|] eqn:Hfind; [|done].
  intros [= <-]. apply list_find_Some in Hfind as (Hk & _). by eapply lookup_lt_Some.
Qed.

(** C8, as the code has it. The polynomials are checked in index order and
    the function returns at the first one that [poly_chknorm] rejects: the
    operations performed depend on the vector through the index of that
    polynomial alone (all K, or L, are checked when none is rejected), so
    two vectors lead to the same operations exactly when that index is the
    same for both. *)
Theorem polyvec_chknorm_ops_first_violation (v v' : list poly) (B : Z) :
  (length v = K mode -> length v' = K mode ->
   polyveck_chknorm_ops mode v B = chknorm_ops_of (K mode) (first_violation v B)
   /\ (polyveck_chknorm_ops mode v B = polyveck_chknorm_ops mode v' B <->
       first_violation v B = first_violation v' B))
  /\
  (length v = L mode -> length v' = L mode ->
   polyvecl_chknorm_ops mode v B = chknorm_ops_of (L mode) (first_violation v B)
   /\ (polyvecl_chknorm_ops mode v B = polyvecl_chknorm_ops mode v' B <->
       first_violation v B = first_violation v' B)).
Proof.
  unfold polyveck_chknorm_ops, polyvecl_chknorm_ops.
  split; intros Hv Hv'; rewrite !chknorm_ops_first_violation by done;
    (split; [done|]); (split; [|by intros ->]);
    apply chknorm_ops_of_inj; intros k Hk%first_violation_lt; lia.
Qed.

End Chknorm.

(** ** Hints *)

Lemma sumZ_app (l k : list Z) : sumZ (l ++ k) = sumZ l + sumZ k.
Proof. unfold sumZ. induction l as [|x l IH]; cbn [app foldr]; [done | rewrite IH; lia]. Qed.

Lemma sumZ_bounds (l : list Z) (b : Z) :
  Forall (fun x => 0 <= x <= b) l -> 0 <= sumZ l <= b * Z.of_nat (length l).
Proof.
  unfold sumZ. induction 1 as [|x l Hx _ IH]; cbn [foldr length]; [lia|].
  rewrite Nat2Z.inj_succ. lia.
Qed.

Section MakeHint.

Context `{ops : PolyOps}.
Variable mode : DILITHIUM_MODE.

(** After [k] passes the first [k] hints are written and [s] is the sum of
    the [k] counts, modulo [2^32]. *)
Lemma polyveck_make_hint_loop (h v0 v1 : polyveck) (k : nat) :
  (k <= length h)%nat ->
  for_loop 0 k (fun i '(h, s) =>
    let '(hi, n) := poly_make_hint (v0 !!! i) (v1 !!! i) in
    (<[i := hi]> h, uadd32 s n)) (h, 0) =
  (((fun i => (poly_make_hint (v0 !!! i) (v1 !!! i)).1) <$> seq 0 k) ++ drop k h,
   sumZ ((fun i => (poly_make_hint (v0 !!! i) (v1 !!! i)).2) <$> seq 0 k) mod 2 ^ 32).
Proof.
  induction k as [|k IH]; intros Hk.
  - by rewrite for_loop_empty.
  - rewrite for_loop_S, IH by lia. cbv beta iota.
    destruct (poly_make_hint (v0 !!! k) (v1 !!! k)) as [hi n] eqn:Hpmh.
    rewrite !seq_S, !fmap_app. cbn [fmap list_fmap Nat.add]. rewrite Hpmh. cbn [fst snd].
    f_equal.
    + rewrite insert_app_r_alt by (rewrite length_fmap, length_seq; lia).
      rewrite length_fmap, length_seq, Nat.sub_diag.
      destruct (lookup_lt_is_Some_2 h k) as [x Hx]; [lia|].
      rewrite (drop_S h x k Hx). cbn [list_insert insert]. by rewrite <- app_assoc.
    + unfold uadd32. rewrite sumZ_app. cbn [sumZ foldr].
      rewrite Z.add_0_r. apply Zplus_mod_idemp_l.
Qed.

Lemma hint_counts_no_wrap (v0 v1 : polyveck) :
  (forall i, (i < K mode)%nat ->
     0 <= (poly_make_hint (v0 !!! i) (v1 !!! i)).2 <= Z.of_nat N) ->
  0 <= sumZ ((fun i => (poly_make_hint (v0 !!! i) (v1 !!! i)).2) <$> seq 0 (K mode)) < 2 ^ 32.
Proof.
  intros Hcount.
  pose proof (sumZ_bounds
    ((fun i => (poly_make_hint (v0 !!! i) (v1 !!! i)).2) <$> seq 0 (K mode)) (Z.of_nat N))
    as Hb.
  rewrite length_fmap, length_seq in Hb.
  pose proof (K_le_8 mode). unfold N in Hb.
  destruct Hb as [Hlo Hhi]; [|lia].
  apply Forall_fmap, Forall_forall. intros i Hi%in_seq. apply Hcount. lia.
Qed.

(** C9. [polyveck_make_hint] writes [poly_make_hint (v0[i], v1[i])] to
    [h[i]] for every [i < K] and returns the sum over [i < K] of the counts
    that the K calls return, each of the K counts being at most [N]; when
    each count is the number of ones of its hint polynomial, that sum is the
    number of ones in the hint vector. *)
Theorem polyveck_make_hint_sum (h v0 v1 : polyveck) :
  length h = K mode ->
  (forall i, (i < K mode)%nat ->
     0 <= (poly_make_hint (v0 !!! i) (v1 !!! i)).2 <= Z.of_nat N) ->
  exists h' s,
    polyveck_make_hint mode h v0 v1 = (h', s)
    /\ length h' = K mode
    /\ (forall i, (i < K mode)%nat ->
          h' !! i = Some (poly_make_hint (v0 !!! i) (v1 !!! i)).1)
    /\ s = sumZ ((fun i => (poly_make_hint (v0 !!! i) (v1 !!! i)).2) <$> seq 0 (K mode))
    /\ ((forall i, (i < K mode)%nat ->
           (poly_make_hint (v0 !!! i) (v1 !!! i)).2
           = popcount (poly_make_hint (v0 !!! i) (v1 !!! i)).1) ->
        s = sumZ (popcount <$> h')).
Proof.
  intros Hlen Hcount. unfold polyveck_make_hint.
  rewrite polyveck_make_hint_loop by lia.
  rewrite <- Hlen, drop_all, app_nil_r, Hlen.
  rewrite Z.mod_small by by apply hint_counts_no_wrap.
  eexists _, _. split; [reflexivity|]. split; [|split; [|split]].
  - by rewrite length_fmap, length_seq.
  - intros i Hi. by rewrite list_lookup_fmap, lookup_seq_lt.
  - reflexivity.
  - intros Hpop. f_equal. rewrite <- list_fmap_compose. apply list_fmap_ext.
    intros j i [-> Hj]%lookup_seq. cbn. apply Hpop. lia.
Qed.

End MakeHint.

(** ** Nonces of the vector samplers *)

Lemma uint16_add_1 (nonce : Z) (k : nat) :
  uint16 (uint16 (nonce + Z.of_nat k) + 1) = uint16 (nonce + Z.of_nat (S k)).
Proof.
  unfold uint16. rewrite Zplus_mod_idemp_l. f_equal. lia.
Qed.

Section Samplers.

Context `{ops : PolyOps}.
Variable mode : DILITHIUM_MODE.

(** After [k] passes of [v->vec[i] = poly_uniform_eta(seed, nonce++)] the
    first [k] polynomials are sampled with consecutive nonces. *)
Lemma uniform_eta_loop (v : list poly) (seed : list Z) (nonce : Z) (k : nat) :
  0 <= nonce < 2 ^ 16 -> (k <= length v)%nat ->
  for_loop 0 k (fun i '(v, nonce) =>
    (<[i := poly_uniform_eta seed nonce]> v, uint16 (nonce + 1))) (v, nonce) =
  (((fun i => poly_uniform_eta seed (uint16 (nonce + Z.of_nat i))) <$> seq 0 k) ++ drop k v,
   uint16 (nonce + Z.of_nat k)).
Proof.
  intros Hnonce. induction k as [|k IH]; intros Hk.
  - rewrite for_loop_empty. cbn. unfold uint16. by rewrite Z.add_0_r, Z.mod_small.
  - rewrite for_loop_S, IH by lia. cbv beta iota.
    rewrite seq_S, fmap_app. cbn [fmap list_fmap Nat.add].
    f_equal; [|apply uint16_add_1].
    rewrite insert_app_r_alt by (rewrite length_fmap, length_seq; lia).
    rewrite length_fmap, length_seq, Nat.sub_diag.
    destruct (lookup_lt_is_Some_2 v k) as [x Hx]; [lia|].
    rewrite (drop_S v x k Hx). cbn [list_insert insert]. by rewrite <- app_assoc.
Qed.

Lemma uniform_eta_lookup (v : list poly) (seed : list Z) (nonce : Z) (n i : nat) :
  0 <= nonce < 2 ^ 16 -> length v = n -> (i < n)%nat ->
  (for_loop 0 n (fun i '(v, nonce) =>
     (<[i := poly_uniform_eta seed nonce]> v, uint16 (nonce + 1))) (v, nonce)).1 !! i
  = Some (poly_uniform_eta seed (uint16 (nonce + Z.of_nat i))).
Proof.
  intros Hnonce Hlen Hi. rewrite uniform_eta_loop by lia. cbn [fst].
  rewrite lookup_app_l by (rewrite length_fmap, length_seq; lia).
  by rewrite list_lookup_fmap, lookup_seq_lt.
Qed.

(** C10. With [nonce] a [uint16_t]: [polyvecl_uniform_eta] samples entry
    [i < L], and [polyveck_uniform_eta] entry [i < K], with the nonce
    [nonce + i] (consecutive nonces, taken modulo [2^16] as the parameter is
    a [uint16_t]), whereas [polyvecl_uniform_gamma1] samples entry [i < L]
    with the nonce [L * nonce + i], taken modulo [2^16] likewise. *)
Theorem polyvec_uniform_nonces (v : list poly) (seed : list Z) (nonce : Z) (i : nat) :
  0 <= nonce < 2 ^ 16 ->
  (length v = L mode -> (i < L mode)%nat ->
     polyvecl_uniform_eta mode v seed nonce !! i =
       Some (poly_uniform_eta seed ((nonce + Z.of_nat i) mod 2 ^ 16))
     /\ polyvecl_uniform_gamma1 mode v seed nonce !! i =
       Some (poly_uniform_gamma1 seed ((Z.of_nat (L mode) * nonce + Z.of_nat i) mod 2 ^ 16)))
  /\ (length v = K mode -> (i < K mode)%nat ->
     polyveck_uniform_eta mode v seed nonce !! i =
       Some (poly_uniform_eta seed ((nonce + Z.of_nat i) mod 2 ^ 16)))
  /\ (nonce + Z.of_nat i < 2 ^ 16 -> (nonce + Z.of_nat i) mod 2 ^ 16 = nonce + Z.of_nat i)
  /\ (Z.of_nat (L mode) * nonce + Z.of_nat i < 2 ^ 16 ->
      (Z.of_nat (L mode) * nonce + Z.of_nat i) mod 2 ^ 16
      = Z.of_nat (L mode) * nonce + Z.of_nat i).
Proof.
  intros Hnonce. pose proof (L_lt_K_bounds mode) as HL.
  split; [|split; [|split]].
  - intros Hlen Hi. split.
    + unfold polyvecl_uniform_eta. by apply uniform_eta_lookup.
    + unfold polyvecl_uniform_gamma1.
      rewrite (for_loop_fill_lookup
                 (fun i => poly_uniform_gamma1 seed
                             (uint16 (uadd32 (Z.of_nat (L mode) * nonce) (Z.of_nat i))))) by lia.
      do 2 f_equal. unfold uint16, uadd32. f_equal. apply Z.mod_small. nia.
  - intros Hlen Hi. unfold polyveck_uniform_eta. by apply uniform_eta_lookup.
  - intros Hlt. apply Z.mod_small. lia.
  - intros Hlt. apply Z.mod_small. nia.
Qed.

End Samplers.

(** ** The vector layer on the implementation from the specification *)

Lemma SpecPoly_chknorm_contract mode : poly_chknorm_contract (ops := SpecPoly.ops mode).
Proof.
  intros a B. cbn. unfold SpecPoly.poly_chknorm.
  destruct (existsb (fun c => B <=? Z.abs c) a) eqn:Hex.
  - split; [intros _ | done].
    apply existsb_exists in Hex as (c & Hin & Hc).
    exists c. split; [by apply list_elem_of_In | lia].
  - split; [done|]. intros (c & Hin & Hc).
    assert (existsb (fun c => B <=? Z.abs c) a = true) as Htrue; [|congruence].
    apply existsb_exists. exists c. split; [by apply list_elem_of_In | lia].
Qed.

Lemma SpecPoly_make_hint_count mode a0 a1 :
  length a0 = N ->
  0 <= (poly_make_hint (PolyOps := SpecPoly.ops mode) a0 a1).2 <= Z.of_nat N.
Proof.
  intros Hlen. cbn. split; [lia|]. apply inj_le.
  etrans; [apply length_filter|]. rewrite length_zip_with. lia.
Qed.

Lemma SpecPoly_make_hint_popcount mode a0 a1 :
  (poly_make_hint (PolyOps := SpecPoly.ops mode) a0 a1).2
  = popcount (poly_make_hint (PolyOps := SpecPoly.ops mode) a0 a1).1.
Proof. reflexivity. Qed.

(** Level 2, the all-zero seed: entry (1, 2) of the expanded matrix. *)
Lemma polyvec_matrix_expand_entries_witness :
  exists row,
    polyvec_matrix_expand (ops := SpecPoly.ops MODE2) MODE2
      (replicate 4 (replicate 4 [])) (replicate 32 0) !! 1%nat = Some row
    /\ row !! 2%nat = Some (poly_uniform (PolyOps := SpecPoly.ops MODE2) (replicate 32 0)
                              (Z.shiftl (Z.of_nat 1) 8 .| Z.of_nat 2))
    /\ Z.shiftl (Z.of_nat 1) 8 .| Z.of_nat 2 = 256 * Z.of_nat 1 + Z.of_nat 2.
Proof.
  apply (polyvec_matrix_expand_entries (ops := SpecPoly.ops MODE2) MODE2
           (replicate 4 (replicate 4 [])) (replicate 32 0) 1 2).
  - reflexivity.
  - repeat constructor.
  - cbn. lia.
  - cbn. lia.
Defined.

(** Level 2: a 4 x 4 matrix of constant polynomials against a vector. *)
Lemma polyvec_matrix_pointwise_montgomery_dot_witness :
  exists row p0 ps,
    replicate 4 (replicate 4 [1; 2]) !! 0%nat = Some row
    /\ zip_with SpecPoly.poly_pointwise_montgomery row (replicate 4 [3; 4]) = p0 :: ps
    /\ length ps = 3%nat
    /\ polyvec_matrix_pointwise_montgomery (ops := SpecPoly.ops MODE2) MODE2
         (replicate 4 []) (replicate 4 (replicate 4 [1; 2])) (replicate 4 [3; 4]) !! 0%nat
       = Some (foldl SpecPoly.poly_add p0 ps)
    /\ dot_product (ops := SpecPoly.ops MODE2) row (replicate 4 [3; 4])
       = Some (foldl SpecPoly.poly_add p0 ps).
Proof.
  apply (polyvec_matrix_pointwise_montgomery_dot (ops := SpecPoly.ops MODE2) MODE2
           (replicate 4 []) (replicate 4 (replicate 4 [1; 2])) (replicate 4 [3; 4]) 0).
  - reflexivity.
  - reflexivity.
  - repeat constructor.
  - reflexivity.
  - cbn. lia.
Defined.

(** Level 2: a vector whose third polynomial has a coefficient -7, bound 5. *)
Lemma polyvec_chknorm_result_witness :
  polyveck_chknorm (ops := SpecPoly.ops MODE2) MODE2 [[0; 1]; [2; -3]; [4; -7]; [0]] 5 = 1
  <-> exists a c, a ∈ [[0; 1]; [2; -3]; [4; -7]; [0]] /\ c ∈ a /\ 5 <= Z.abs c.
Proof.
  apply (polyvec_chknorm_result (ops := SpecPoly.ops MODE2) MODE2
           [[0; 1]; [2; -3]; [4; -7]; [0]] 5).
  - apply SpecPoly_chknorm_contract.
  - reflexivity.
Defined.

(** C8, counterexample. Level 2, bound 1: the all-zero vector and the vector
    whose first polynomial is all ones do not lead to the same operations;
    the first run checks the four polynomials, the second one returns after
    the first. *)
Lemma polyvecl_chknorm_ops_differ :
  polyvecl_chknorm_ops (ops := SpecPoly.ops MODE2) MODE2
    (replicate 4 (replicate 256 0)) 1
  <> polyvecl_chknorm_ops (ops := SpecPoly.ops MODE2) MODE2
    (replicate 256 1 :: replicate 3 (replicate 256 0)) 1.
Proof. vm_compute. discriminate. Qed.

Lemma polyvec_chknorm_ops_first_violation_witness :
  polyvecl_chknorm_ops (ops := SpecPoly.ops MODE2) MODE2 [[0]; [9]; [0]; [9]] 5
  = polyvecl_chknorm_ops (ops := SpecPoly.ops MODE2) MODE2 [[1]; [-6]; [7]; [0]] 5
  <-> first_violation (ops := SpecPoly.ops MODE2) [[0]; [9]; [0]; [9]] 5
      = first_violation (ops := SpecPoly.ops MODE2) [[1]; [-6]; [7]; [0]] 5.
Proof.
  apply (polyvec_chknorm_ops_first_violation (ops := SpecPoly.ops MODE2) MODE2
           [[0]; [9]; [0]; [9]] [[1]; [-6]; [7]; [0]] 5); reflexivity.
Defined.

(** Level 2: hints of four pairs of polynomials of [N] coefficients. *)
Lemma polyveck_make_hint_sum_witness :
  exists h' s,
    polyveck_make_hint (ops := SpecPoly.ops MODE2) MODE2 (replicate 4 [])
      (replicate 4 (replicate 256 95233)) (replicate 4 (replicate 256 0)) = (h', s)
    /\ length h' = 4%nat
    /\ s = sumZ (popcount <$> h').
Proof.
  destruct (polyveck_make_hint_sum (ops := SpecPoly.ops MODE2) MODE2 (replicate 4 [])
              (replicate 4 (replicate 256 95233)) (replicate 4 (replicate 256 0)))
    as (h' & s & Heq & Hlen & _ & _ & Hpop).
  - reflexivity.
  - intros i Hi. apply SpecPoly_make_hint_count.
    rewrite lookup_total_replicate_2 by exact Hi. apply length_replicate.
  - exists h', s. split; [exact Heq|]. split; [exact Hlen|]. apply Hpop.
    intros i _. apply SpecPoly_make_hint_popcount.
Defined.

(** Level 3, nonce 65535: the second nonce of [polyvecl_uniform_eta] wraps
    to 0. *)
Lemma polyvec_uniform_nonces_witness :
  polyvecl_uniform_eta (ops := SpecPoly.ops MODE3) MODE3 (replicate 5 []) (replicate 64 0) 65535
    !! 1%nat
  = Some (poly_uniform_eta (PolyOps := SpecPoly.ops MODE3) (replicate 64 0)
            ((65535 + Z.of_nat 1) mod 2 ^ 16)).
Proof.
  refine (proj1 (proj1 (polyvec_uniform_nonces (ops := SpecPoly.ops MODE3) MODE3
                          (replicate 5 []) (replicate 64 0) 65535 1 _) _ _)).
  - lia.
  - reflexivity.
  - cbn. lia.
Defined.

(** * More of the sponge *)

(** ** Bytes and lanes *)

(** Bit [n] of a byte moved to bit position [k]. *)
Lemma byte_shiftl_testbit (b k n : Z) :
  byte_wf b -> 0 <= k -> 0 <= n ->
  Z.testbit (Z.shiftl b k) n = bool_decide (k <= n < k + 8) && Z.testbit b (n - k).
Proof.
  intros Hb Hk Hn. rewrite Z.shiftl_spec by done.
  case_bool_decide as Hrange; [done|]. cbn [andb].
  destruct (decide (n < k)); [by apply Z.testbit_neg_r; lia|].
  apply (Z.bounded_iff_bits_nonneg 8 b); unfold byte_wf in Hb; lia.
Qed.

(** Bit [n] of byte number [k/8] of a lane, moved to position 0. *)
Lemma byte_of_lane_testbit (u k n : Z) :
  0 <= k -> 0 <= n ->
  Z.testbit (Z.shiftr u k mod 256) n = bool_decide (n < 8) && Z.testbit u (n + k).
Proof.
  intros Hk Hn. change 256 with (2 ^ 8). rewrite Z.testbit_mod_pow2 by lia.
  rewrite Z.shiftr_spec by done.
  by case_bool_decide; [rewrite (proj2 (Z.ltb_lt _ _)) | rewrite (proj2 (Z.ltb_ge _ _)) by lia].
Qed.

Lemma byte_of_lane_wf (u k : Z) : byte_wf (Z.shiftr u k mod 256).
Proof. apply Z.mod_pos_bound. lia. Qed.

Lemma load64_unfold (x : list Z) :
  load64 x =
  0 .| Z.shiftl (x !!! 0%nat) 0 .| Z.shiftl (x !!! 1%nat) 8 .| Z.shiftl (x !!! 2%nat) 16
    .| Z.shiftl (x !!! 3%nat) 24 .| Z.shiftl (x !!! 4%nat) 32 .| Z.shiftl (x !!! 5%nat) 40
    .| Z.shiftl (x !!! 6%nat) 48 .| Z.shiftl (x !!! 7%nat) 56.
Proof. reflexivity. Qed.

(** Decide every range test on a bit position that the context settles. *)
Ltac decide_ranges :=
  repeat match goal with
         | |- context [bool_decide ?P] =>
             first [ rewrite (bool_decide_eq_true_2 P) by lia
                   | rewrite (bool_decide_eq_false_2 P) by lia ]
         end;
  cbn [andb orb xorb];
  rewrite ?orb_false_r, ?orb_false_l, ?xorb_false_r, ?xorb_false_l, ?andb_true_l,
    ?andb_false_l, ?Z.sub_0_r, ?Z.add_0_r.

(** The byte of a lane that bit [n] lies in. *)
Lemma bit_byte_cases (n : Z) :
  0 <= n < 64 ->
  0 <= n < 8 \/ 8 <= n < 16 \/ 16 <= n < 24 \/ 24 <= n < 32 \/ 32 <= n < 40
  \/ 40 <= n < 48 \/ 48 <= n < 56 \/ 56 <= n < 64.
Proof. lia. Qed.

Ltac split_bit_byte n :=
  let H := fresh "Hbyte" in
  destruct (bit_byte_cases n) as [H|[H|[H|[H|[H|[H|[H|H]]]]]]]; [lia|..].

(** X1, first half: the eight bytes [store64] writes are the lane [load64]
    reads back. *)
Lemma load64_store64 (u : Z) : U64.wf u -> load64 (store64 u) = u.
Proof.
  intros [Hu Hbits]%U64Facts.wf_bits.
  rewrite load64_unfold. cbn [store64 map seq lookup_total list_lookup_total Z.of_nat Z.mul].
  apply Z.bits_inj'. intros n Hn.
  rewrite !Z.lor_spec, Z.bits_0, !byte_shiftl_testbit by (auto using byte_of_lane_wf || lia).
  destruct (decide (n < 64)).
  - split_bit_byte n; decide_ranges; rewrite byte_of_lane_testbit by lia;
      decide_ranges; f_equal; lia.
  - rewrite Hbits by lia. by decide_ranges.
Qed.

Lemma byte_wf_bits (b n : Z) : byte_wf b -> 8 <= n -> Z.testbit b n = false.
Proof. intros Hb Hn. apply (Z.bounded_iff_bits_nonneg 8 b); unfold byte_wf in Hb; lia. Qed.

(** Byte [i] of the lane that [load64] builds from eight bytes. *)
Lemma load64_byte (x : list Z) (i : nat) :
  Forall byte_wf x -> length x = 8%nat -> (i < 8)%nat ->
  Z.shiftr (load64 x) (8 * Z.of_nat i) mod 256 = x !!! i.
Proof.
  intros Hx Hlen Hi.
  do 8 (destruct x as [|? x]; [discriminate Hlen|]). destruct x; [|discriminate Hlen].
  repeat match goal with
         | H : Forall _ (_ :: _) |- _ =>
             let Hb := fresh "Hb" in apply Forall_cons_1 in H; destruct H as [Hb H]
         end.
  rewrite load64_unfold. cbn [lookup_total list_lookup_total].
  apply Z.bits_inj'. intros n Hn.
  rewrite byte_of_lane_testbit by lia.
  rewrite !Z.lor_spec, Z.bits_0, !byte_shiftl_testbit by (done || lia).
  do 8 (destruct i as [|i]; [cbn [lookup_total list_lookup_total Z.of_nat Z.mul Pos.of_succ_nat Pos.succ Pos.mul];
        destruct (decide (n < 8));
        [decide_ranges; f_equal; lia
        |rewrite (byte_wf_bits _ n) by (done || lia); by decide_ranges] |]).
  lia.
Qed.

(** X1, second half: the lane [load64] reads from eight bytes is written
    back by [store64] as those bytes. *)
Lemma store64_load64 (x : list Z) :
  Forall byte_wf x -> length x = 8%nat -> store64 (load64 x) = x.
Proof.
  intros Hx Hlen. apply list_eq_same_length with 8%nat; [done | done |].
  intros i b b' Hi Hb Hb'. unfold store64 in Hb.
  rewrite list_lookup_fmap, lookup_seq_lt in Hb by done.
  cbn [fmap option_fmap option_map Nat.add] in Hb.
  injection Hb as <-. rewrite load64_byte by done.
  by apply list_lookup_total_correct.
Qed.

Lemma lookup_total_byte_wf (x : list Z) (i : nat) : Forall byte_wf x -> byte_wf (x !!! i).
Proof.
  intros Hx. destruct (x !! i) as [b|] eqn:Hb.
  - rewrite (list_lookup_total_correct _ _ _ Hb). by eapply Forall_lookup_1.
  - rewrite list_lookup_total_alt, Hb. cbn. unfold byte_wf. lia.
Qed.

Lemma load64_wf (x : list Z) : Forall byte_wf x -> U64.wf (load64 x).
Proof.
  intros Hx. apply U64Facts.wf_bits. rewrite load64_unfold.
  assert (Hb : forall i, byte_wf (x !!! i)) by (intros i; by apply lookup_total_byte_wf).
  split.
  - repeat (apply Z.lor_nonneg; split); try done;
      apply Z.shiftl_nonneg; apply Hb.
  - intros n Hn.
    rewrite !Z.lor_spec, Z.bits_0, !byte_shiftl_testbit by (done || lia).
    by decide_ranges.
Qed.

(** X1. [store64] and [load64] are inverse to each other: a 64-bit lane
    survives the trip through its eight little-endian bytes, and eight bytes
    survive the trip through the lane. *)
Theorem load64_store64_roundtrip (u : Z) (x : list Z) :
  (U64.wf u -> load64 (store64 u) = u /\ length (store64 u) = 8%nat
               /\ Forall byte_wf (store64 u))
  /\ (Forall byte_wf x -> length x = 8%nat ->
      store64 (load64 x) = x /\ U64.wf (load64 x)).
Proof.
  split.
  - intros Hu. split; [by apply load64_store64|]. split; [reflexivity|].
    unfold store64. apply Forall_fmap, Forall_forall. intros i _. apply byte_of_lane_wf.
  - intros Hx Hlen. split; [by apply store64_load64 | by apply load64_wf].
Qed.

Lemma load64_store64_roundtrip_witness :
  load64 (store64 0x0123456789abcdef) = 0x0123456789abcdef
  /\ store64 (load64 [1; 2; 3; 4; 5; 6; 7; 255]) = [1; 2; 3; 4; 5; 6; 7; 255].
Proof.
  pose proof (load64_store64_roundtrip 0x0123456789abcdef [1; 2; 3; 4; 5; 6; 7; 255])
    as [Hu Hx].
  split.
  - apply Hu. by vm_compute.
  - apply Hx; [|reflexivity]. repeat (apply Forall_cons; [by vm_compute|]). apply Forall_nil_2.
Defined.

(** ** The state stays 25 lanes of 64 bits *)

Lemma byte_shiftl_wf (b k : Z) : byte_wf b -> 0 <= k <= 56 -> U64.wf (Z.shiftl b k).
Proof.
  intros Hb Hk. apply U64Facts.wf_bits. split.
  - apply Z.shiftl_nonneg. apply Hb.
  - intros n Hn. rewrite byte_shiftl_testbit by (done || lia).
    case_bool_decide; [lia | done].
Qed.

Lemma state_wf_alter (f : Z -> Z) (i : nat) (s : list Z) :
  (forall lane, U64.wf lane -> U64.wf (f lane)) -> state_wf s -> state_wf (alter f i s).
Proof.
  intros Hf [Hlen Hlanes]. split; [by rewrite length_alter|].
  apply Forall_alter; [done|]. intros lane _. apply Hf.
Qed.




Lemma xor_byte_wf s i b : state_wf s -> byte_wf b -> state_wf (xor_byte s i b).
Proof.
  intros Hs Hb. apply state_wf_alter; [|done]. intros lane Hlane.
  apply U64Facts.wf_lxor; [done|]. apply byte_shiftl_wf; [done|].
  pose proof (Nat.mod_upper_bound i 8). lia.
Qed.

Lemma xor_bytes_wf bs : forall s i,
  state_wf s -> Forall byte_wf bs -> state_wf (xor_bytes s i bs).
Proof.
  induction bs as [|b bs IH]; intros s i Hs Hbs; [done|].
  apply Forall_cons_1 in Hbs as [Hb Hbs]. cbn [xor_bytes].
  apply IH; [by apply xor_byte_wf | done].
Qed.





(** ** Squeezing *)

(** From here on the permutation is a black box: no proof below looks into
    its rounds. *)
#[local] Opaque KeccakF1600_StatePermute.


Section Squeeze.

Variable r : nat.
Hypothesis r_pos : (0 < r)%nat.

Lemma squeeze_stream_app n m st :
  squeeze_stream (n + m) r st =
  let '(o1, st1) := squeeze_stream n r st in
  let '(o2, st2) := squeeze_stream m r st1 in
  (o1 ++ o2, st2).
Proof.
  revert st. induction n as [|n IH]; intros st; cbn [Nat.add squeeze_stream].
  - by destruct (squeeze_stream m r st).
  - destruct (squeeze_byte r st) as [b st1]. rewrite IH.
    destruct (squeeze_stream n r st1) as [o1 st2].
    by destruct (squeeze_stream m r st2).
Qed.

(** Inside the rate window the bytes come from the state as it is. *)
Lemma squeeze_stream_within n : forall s pos,
  (pos + n <= r)%nat ->
  squeeze_stream n r (s, pos) = (squeeze_bytes s pos n, (s, (pos + n)%nat)).
Proof.
  induction n as [|n IH]; intros s pos Hle.
  - cbn. by rewrite Nat.add_0_r.
  - cbn [squeeze_stream]. unfold squeeze_byte. cbn [fst snd].
    rewrite (proj2 (Nat.eqb_neq pos r)) by lia.
    rewrite IH by lia. unfold squeeze_bytes. cbn [seq map]. do 2 f_equal. lia.
Qed.

(** At the end of the window the first byte asked for permutes the state. *)
Lemma squeeze_stream_permute n s :
  squeeze_stream (S n) r (s, r) = squeeze_stream (S n) r (KeccakF1600_StatePermute s, 0%nat).
Proof.
  cbn [squeeze_stream]. unfold squeeze_byte. cbn [fst snd].
  by rewrite Nat.eqb_refl, (proj2 (Nat.eqb_neq 0 r)) by lia.
Qed.

(** The [while] loop of [keccak_squeeze] squeezes byte by byte. *)
Lemma keccak_squeeze_loop_stream fuel : forall out outlen s pos,
  (pos <= r)%nat -> (outlen <= fuel)%nat ->
  keccak_squeeze_loop fuel out outlen s pos r =
  let '(o, (s', pos')) := squeeze_stream outlen r (s, pos) in Some (out ++ o, s', pos').
Proof.
  induction fuel as [|fuel IH]; intros out outlen s pos Hpos Hfuel.
  { assert (outlen = 0%nat) as -> by lia. cbn. by rewrite app_nil_r. }
  destruct outlen as [|outlen]; [cbn; by rewrite app_nil_r|].
  cbn [keccak_squeeze_loop].
  assert (Hstep : forall s1 pos1, (pos1 < r)%nat ->
            squeeze_stream (S outlen) r (s1, pos1) =
            let n := ((r - pos1) `min` S outlen)%nat in
            let '(o2, st2) := squeeze_stream (S outlen - n) r (s1, (pos1 + n)%nat) in
            (squeeze_bytes s1 pos1 n ++ o2, st2)).
  { intros s1 pos1 Hlt. cbv zeta.
    replace (S outlen) with (((r - pos1) `min` S outlen) + (S outlen - (r - pos1) `min` S outlen))%nat
      at 1 by lia.
    rewrite squeeze_stream_app, squeeze_stream_within by lia. done. }
  destruct (Nat.eqb_spec pos r) as [->|Hne].
  - rewrite squeeze_stream_permute, Hstep by lia. cbv zeta.
    rewrite IH by lia.
    destruct (squeeze_stream _ r _) as [o2 [s2 pos2]]. by rewrite app_assoc.
  - rewrite Hstep by lia. cbv zeta. rewrite IH by lia.
    destruct (squeeze_stream _ r _) as [o2 [s2 pos2]]. by rewrite app_assoc.
Qed.

Lemma keccak_squeeze_stream outlen s pos :
  (pos <= r)%nat ->
  keccak_squeeze outlen s pos r =
  let '(o, (s', pos')) := squeeze_stream outlen r (s, pos) in Some (o, s', pos').
Proof.
  intros Hpos. unfold keccak_squeeze. by rewrite keccak_squeeze_loop_stream.
Qed.

Lemma squeeze_byte_shape st :
  (st.2 <= r)%nat ->
  byte_wf (squeeze_byte r st).1 /\ (0 < (squeeze_byte r st).2.2 <= r)%nat.
Proof.
  intros Hpos. destruct st as [s pos]. unfold squeeze_byte. cbn [fst snd] in *.
  destruct (Nat.eqb_spec pos r) as [Heq|Hne]; cbn [fst snd];
    (split; [apply byte_of_lane_wf | lia]).
Qed.

(** What a squeezed stream looks like: [n] bytes, a cursor inside the window
    and not at its start once a byte has been emitted. *)
Lemma squeeze_stream_shape n : forall st,
  (st.2 <= r)%nat ->
  length (squeeze_stream n r st).1 = n
  /\ Forall byte_wf (squeeze_stream n r st).1
  /\ ((squeeze_stream n r st).2.2 <= r)%nat
  /\ ((0 < n)%nat \/ (0 < st.2)%nat -> (0 < (squeeze_stream n r st).2.2)%nat).
Proof.
  induction n as [|n IH]; intros st Hpos;
    [cbn [squeeze_stream fst snd length]; repeat split; [apply Forall_nil_2 | lia | lia]|].
  cbn [squeeze_stream]. pose proof (squeeze_byte_shape st Hpos) as [Hbyte Hpos1].
  destruct (squeeze_byte r st) as [b st1]. cbn [fst snd] in Hbyte, Hpos1.
  specialize (IH st1 ltac:(lia)).
  destruct (squeeze_stream n r st1) as [out st2]. cbn [fst snd length] in *.
  destruct IH as (Hlen & Hbytes & Hle & Hgt). repeat split.
  - by rewrite Hlen.
  - by apply Forall_cons.
  - exact Hle.
  - intros _. apply Hgt. lia.
Qed.

End Squeeze.

(** X3. [keccak_squeeze], called with a cursor in [0, r], returns: exactly
    [outlen] bytes, a cursor in [0, r] that is not 0 when a byte was asked
    for, and the state of the last block squeezed. *)
Theorem keccak_squeeze_shape (outlen : nat) (s : list Z) (pos r : nat) :
  (0 < r)%nat -> (pos <= r)%nat ->
  exists out s' pos',
    keccak_squeeze outlen s pos r = Some (out, s', pos')
    /\ length out = outlen
    /\ Forall byte_wf out
    /\ (pos' <= r)%nat
    /\ ((0 < outlen)%nat -> (0 < pos')%nat).
Proof.
  intros Hr Hpos. rewrite keccak_squeeze_stream by done.
  pose proof (squeeze_stream_shape r Hr outlen (s, pos) Hpos) as (Hlen & Hbytes & Hle & Hgt).
  destruct (squeeze_stream outlen r (s, pos)) as [out [s' pos']]. cbn [fst snd] in *.
  exists out, s', pos'. repeat split; try done. intros Hout. apply Hgt. by left.
Qed.

Lemma keccak_squeeze_shape_witness :
  exists out s' pos',
    keccak_squeeze 200 keccak_init SHAKE128_RATE SHAKE128_RATE = Some (out, s', pos')
    /\ length out = 200%nat /\ (pos' <= SHAKE128_RATE)%nat.
Proof.
  destruct (keccak_squeeze_shape 200 keccak_init SHAKE128_RATE SHAKE128_RATE)
    as (out & s' & pos' & Hsq & Hlen & _ & Hle & _).
  - unfold SHAKE128_RATE. lia.
  - lia.
  - exists out, s', pos'. split; [exact Hsq|]. split; [exact Hlen | exact Hle].
Defined.

(** X4. Squeezing [n] bytes and then [m] more, the state and cursor threaded
    through, gives the bytes, state and cursor of squeezing [n + m] at
    once. *)
Theorem keccak_squeeze_app (n m : nat) (s : list Z) (pos r : nat) :
  (0 < r)%nat -> (pos <= r)%nat ->
  keccak_squeeze (n + m) s pos r =
  ('(out1, s1, pos1) ← keccak_squeeze n s pos r;
   '(out2, s2, pos2) ← keccak_squeeze m s1 pos1 r;
   Some (out1 ++ out2, s2, pos2))
  /\ exists out s' pos', keccak_squeeze (n + m) s pos r = Some (out, s', pos').
Proof.
  intros Hr Hpos. rewrite !keccak_squeeze_stream by done.
  rewrite squeeze_stream_app.
  pose proof (squeeze_stream_shape r Hr n (s, pos) Hpos) as (_ & _ & Hle & _).
  destruct (squeeze_stream n r (s, pos)) as [out1 [s1 pos1]]. cbn [fst snd] in Hle.
  cbn [mbind option_bind]. rewrite keccak_squeeze_stream by done.
  destruct (squeeze_stream m r (s1, pos1)) as [out2 [s2 pos2]].
  split; [done | by eauto].
Qed.

Lemma keccak_squeeze_app_witness :
  keccak_squeeze (100 + 100) keccak_init 7 SHAKE256_RATE =
  ('(out1, s1, pos1) ← keccak_squeeze 100 keccak_init 7 SHAKE256_RATE;
   '(out2, s2, pos2) ← keccak_squeeze 100 s1 pos1 SHAKE256_RATE;
   Some (out1 ++ out2, s2, pos2)).
Proof.
  refine (proj1 (keccak_squeeze_app 100 100 keccak_init 7 SHAKE256_RATE _ _));
    unfold SHAKE256_RATE; lia.
Defined.




(** ** Whole blocks *)

Lemma div_mod_8 (m j : nat) :
  (j < 8)%nat -> ((8 * m + j) / 8 = m)%nat /\ ((8 * m + j) mod 8 = j)%nat.
Proof.
  intros Hj. split; symmetry.
  - apply (Nat.div_unique _ 8 m j); lia.
  - apply (Nat.mod_unique _ 8 m j); lia.
Qed.

(** The lanes of the rate window, stored lane by lane, are its bytes. *)
Lemma store64_lanes (s : list Z) (m : nat) :
  flat_map (fun i => store64 (s !!! i)) (seq 0 m) = squeeze_bytes s 0 (8 * m).
Proof.
  induction m as [|m IH]; [done|].
  rewrite seq_S, flat_map_app, IH. cbn [flat_map Nat.add]. rewrite app_nil_r.
  unfold squeeze_bytes.
  replace (8 * S m)%nat with (8 * m + 8)%nat by lia.
  rewrite seq_app, map_app. f_equal. cbn [Nat.add].
  replace (seq (8 * m) 8) with (Nat.add (8 * m) <$> seq 0 8)
    by (by rewrite fmap_add_seq, Nat.add_0_r).
  unfold store64.
  change (map ?f (?g <$> ?l)) with (f <$> (g <$> l)).
  rewrite <- list_fmap_compose. apply list_fmap_ext.
  intros k j [-> Hk]%lookup_seq. cbn [Nat.add compose].
  destruct (div_mod_8 m k Hk) as [-> ->]. done.
Qed.

Section Blocks.

Variable r : nat.
Hypothesis r_pos : (0 < r)%nat.
Hypothesis r_lanes : (r mod 8 = 0)%nat.

Lemma rate_lanes : (r = 8 * (r / 8))%nat.
Proof. pose proof (Nat.div_mod_eq r 8). lia. Qed.

(** One pass of [keccak_squeezeblocks] is the next [r] bytes of the stream. *)
Lemma squeeze_stream_block (s : list Z) :
  squeeze_stream r r (s, r) =
  (flat_map (fun i => store64 (KeccakF1600_StatePermute s !!! i)) (seq 0 (r / 8)),
   (KeccakF1600_StatePermute s, r)).
Proof.
  replace (squeeze_stream r r (s, r)) with (squeeze_stream (S (r - 1)) r (s, r))
    by (f_equal; lia).
  rewrite squeeze_stream_permute by done.
  replace (S (r - 1)) with r by lia.
  rewrite squeeze_stream_within by lia. by rewrite store64_lanes, <- rate_lanes.
Qed.

Lemma keccak_squeezeblocks_stream nblocks : forall s,
  squeeze_stream (nblocks * r) r (s, r) =
  let '(out, s') := keccak_squeezeblocks nblocks s r in (out, (s', r)).
Proof.
  induction nblocks as [|n IH]; intros s; [done|].
  cbn [Nat.mul keccak_squeezeblocks].
  rewrite squeeze_stream_app, squeeze_stream_block, IH.
  by destruct (keccak_squeezeblocks n (KeccakF1600_StatePermute s) r).
Qed.

End Blocks.

(** X5. For a rate that is a multiple of 8, [keccak_squeezeblocks] is
    [keccak_squeeze] on a state whose cursor is at the end of the rate
    window, asked for [nblocks * r] bytes: the same bytes and state, the
    cursor again at the end of the window. *)
Theorem keccak_squeezeblocks_squeeze (nblocks : nat) (s : list Z) (r : nat) :
  (0 < r)%nat -> (r mod 8 = 0)%nat ->
  keccak_squeeze (nblocks * r) s r r =
  let '(out, s') := keccak_squeezeblocks nblocks s r in Some (out, s', r).
Proof.
  intros Hr Hlanes. rewrite keccak_squeeze_stream by lia.
  rewrite keccak_squeezeblocks_stream by done.
  by destruct (keccak_squeezeblocks nblocks s r).
Qed.

Lemma keccak_squeezeblocks_squeeze_witness :
  keccak_squeeze (2 * SHAKE128_RATE) keccak_init SHAKE128_RATE SHAKE128_RATE =
  let '(out, s') := keccak_squeezeblocks 2 keccak_init SHAKE128_RATE in
  Some (out, s', SHAKE128_RATE).
Proof.
  apply (keccak_squeezeblocks_squeeze 2 keccak_init SHAKE128_RATE).
  - unfold SHAKE128_RATE. lia.
  - reflexivity.
Defined.

(** ** Absorbing at once *)

Lemma xor_bytes_app (a b : list Z) : forall s i,
  xor_bytes s i (a ++ b) = xor_bytes (xor_bytes s i a) (i + length a) b.
Proof.
  induction a as [|x a IH]; intros s i; cbn [app xor_bytes length].
  - by rewrite Nat.add_0_r.
  - rewrite IH. f_equal. lia.
Qed.

Lemma xor_byte_aligned (s : list Z) (m j : nat) (b : Z) :
  (j < 8)%nat ->
  xor_byte s (8 * m + j) b = alter (fun lane => lane .^ Z.shiftl b (8 * Z.of_nat j)) m s.
Proof. intros Hj. unfold xor_byte. by destruct (div_mod_8 m j Hj) as [-> ->]. Qed.

Lemma xor_bytes_step (s : list Z) (i j : nat) (b : Z) (bs : list Z) :
  xor_bytes s (i + j) (b :: bs) = xor_bytes (xor_byte s (i + j) b) (i + S j) bs.
Proof. cbn [xor_bytes]. by rewrite Nat.add_succ_r. Qed.

(** XORing eight bytes one by one into disjoint bytes of a lane is XORing
    in the lane they make up. *)
Lemma xor_eight_bytes (lane b0 b1 b2 b3 b4 b5 b6 b7 : Z) :
  Forall byte_wf [b0; b1; b2; b3; b4; b5; b6; b7] ->
  lane .^ Z.shiftl b0 0 .^ Z.shiftl b1 8 .^ Z.shiftl b2 16 .^ Z.shiftl b3 24
       .^ Z.shiftl b4 32 .^ Z.shiftl b5 40 .^ Z.shiftl b6 48 .^ Z.shiftl b7 56
  = lane .^ load64 [b0; b1; b2; b3; b4; b5; b6; b7].
Proof.
  intros Hb.
  repeat match goal with
         | H : Forall _ (_ :: _) |- _ =>
             let Hx := fresh "Hx" in apply Forall_cons_1 in H; destruct H as [Hx H]
         end.
  rewrite load64_unfold. cbn [lookup_total list_lookup_total].
  apply Z.bits_inj'. intros n Hn.
  rewrite !Z.lxor_spec, !Z.lor_spec, Z.bits_0, !byte_shiftl_testbit by (done || lia).
  destruct (decide (n < 64)); [split_bit_byte n|]; by decide_ranges.
Qed.

(** Eight bytes at a lane boundary change that lane by [load64] of them. *)
Lemma xor_bytes_lane (s : list Z) (m : nat) (bs : list Z) :
  Forall byte_wf bs -> length bs = 8%nat ->
  xor_bytes s (8 * m) bs = alter (fun lane => lane .^ load64 bs) m s.
Proof.
  intros Hbs Hlen.
  do 8 (destruct bs as [|? bs]; [discriminate Hlen|]). destruct bs; [|discriminate Hlen].
  rewrite <- (Nat.add_0_r (8 * m)).
  rewrite !xor_bytes_step, !xor_byte_aligned by lia. cbn [xor_bytes].
  rewrite !list_alter_alter_eq. apply list_alter_ext; [|done].
  intros lane _. unfold compose. cbn [Z.of_nat Z.mul Pos.of_succ_nat Pos.succ Pos.mul].
  by apply xor_eight_bytes.
Qed.

Lemma load64_take (x : list Z) : load64 (take 8 x) = load64 x.
Proof. rewrite !load64_unfold. by rewrite !lookup_total_take by lia. Qed.

(** A block absorbed byte by byte from cursor 0 is the block absorbed lane
    by lane. *)
Lemma xor_bytes_lanes (inp : list Z) (m : nat) : forall s,
  Forall byte_wf inp -> (8 * m <= length inp)%nat ->
  xor_bytes s 0 (take (8 * m) inp) =
  foldl (fun s i => alter (fun lane => lane .^ load64 (drop (8 * i) inp)) i s) s (seq 0 m).
Proof.
  induction m as [|m IH]; intros s Hinp Hlen; [done|].
  rewrite seq_S, foldl_app. cbn [foldl Nat.add]. rewrite <- IH by (done || lia).
  replace (8 * S m)%nat with (8 * m + 8)%nat by lia.
  rewrite <- take_take_drop, xor_bytes_app, length_take, Nat.min_l by lia.
  cbn [Nat.add]. rewrite xor_bytes_lane, load64_take.
  - done.
  - by apply Forall_take, Forall_drop.
  - rewrite length_take, length_drop. lia.
Qed.

Section AbsorbOnce.

Variable r : nat.
Hypothesis r_pos : (0 < r)%nat.
Hypothesis r_lanes : (r mod 8 = 0)%nat.

(** The two [while] loops run the same passes. *)
Lemma keccak_absorb_once_loop_absorb fuel : forall s inp,
  Forall byte_wf inp ->
  keccak_absorb_loop fuel s 0 r inp =
  ('(s', rest) ← keccak_absorb_once_loop fuel s r inp;
   Some (xor_bytes s' 0 rest, length rest)).
Proof.
  induction fuel as [|fuel IH]; intros s inp Hinp;
    cbn [keccak_absorb_loop keccak_absorb_once_loop Nat.add];
    destruct (Nat.leb_spec r (length inp)) as [Hfull|Hshort]; try done.
  rewrite Nat.sub_0_r, IH by by apply Forall_drop.
  pose proof (rate_lanes r r_pos r_lanes) as Hr8.
  rewrite Hr8 at 1. by rewrite xor_bytes_lanes by (done || lia).
Qed.

End AbsorbOnce.

Lemma keccak_absorb_once_absorb (r : nat) (inp : list Z) (p : Z) :
  (0 < r <= 200)%nat -> (r mod 8 = 0)%nat -> Forall byte_wf inp ->
  keccak_absorb_once r inp p =
  ('(s, pos) ← keccak_absorb keccak_init 0 r inp; Some (keccak_finalize s pos r p)).
Proof.
  intros Hr Hlanes Hinp. unfold keccak_absorb_once, keccak_absorb.
  rewrite keccak_absorb_once_loop_absorb by (done || lia).
  destruct (keccak_absorb_once_loop _ _ _ _) as [[s rest]|]; [|done].
  cbn [mbind option_bind]. unfold keccak_finalize. do 2 f_equal.
  pose proof (rate_lanes r ltac:(lia) Hlanes) as Hr8.
  assert (r / 8 < 26)%nat by (apply Nat.Div0.div_lt_upper_bound; lia).
  rewrite Z.mod_small by lia.
  replace (Z.to_nat (Z.of_nat (r / 8) - 1)) with (r / 8 - 1)%nat by lia.
  symmetry. apply (Nat.div_unique _ 8 _ 7); lia.
Qed.

(** X6. For a rate that is a multiple of 8 and at most 200, and input bytes
    that are bytes, [keccak_absorb_once] is [keccak_init], [keccak_absorb]
    from cursor 0 and [keccak_finalize] in a row, and it returns. *)
Theorem keccak_absorb_once_streaming (r : nat) (inp : list Z) (p : Z) :
  (0 < r <= 200)%nat -> (r mod 8 = 0)%nat -> Forall byte_wf inp ->
  keccak_absorb_once r inp p =
  ('(s, pos) ← keccak_absorb keccak_init 0 r inp; Some (keccak_finalize s pos r p))
  /\ exists s, keccak_absorb_once r inp p = Some s.
Proof.
  intros Hr Hlanes Hinp. split; [by apply keccak_absorb_once_absorb|].
  rewrite keccak_absorb_once_absorb, keccak_absorb_bytes by (done || lia).
  destruct (absorb_bytes r (keccak_init, 0%nat) inp). by eexists.
Qed.

Lemma keccak_absorb_once_streaming_witness :
  keccak_absorb_once SHAKE256_RATE (replicate 300 0xA3) 0x1F =
  ('(s, pos) ← keccak_absorb keccak_init 0 SHAKE256_RATE (replicate 300 0xA3);
   Some (keccak_finalize s pos SHAKE256_RATE 0x1F)).
Proof.
  refine (proj1 (keccak_absorb_once_streaming SHAKE256_RATE (replicate 300 0xA3) 0x1F _ _ _)).
  - unfold SHAKE256_RATE. lia.
  - reflexivity.
  - apply Forall_replicate. by vm_compute.
Defined.

(** ** One-shot functions and the streaming interface *)

Lemma keccak_absorb_once_loop_total (r : nat) (fuel : nat) : forall s inp,
  (0 < r)%nat -> (length inp < fuel)%nat ->
  exists s' rest, keccak_absorb_once_loop fuel s r inp = Some (s', rest).
Proof.
  induction fuel as [|fuel IH]; intros s inp Hr Hfuel; [lia|].
  cbn [keccak_absorb_once_loop].
  destruct (Nat.leb_spec r (length inp)) as [Hfull|Hshort]; [|by eauto].
  apply IH; [done|]. rewrite length_drop. lia.
Qed.

Lemma keccak_absorb_once_total (r : nat) (inp : list Z) (p : Z) :
  (0 < r)%nat -> exists s, keccak_absorb_once r inp p = Some s.
Proof.
  intros Hr. unfold keccak_absorb_once.
  destruct (keccak_absorb_once_loop_total r (S (length inp)) keccak_init inp)
    as (s' & rest & ->); [done | lia |].
  cbn [mbind option_bind]. by eexists.
Qed.

Section OneShot.

Variable r : nat.
Hypothesis r_pos : (0 < r)%nat.
Hypothesis r_lanes : (r mod 8 = 0)%nat.

(** Whole blocks with [keccak_squeezeblocks] and the rest with
    [keccak_squeeze], as the one-shot functions do, is [keccak_squeeze] for
    all of the output. *)
Lemma blocks_then_squeeze (outlen : nat) (s : list Z) :
  (let nblocks := (outlen / r)%nat in
   let '(out1, s1) := keccak_squeezeblocks nblocks s r in
   '(out2, s2, pos2) ← keccak_squeeze (outlen - nblocks * r) s1 r r;
   Some (out1 ++ out2, s2, pos2))
  = keccak_squeeze outlen s r r.
Proof.
  cbv zeta. rewrite !keccak_squeeze_stream by lia.
  replace (squeeze_stream outlen r (s, r))
    with (squeeze_stream (outlen / r * r + (outlen - outlen / r * r)) r (s, r)).
  2:{ f_equal. pose proof (Nat.Div0.mul_div_le outlen r). lia. }
  rewrite squeeze_stream_app, keccak_squeezeblocks_stream by done.
  destruct (keccak_squeezeblocks (outlen / r) s r) as [out1 s1].
  rewrite keccak_squeeze_stream by lia.
  by destruct (squeeze_stream _ r (s1, r)) as [out2 [s2 pos2]].
Qed.

(** The output of the sponge for [n] bytes opens its output for [n + m]. *)
Lemma keccak_squeeze_prefix (n m : nat) (s : list Z) (pos : nat) :
  (pos <= r)%nat ->
  (fun x => x.1.1) <$> keccak_squeeze n s pos r =
  (fun x => take n x.1.1) <$> keccak_squeeze (n + m) s pos r.
Proof.
  intros Hpos. rewrite !keccak_squeeze_stream by done. rewrite squeeze_stream_app.
  pose proof (squeeze_stream_shape r r_pos n (s, pos) Hpos) as (Hlen & _).
  destruct (squeeze_stream n r (s, pos)) as [o1 [s1 pos1]]. cbn [fst] in Hlen.
  destruct (squeeze_stream m r (s1, pos1)) as [o2 [s2 pos2]].
  cbn [fmap option_fmap option_map fst]. by rewrite take_app_length'.
Qed.

End OneShot.

(** X7. On input bytes that are bytes, the one-shot [shake128] and
    [shake256] return what the streaming interface returns for the same
    input and output length ([init], [absorb], [finalize], [squeeze]), and
    that is exactly [outlen] bytes. *)
Theorem shake_one_shot_streaming (outlen : nat) (inp : list Z) :
  Forall byte_wf inp ->
  (shake128 outlen inp =
   (state ← shake128_absorb shake128_init inp;
    '(out, _) ← shake128_squeeze outlen (shake128_finalize state);
    Some out)
   /\ exists out, shake128 outlen inp = Some out /\ length out = outlen)
  /\
  (shake256 outlen inp =
   (state ← shake256_absorb shake256_init inp;
    '(out, _) ← shake256_squeeze outlen (shake256_finalize state);
    Some out)
   /\ exists out, shake256 outlen inp = Some out /\ length out = outlen).
Proof.
  intros Hinp.
  assert (Hgen : forall r,
    (0 < r <= 200)%nat -> (r mod 8 = 0)%nat ->
    (s ← keccak_absorb_once r inp 0x1F;
     let nblocks := (outlen / r)%nat in
     let '(out1, s1) := keccak_squeezeblocks nblocks s r in
     '(out2, _, _) ← keccak_squeeze (outlen - nblocks * r) s1 r r;
     Some (out1 ++ out2))
    = ('(s, pos) ← keccak_absorb keccak_init 0 r inp;
       '(out, _, _) ← keccak_squeeze outlen (keccak_finalize s pos r 0x1F) r r;
       Some out)
    /\ exists out,
        ('(s, pos) ← keccak_absorb keccak_init 0 r inp;
         '(out, _, _) ← keccak_squeeze outlen (keccak_finalize s pos r 0x1F) r r;
         Some out) = Some out /\ length out = outlen).
  { intros r Hr Hlanes.
    rewrite keccak_absorb_once_absorb, keccak_absorb_bytes by (done || lia).
    destruct (absorb_bytes r (keccak_init, 0%nat) inp) as [s pos].
    cbn [mbind option_bind].
    pose proof (blocks_then_squeeze r ltac:(lia) Hlanes outlen (keccak_finalize s pos r 0x1F))
      as Hblocks. cbv zeta in Hblocks |- *.
    pose proof (keccak_squeeze_stream r ltac:(lia) outlen (keccak_finalize s pos r 0x1F) r
                  ltac:(lia)) as Hsq.
    pose proof (squeeze_stream_shape r ltac:(lia) outlen (keccak_finalize s pos r 0x1F, r)
                  ltac:(cbn [snd]; lia)) as (Hlen & _).
    destruct (squeeze_stream outlen r _) as [out [s' pos']]. cbn [fst] in Hlen.
    rewrite Hsq in Hblocks |- *. cbn [mbind option_bind]. split; [|by eauto].
    destruct (keccak_squeezeblocks _ _ r) as [out1 s1].
    destruct (keccak_squeeze _ s1 r r) as [[[out2 s2] pos2]|]; [|done].
    cbn [mbind option_bind] in *. congruence. }
  unfold shake128, shake256, shake128_absorb_once, shake256_absorb_once,
    shake128_squeezeblocks, shake256_squeezeblocks, shake128_squeeze, shake256_squeeze,
    shake128_absorb, shake256_absorb, shake128_finalize, shake256_finalize,
    shake128_init, shake256_init.
  simpl_keccak_state.
  destruct (Hgen SHAKE128_RATE) as [H128 H128'];
    [unfold SHAKE128_RATE; lia | reflexivity |].
  destruct (Hgen SHAKE256_RATE) as [H256 H256'];
    [unfold SHAKE256_RATE; lia | reflexivity |].
  clear Hgen. cbv zeta in H128, H256.
  split.
  - clear H256 H256'. destruct H128' as (out & Hout & Hlen).
    destruct (keccak_absorb_once SHAKE128_RATE inp 31) as [s0|];
      destruct (keccak_absorb keccak_init 0 SHAKE128_RATE inp) as [[s1 pos1]|];
      cbn [mbind option_bind] in *; simpl_keccak_state; try congruence.
    destruct (keccak_squeezeblocks _ s0 SHAKE128_RATE) as [out1 s2]. simpl_keccak_state.
    destruct (keccak_squeeze _ s2 _ _) as [[[out2 s3] pos3]|];
      destruct (keccak_squeeze outlen _ _ _) as [[[out' s4] pos4]|];
      cbn [mbind option_bind] in *; try congruence.
    split; [congruence|]. exists out. split; congruence.
  - clear H128 H128'. destruct H256' as (out & Hout & Hlen).
    destruct (keccak_absorb_once SHAKE256_RATE inp 31) as [s0|];
      destruct (keccak_absorb keccak_init 0 SHAKE256_RATE inp) as [[s1 pos1]|];
      cbn [mbind option_bind] in *; simpl_keccak_state; try congruence.
    destruct (keccak_squeezeblocks _ s0 SHAKE256_RATE) as [out1 s2]. simpl_keccak_state.
    destruct (keccak_squeeze _ s2 _ _) as [[[out2 s3] pos3]|];
      destruct (keccak_squeeze outlen _ _ _) as [[[out' s4] pos4]|];
      cbn [mbind option_bind] in *; try congruence.
    split; [congruence|]. exists out. split; congruence.
Qed.

Lemma shake_one_shot_streaming_witness :
  shake128 40 [0x61; 0x62; 0x63] =
  (state ← shake128_absorb shake128_init [0x61; 0x62; 0x63];
   '(out, _) ← shake128_squeeze 40 (shake128_finalize state);
   Some out).
Proof.
  refine (proj1 (proj1 (shake_one_shot_streaming 40 [0x61; 0x62; 0x63] _))).
  repeat (apply Forall_cons; [by vm_compute|]). apply Forall_nil_2.
Defined.

(** The one-shot SHAKE functions are the sponge: absorb at once, squeeze. *)
Lemma shake_sponge (r outlen : nat) (inp : list Z) :
  (0 < r)%nat -> (r mod 8 = 0)%nat ->
  (s ← keccak_absorb_once r inp 0x1F;
   let nblocks := (outlen / r)%nat in
   let '(out1, s1) := keccak_squeezeblocks nblocks s r in
   '(out2, _, _) ← keccak_squeeze (outlen - nblocks * r) s1 r r;
   Some (out1 ++ out2))
  = (s ← keccak_absorb_once r inp 0x1F;
     (fun x => x.1.1) <$> keccak_squeeze outlen s r r).
Proof.
  intros Hr Hlanes. destruct (keccak_absorb_once r inp 31) as [s|]; [|done].
  cbn [mbind option_bind]. rewrite <- (blocks_then_squeeze r Hr Hlanes outlen s).
  cbv zeta. destruct (keccak_squeezeblocks _ s r) as [out1 s1].
  by destruct (keccak_squeeze _ s1 r r) as [[[out2 s2] pos2]|].
Qed.

Lemma shake128_sponge (outlen : nat) (inp : list Z) :
  shake128 outlen inp =
  (s ← keccak_absorb_once SHAKE128_RATE inp 0x1F;
   (fun x => x.1.1) <$> keccak_squeeze outlen s SHAKE128_RATE SHAKE128_RATE).
Proof.
  rewrite <- shake_sponge by (unfold SHAKE128_RATE; (lia || reflexivity)).
  unfold shake128, shake128_absorb_once, shake128_squeezeblocks, shake128_squeeze.
  destruct (keccak_absorb_once SHAKE128_RATE inp 31) as [s0|]; [|done].
  cbn [mbind option_bind]. simpl_keccak_state.
  destruct (keccak_squeezeblocks _ s0 SHAKE128_RATE) as [out1 s1]. simpl_keccak_state.
  by destruct (keccak_squeeze _ s1 _ _) as [[[out2 s2] pos2]|].
Qed.

Lemma shake256_sponge (outlen : nat) (inp : list Z) :
  shake256 outlen inp =
  (s ← keccak_absorb_once SHAKE256_RATE inp 0x1F;
   (fun x => x.1.1) <$> keccak_squeeze outlen s SHAKE256_RATE SHAKE256_RATE).
Proof.
  rewrite <- shake_sponge by (unfold SHAKE256_RATE; (lia || reflexivity)).
  unfold shake256, shake256_absorb_once, shake256_squeezeblocks, shake256_squeeze.
  destruct (keccak_absorb_once SHAKE256_RATE inp 31) as [s0|]; [|done].
  cbn [mbind option_bind]. simpl_keccak_state.
  destruct (keccak_squeezeblocks _ s0 SHAKE256_RATE) as [out1 s1]. simpl_keccak_state.
  by destruct (keccak_squeeze _ s1 _ _) as [[[out2 s2] pos2]|].
Qed.

(** X8. The output of [shake128] (and of [shake256]) for [n] bytes is the
    first [n] bytes of its output for [n + m] bytes on the same input, and
    both calls return. *)
Theorem shake_output_prefix (n m : nat) (inp : list Z) :
  (shake128 n inp = take n <$> shake128 (n + m) inp
   /\ exists out, shake128 (n + m) inp = Some out /\ length out = (n + m)%nat)
  /\ (shake256 n inp = take n <$> shake256 (n + m) inp
   /\ exists out, shake256 (n + m) inp = Some out /\ length out = (n + m)%nat).
Proof.
  assert (Hgen : forall r, (0 < r)%nat ->
    let f (k : nat) : option (list Z) :=
      s ← keccak_absorb_once r inp 0x1F;
      (fun x => x.1.1) <$> keccak_squeeze k s r r in
    f n = take n <$> f (n + m)%nat
    /\ exists out, f (n + m)%nat = Some out /\ length out = (n + m)%nat).
  { intros r Hr. cbv zeta.
    destruct (keccak_absorb_once_total r inp 0x1F Hr) as [s ->].
    cbn [mbind option_bind]. split.
    - rewrite (keccak_squeeze_prefix r Hr n m s r) by lia.
      by destruct (keccak_squeeze (n + m) s r r).
    - rewrite keccak_squeeze_stream by lia.
      pose proof (squeeze_stream_shape r Hr (n + m) (s, r) ltac:(cbn [snd]; lia)) as (Hlen & _).
      destruct (squeeze_stream (n + m) r (s, r)) as [out [s' pos']].
      cbn [fmap option_fmap option_map fst] in *. by eauto. }
  rewrite !shake128_sponge, !shake256_sponge.
  split; apply Hgen; unfold SHAKE128_RATE, SHAKE256_RATE; lia.
Qed.

(** X9. [sha3_256] and [sha3_512] are the same sponge with the domain byte
    0x06: the input absorbed at once at rate 136 (72), then 32 (64) bytes
    squeezed from the end of the rate window; they return, with 32 (64)
    bytes. *)
Theorem sha3_sponge (inp : list Z) :
  (sha3_256 inp =
   (s ← keccak_absorb_once SHA3_256_RATE inp 0x06;
    (fun x => x.1.1) <$> keccak_squeeze 32 s SHA3_256_RATE SHA3_256_RATE)
   /\ exists h, sha3_256 inp = Some h /\ length h = 32%nat /\ Forall byte_wf h)
  /\
  (sha3_512 inp =
   (s ← keccak_absorb_once SHA3_512_RATE inp 0x06;
    (fun x => x.1.1) <$> keccak_squeeze 64 s SHA3_512_RATE SHA3_512_RATE)
   /\ exists h, sha3_512 inp = Some h /\ length h = 64%nat /\ Forall byte_wf h).
Proof.
  assert (Hgen : forall r m,
    (0 < r)%nat -> (8 * S m <= r)%nat ->
    let f := s ← keccak_absorb_once r inp 0x06;
             Some (flat_map (fun i => store64 (KeccakF1600_StatePermute s !!! i)) (seq 0 (S m))) in
    f = (s ← keccak_absorb_once r inp 0x06;
         (fun x => x.1.1) <$> keccak_squeeze (8 * S m)%nat s r r)
    /\ exists h, f = Some h /\ length h = (8 * S m)%nat /\ Forall byte_wf h).
  { intros r m Hr Hm. cbv zeta.
    destruct (keccak_absorb_once_total r inp 0x06 Hr) as [s ->].
    cbn [mbind option_bind]. rewrite keccak_squeeze_stream by lia.
    replace (squeeze_stream (8 * S m) r (s, r))
      with (squeeze_stream (S (8 * m + 7)) r (s, r)) by (f_equal; lia).
    rewrite squeeze_stream_permute by done.
    replace (S (8 * m + 7)) with (8 * S m)%nat by lia.
    rewrite squeeze_stream_within by lia. rewrite <- store64_lanes.
    cbn [fmap option_fmap option_map fst]. split; [done|].
    eexists. split; [done|]. rewrite store64_lanes. unfold squeeze_bytes.
    split; [by rewrite length_map, length_seq|].
    apply Forall_fmap, Forall_forall. intros i _. apply byte_of_lane_wf. }
  split.
  - apply (Hgen SHA3_256_RATE 3%nat); unfold SHA3_256_RATE; lia.
  - apply (Hgen SHA3_512_RATE 7%nat); unfold SHA3_512_RATE; lia.
Qed.

(** ** The state, byte by byte *)

Lemma byte_of_lxor (a b k : Z) :
  0 <= k ->
  Z.shiftr (a .^ b) k mod 256 = (Z.shiftr a k mod 256) .^ (Z.shiftr b k mod 256).
Proof.
  intros Hk. apply Z.bits_inj'. intros n Hn.
  rewrite Z.lxor_spec, !byte_of_lane_testbit, Z.lxor_spec by done.
  by case_bool_decide.
Qed.

(** A byte placed in byte [i] of a lane, read back from byte [j]. *)
Lemma byte_of_shifted_byte (b : Z) (i j : nat) :
  byte_wf b -> (i < 8)%nat -> (j < 8)%nat ->
  Z.shiftr (Z.shiftl b (8 * Z.of_nat i)) (8 * Z.of_nat j) mod 256 = if decide (j = i) then b else 0.
Proof.
  intros Hb Hi Hj. apply Z.bits_inj'. intros n Hn.
  rewrite byte_of_lane_testbit, byte_shiftl_testbit by (done || lia).
  case_decide as Hij.
  - subst j. destruct (decide (n < 8)).
    + decide_ranges. f_equal. lia.
    + decide_ranges. symmetry. apply byte_wf_bits; [done | lia].
  - rewrite Z.bits_0. destruct (decide (n < 8)); by decide_ranges.
Qed.

Lemma state_byte_xor_byte (s : list Z) (i : nat) (b : Z) (j : nat) :
  (i < 8 * length s)%nat -> byte_wf b ->
  state_byte (xor_byte s i b) j = if decide (j = i) then state_byte s j .^ b else state_byte s j.
Proof.
  intros Hi Hb. unfold state_byte, xor_byte.
  pose proof (Nat.div_mod_eq i 8) as Hdi. pose proof (Nat.div_mod_eq j 8) as Hdj.
  pose proof (Nat.mod_upper_bound i 8 ltac:(lia)) as Hmi.
  pose proof (Nat.mod_upper_bound j 8 ltac:(lia)) as Hmj.
  destruct (decide (j / 8 = i / 8)%nat) as [Hlane|Hlane].
  - rewrite Hlane, list_lookup_total_alter_eq by lia.
    rewrite byte_of_lxor, byte_of_shifted_byte by (done || lia).
    destruct (decide (j = i)) as [->|Hne].
    + by rewrite decide_True.
    + rewrite decide_False by lia. by rewrite Z.lxor_0_r.
  - rewrite list_lookup_total_alter_ne by done. case_decide; [|done]. subst j. done.
Qed.

(** Bytes XORed in at a cursor change the bytes from the cursor on, each by
    the input byte that falls on it. *)
Lemma state_byte_xor_bytes (bs : list Z) : forall (s : list Z) (i j : nat),
  (i + length bs <= 8 * length s)%nat -> Forall byte_wf bs ->
  state_byte (xor_bytes s i bs) j =
  state_byte s j .^ (if decide (i <= j < i + length bs)%nat then bs !!! (j - i)%nat else 0).
Proof.
  induction bs as [|b bs IH]; intros s i j Hlen Hbs; cbn [xor_bytes length] in *.
  - rewrite decide_False by lia. by rewrite Z.lxor_0_r.
  - apply Forall_cons_1 in Hbs as [Hb Hbs].
    rewrite IH by (unfold xor_byte; rewrite ?length_alter; (done || lia)).
    rewrite state_byte_xor_byte by (done || lia).
    destruct (decide (j = i)) as [->|Hne].
    + rewrite decide_False, decide_True, Nat.sub_diag by lia. cbn. by rewrite Z.lxor_0_r.
    + destruct (decide (i <= j < i + S (length bs))%nat) as [Hin|Hout].
      * rewrite decide_True by lia. replace (j - i)%nat with (S (j - S i)) by lia. done.
      * by rewrite decide_False by lia.
Qed.

(** X10. Input that does not fill the block is XORed into the state at the
    cursor and nothing else happens: [keccak_absorb] returns the cursor moved
    by the length of the input, byte [j] of the new state is byte [j] of the
    old one XOR the input byte that falls on it, and the bytes outside
    [pos, pos + inlen) are unchanged. *)
Theorem keccak_absorb_within_block (s : list Z) (pos r : nat) (inp : list Z) :
  length s = 25%nat -> (r <= 200)%nat -> (pos + length inp < r)%nat ->
  Forall byte_wf inp ->
  exists s',
    keccak_absorb s pos r inp = Some (s', (pos + length inp)%nat)
    /\ length s' = 25%nat
    /\ forall j,
         state_byte s' j =
         state_byte s j
         .^ (if decide (pos <= j < pos + length inp)%nat then inp !!! (j - pos)%nat else 0).
Proof.
  intros Hs Hr Hlen Hinp. exists (xor_bytes s pos inp).
  rewrite keccak_absorb_bytes, absorb_bytes_short by lia.
  split; [done|]. split.
  - clear Hlen Hinp. revert s pos Hs. induction inp as [|b inp IH]; intros s pos Hs; [done|].
    cbn [xor_bytes]. apply IH. unfold xor_byte. by rewrite length_alter.
  - intros j. apply state_byte_xor_bytes; [lia | done].
Qed.

Lemma keccak_absorb_within_block_witness :
  exists s',
    keccak_absorb keccak_init 5 SHAKE128_RATE [0xAA; 0xBB] = Some (s', (5 + 2)%nat)
    /\ state_byte s' 6 = state_byte keccak_init 6 .^ 0xBB.
Proof.
  destruct (keccak_absorb_within_block keccak_init 5 SHAKE128_RATE [0xAA; 0xBB])
    as (s' & Habs & _ & Hbytes).
  - reflexivity.
  - unfold SHAKE128_RATE. lia.
  - unfold SHAKE128_RATE. cbn [length]. lia.
  - repeat (apply Forall_cons; [by vm_compute|]). apply Forall_nil_2.
  - exists s'. split; [exact Habs|]. exact (Hbytes 6%nat).
Defined.

(** X11. Padding: for a rate that is a multiple of 8 between 8 and 200,
    [keccak_finalize] XORs the domain byte [p] into the byte at the cursor
    and 0x80 into the last byte of the rate window, and changes no other
    byte; with the cursor on the last byte both land on it. *)
Theorem keccak_finalize_bytes (s : list Z) (pos r : nat) (p : Z) (j : nat) :
  length s = 25%nat -> (8 <= r <= 200)%nat -> (r mod 8 = 0)%nat -> (pos < r)%nat ->
  byte_wf p ->
  state_byte (keccak_finalize s pos r p) j =
  state_byte s j .^ (if decide (j = pos) then p else 0)
                 .^ (if decide (j = r - 1)%nat then 0x80 else 0).
Proof.
  intros Hs Hr Hlanes Hpos Hp.
  pose proof (rate_lanes r ltac:(lia) Hlanes) as Hr8.
  assert (r / 8 < 26)%nat by (apply Nat.Div0.div_lt_upper_bound; lia).
  assert (Hfin : keccak_finalize s pos r p = xor_byte (xor_byte s pos p) (r - 1) 0x80).
  { unfold keccak_finalize, xor_byte. rewrite Z.mod_small by lia.
    replace (Z.to_nat (Z.of_nat (r / 8) - 1)) with ((r - 1) / 8)%nat.
    2:{ symmetry. apply (Nat.div_unique _ 8 _ 7); lia. }
    replace ((r - 1) mod 8)%nat with 7%nat; [done|].
    apply (Nat.mod_unique _ 8 (r / 8 - 1)); lia. }
  rewrite Hfin, !state_byte_xor_byte;
    [| rewrite ?Hs; lia | done | unfold xor_byte; rewrite length_alter, Hs; lia | by vm_compute].
  destruct (decide (j = pos)), (decide (j = r - 1)%nat); by rewrite ?Z.lxor_0_r.
Qed.

Lemma keccak_finalize_bytes_witness :
  state_byte (keccak_finalize keccak_init 135 SHA3_256_RATE 0x06) 135 =
  state_byte keccak_init 135 .^ 0x06 .^ 0x80.
Proof.
  apply (keccak_finalize_bytes keccak_init 135 SHA3_256_RATE 0x06 135).
  - reflexivity.
  - unfold SHA3_256_RATE. lia.
  - reflexivity.
  - unfold SHA3_256_RATE. lia.
  - by vm_compute.
Defined.

(** ** Absorbing to the end of a block, and squeezing block after block *)

(** X17. [keccak_absorb] on an input that ends exactly at the end of the block
    (pos + inlen = r) XORs the input bytes into the bytes [pos, r) of the
    state, calls the permutation once on the result, and returns the cursor
    0. *)
Theorem keccak_absorb_fills_block (s : list Z) (pos r : nat) (inp : list Z) :
  length s = 25%nat -> (r <= 200)%nat -> (pos < r)%nat ->
  length inp = (r - pos)%nat -> Forall byte_wf inp ->
  exists s1,
    keccak_absorb s pos r inp = Some (KeccakF1600_StatePermute s1, 0%nat)
    /\ length s1 = 25%nat
    /\ forall j,
         state_byte s1 j =
         state_byte s j .^ (if decide (pos <= j < r)%nat then inp !!! (j - pos)%nat else 0).
Proof.
  intros Hs Hr Hpos Hlen Hinp. exists (xor_bytes s pos inp).
  rewrite keccak_absorb_bytes by done.
  rewrite (absorb_bytes_fill r inp s pos) by done.
  split; [done|]. split.
  - clear Hlen Hinp Hpos. revert s pos Hs.
    induction inp as [|b inp IH]; intros s pos Hs; [done|].
    cbn [xor_bytes]. apply IH. unfold xor_byte. by rewrite length_alter.
  - intros j. rewrite state_byte_xor_bytes by (done || lia).
    destruct (decide (pos <= j < pos + length inp)%nat),
             (decide (pos <= j < r)%nat); (done || lia).
Qed.

Lemma keccak_absorb_fills_block_witness :
  exists s1,
    keccak_absorb keccak_init 70 SHA3_512_RATE [0xAA; 0xBB]
    = Some (KeccakF1600_StatePermute s1, 0%nat)
    /\ state_byte s1 71 = state_byte keccak_init 71 .^ 0xBB.
Proof.
  destruct (keccak_absorb_fills_block keccak_init 70 SHA3_512_RATE [0xAA; 0xBB])
    as (s1 & Habs & _ & Hbytes).
  - reflexivity.
  - unfold SHA3_512_RATE. lia.
  - unfold SHA3_512_RATE. lia.
  - reflexivity.
  - repeat (apply Forall_cons; [by vm_compute|]). apply Forall_nil_2.
  - exists s1. split; [exact Habs|]. exact (Hbytes 71%nat).
Defined.

Lemma squeezeblocks_append (n m : nat) (r : nat) : forall s,
  keccak_squeezeblocks (n + m) s r =
  let '(out1, s1) := keccak_squeezeblocks n s r in
  let '(out2, s2) := keccak_squeezeblocks m s1 r in
  (out1 ++ out2, s2).
Proof.
  induction n as [|n IH]; intros s.
  - cbn [Nat.add keccak_squeezeblocks]. by destruct (keccak_squeezeblocks m s r).
  - cbn [Nat.add keccak_squeezeblocks]. rewrite IH.
    destruct (keccak_squeezeblocks n (KeccakF1600_StatePermute s) r) as [out1 s1]. simpl_keccak_state.
    destruct (keccak_squeezeblocks m s1 r) as [out2 s2].
    by rewrite app_assoc.
Qed.

Lemma keccak_squeezeblocks_length (n : nat) (r : nat) : forall s,
  length (keccak_squeezeblocks n s r).1 = (n * (8 * (r / 8)))%nat.
Proof.
  induction n as [|n IH]; intros s; [done|].
  cbn [keccak_squeezeblocks]. specialize (IH (KeccakF1600_StatePermute s)).
  destruct (keccak_squeezeblocks n (KeccakF1600_StatePermute s) r) as [out s'].
  cbn [fst] in *. rewrite length_app, IH, store64_lanes.
  unfold squeeze_bytes. rewrite length_map, length_seq. lia.
Qed.

(** X18. Squeezing blocks composes: [n] blocks and then [m] blocks from the
    state that is left are the [n + m] blocks of one call, with the same
    final state, for [keccak_squeezeblocks] and for the SHAKE128 and SHAKE256
    functions on their state record; a call for [n] blocks gives [n] times
    [8 * (r / 8)] bytes. *)
Theorem keccak_squeezeblocks_app (n m : nat) (s : list Z) (r : nat) (state : keccak_state) :
  (keccak_squeezeblocks (n + m) s r =
   let '(out1, s1) := keccak_squeezeblocks n s r in
   let '(out2, s2) := keccak_squeezeblocks m s1 r in
   (out1 ++ out2, s2))
  /\ length (keccak_squeezeblocks n s r).1 = (n * (8 * (r / 8)))%nat
  /\ (shake128_squeezeblocks (n + m) state =
      let '(out1, state1) := shake128_squeezeblocks n state in
      let '(out2, state2) := shake128_squeezeblocks m state1 in
      (out1 ++ out2, state2))
  /\ (shake256_squeezeblocks (n + m) state =
      let '(out1, state1) := shake256_squeezeblocks n state in
      let '(out2, state2) := shake256_squeezeblocks m state1 in
      (out1 ++ out2, state2)).
Proof.
  split; [apply squeezeblocks_append|].
  split; [apply keccak_squeezeblocks_length|].
  unfold shake128_squeezeblocks, shake256_squeezeblocks.
  rewrite !squeezeblocks_append.
  destruct state as [s0 pos0]. simpl_keccak_state.
  split.
  - destruct (keccak_squeezeblocks n s0 SHAKE128_RATE) as [out1 s1]. simpl_keccak_state.
    by destruct (keccak_squeezeblocks m s1 SHAKE128_RATE).
  - destruct (keccak_squeezeblocks n s0 SHAKE256_RATE) as [out1 s1]. simpl_keccak_state.
    by destruct (keccak_squeezeblocks m s1 SHAKE256_RATE).
Qed.

(** * More of the vector layer *)

(** ** Loops over one vector *)

(** A loop that applies [f] to entry [i] in pass [i] maps [f] over the first
    [n] entries. *)
Lemma for_loop_alter_map {A : Type} (f : A -> A) (n : nat) (v : list A) :
  (n <= length v)%nat ->
  for_loop 0 n (fun i v => alter f i v) v = (f <$> take n v) ++ drop n v.
Proof.
  induction n as [|n IH]; intros Hn.
  - by rewrite for_loop_empty.
  - rewrite for_loop_S, IH by lia.
    destruct (lookup_lt_is_Some_2 v n ltac:(lia)) as [x Hx].
    rewrite (take_S_r _ _ _ Hx), (drop_S _ _ _ Hx), fmap_app.
    rewrite alter_app_r_alt by (rewrite length_fmap, length_take; lia).
    rewrite length_fmap, length_take, Nat.min_l, Nat.sub_diag by lia.
    cbn [alter list_alter fmap list_fmap]. by rewrite <- app_assoc.
Qed.

Lemma for_loop_alter_fmap {A : Type} (f : A -> A) (n : nat) (v : list A) :
  length v = n ->
  for_loop 0 n (fun i v => alter f i v) v = f <$> v.
Proof.
  intros Hn. rewrite for_loop_alter_map by lia.
  by rewrite take_ge, drop_ge, app_nil_r by lia.
Qed.

(** ** The store *)

Lemma vec_lt_length (mem : list (list poly)) (p n : nat) :
  (n < length (mem !!! p))%nat -> (p < length mem)%nat.
Proof.
  intros Hn. destruct (decide (p < length mem)%nat) as [|Hp]; [done|].
  rewrite list_lookup_total_alt, lookup_ge_None_2 in Hn by lia.
  cbn in Hn. lia.
Qed.

Lemma vec_read_insert_eq (mem : list (list poly)) (p i : nat) (X : list poly) :
  (p < length mem)%nat -> vec_read (<[p := X]> mem) p i = X !!! i.
Proof. intros Hp. unfold vec_read. by rewrite list_lookup_total_insert_eq. Qed.

Lemma vec_read_insert_ne (mem : list (list poly)) (p q i : nat) (X : list poly) :
  p <> q -> vec_read (<[q := X]> mem) p i = vec_read mem p i.
Proof. intros Hp. unfold vec_read. by rewrite list_lookup_total_insert_ne. Qed.

Lemma vec_write_insert_eq (mem : list (list poly)) (p i : nat) (X : list poly) (x : poly) :
  vec_write (<[p := X]> mem) p i x = <[p := <[i := x]> X]> mem.
Proof.
  unfold vec_write. apply list_eq. intros j.
  destruct (decide (j = p)) as [->|Hj].
  - rewrite list_lookup_alter_eq.
    destruct (decide (p < length mem)%nat).
    + by rewrite !list_lookup_insert_eq.
    + by rewrite !lookup_ge_None_2 by (rewrite length_insert; lia).
  - by rewrite list_lookup_alter_ne, !list_lookup_insert_ne.
Qed.

Lemma vec_write_insert_ne (mem : list (list poly)) (p q i : nat) (X : list poly) (x : poly) :
  p <> q -> vec_write (<[q := X]> mem) p i x = <[q := X]> (vec_write mem p i x).
Proof.
  intros Hp. unfold vec_write. apply list_eq. intros j.
  destruct (decide (j = p)) as [->|Hj].
  - by rewrite list_lookup_alter_eq, !list_lookup_insert_ne, list_lookup_alter_eq.
  - rewrite list_lookup_alter_ne by done.
    destruct (decide (j = q)) as [->|Hq].
    + destruct (decide (q < length mem)%nat).
      * by rewrite !list_lookup_insert_eq by (rewrite ?length_alter; lia).
      * by rewrite !lookup_ge_None_2 by (rewrite ?length_insert, ?length_alter; lia).
    + by rewrite !list_lookup_insert_ne, list_lookup_alter_ne.
Qed.

Lemma vec_write_self (mem : list (list poly)) (p i : nat) (x : poly) :
  vec_write mem p i x = <[p := <[i := x]> (mem !!! p)]> mem.
Proof.
  unfold vec_write. apply list_eq. intros j.
  destruct (decide (j = p)) as [->|Hj].
  - rewrite list_lookup_alter_eq.
    destruct (decide (p < length mem)%nat) as [Hp|Hp].
    + rewrite list_lookup_insert_eq by done.
      destruct (lookup_lt_is_Some_2 mem p Hp) as [X HX].
      by rewrite (list_lookup_total_correct _ _ _ HX), HX.
    + by rewrite !lookup_ge_None_2 by (rewrite ?length_insert; lia).
  - by rewrite list_lookup_alter_ne, list_lookup_insert_ne.
Qed.

Lemma insert_lookup_total_id (mem : list (list poly)) (p : nat) :
  <[p := mem !!! p]> mem = mem.
Proof.
  apply list_insert_id'. intros Hp.
  destruct (lookup_lt_is_Some_2 mem p Hp) as [X HX].
  by rewrite (list_lookup_total_correct _ _ _ HX).
Qed.

(** Entry [n] of a vector whose first [n] entries have been replaced. *)
Lemma lookup_total_done_todo (A B : list poly) (n : nat) :
  length A = n -> (A ++ drop n B) !!! n = B !!! n.
Proof.
  intros HA. rewrite lookup_total_app_r by lia.
  rewrite HA, Nat.sub_diag, lookup_total_drop. f_equal. lia.
Qed.

Lemma insert_done_todo (A B : list poly) (n : nat) (x : poly) :
  length A = n -> (n < length B)%nat ->
  <[n := x]> (A ++ drop n B) = (A ++ [x]) ++ drop (S n) B.
Proof.
  intros HA Hn. destruct (lookup_lt_is_Some_2 B n Hn) as [b Hb].
  rewrite insert_app_r_alt by lia. rewrite HA, Nat.sub_diag, (drop_S _ _ _ Hb).
  cbn. by rewrite <- app_assoc.
Qed.

(** ** From two vectors into a third *)

(** After [n] passes the first [n] entries of [w] are the results on the
    entries that [u] and [v] held before the loop, whichever of the three
    addresses coincide. *)
Lemma binop_loop (g : poly -> poly -> poly) (n : nat) (mem : list (list poly)) (w u v : nat) :
  (n <= length (mem !!! w))%nat ->
  (n <= length (mem !!! u))%nat ->
  (n <= length (mem !!! v))%nat ->
  for_loop 0 n (fun i mem =>
    vec_write mem w i (g (vec_read mem u i) (vec_read mem v i))) mem
  = <[w := zip_with g (take n (mem !!! u)) (take n (mem !!! v)) ++ drop n (mem !!! w)]> mem.
Proof.
  induction n as [|n IH]; intros Hw Hu Hv.
  - rewrite for_loop_empty, !take_0, drop_0. cbn [zip_with app].
    by rewrite insert_lookup_total_id.
  - rewrite for_loop_S, IH by lia.
    pose proof (vec_lt_length mem w n ltac:(lia)) as Hwm.
    set (Z := zip_with g (take n (mem !!! u)) (take n (mem !!! v))).
    assert (HZ : length Z = n).
    { unfold Z. rewrite length_zip_with, !length_take. lia. }
    assert (Hread : forall p, (n < length (mem !!! p))%nat ->
              vec_read (<[w := Z ++ drop n (mem !!! w)]> mem) p n = (mem !!! p) !!! n).
    { intros p Hp. destruct (decide (p = w)) as [->|Hpw].
      - rewrite vec_read_insert_eq by done. by apply lookup_total_done_todo.
      - by rewrite vec_read_insert_ne. }
    rewrite !Hread by lia. rewrite vec_write_insert_eq. f_equal.
    rewrite insert_done_todo by (done || lia). f_equal.
    destruct (lookup_lt_is_Some_2 (mem !!! u) n ltac:(lia)) as [x Hx].
    destruct (lookup_lt_is_Some_2 (mem !!! v) n ltac:(lia)) as [y Hy].
    rewrite (take_S_r _ _ _ Hx), (take_S_r _ _ _ Hy).
    rewrite zip_with_app by (rewrite !length_take; lia).
    by rewrite (list_lookup_total_correct _ _ _ Hx), (list_lookup_total_correct _ _ _ Hy).
Qed.

Lemma binop_loop_full (g : poly -> poly -> poly) (n : nat) (mem : list (list poly)) (w u v : nat) :
  length (mem !!! w) = n -> length (mem !!! u) = n -> length (mem !!! v) = n ->
  for_loop 0 n (fun i mem =>
    vec_write mem w i (g (vec_read mem u i) (vec_read mem v i))) mem
  = <[w := zip_with g (mem !!! u) (mem !!! v)]> mem.
Proof.
  intros Hw Hu Hv. rewrite binop_loop by lia.
  by rewrite !take_ge, drop_ge, app_nil_r by lia.
Qed.

Lemma unop_loop_full (f : poly -> poly) (n : nat) (mem : list (list poly)) (r v : nat) :
  length (mem !!! r) = n -> length (mem !!! v) = n ->
  for_loop 0 n (fun i mem => vec_write mem r i (f (vec_read mem v i))) mem
  = <[r := f <$> mem !!! v]> mem.
Proof.
  intros Hr Hv.
  rewrite (binop_loop_full (fun x _ => f x) n mem r v v) by done. f_equal.
  generalize (mem !!! v). intros l. induction l as [|x l IH]; [done|].
  cbn. by rewrite IH.
Qed.

(** ** From one vector into two *)

Lemma split_loop (f : poly -> poly * poly) (n : nat) (mem : list (list poly)) (v1 v0 v : nat) :
  v1 <> v0 ->
  (n <= length (mem !!! v1))%nat ->
  (n <= length (mem !!! v0))%nat ->
  (n <= length (mem !!! v))%nat ->
  for_loop 0 n (fun i mem =>
    let '(a1, a0) := f (vec_read mem v i) in
    vec_write (vec_write mem v1 i a1) v0 i a0) mem
  = <[v0 := ((fun a => (f a).2) <$> take n (mem !!! v)) ++ drop n (mem !!! v0)]>
      (<[v1 := ((fun a => (f a).1) <$> take n (mem !!! v)) ++ drop n (mem !!! v1)]> mem).
Proof.
  intros Hne. induction n as [|n IH]; intros H1 H0 Hv.
  - rewrite for_loop_empty, !take_0, !drop_0. cbn [fmap list_fmap app].
    rewrite (insert_lookup_total_id mem v1).
    by rewrite insert_lookup_total_id.
  - rewrite for_loop_S, IH by lia.
    pose proof (vec_lt_length mem v1 n ltac:(lia)) as Hm1.
    pose proof (vec_lt_length mem v0 n ltac:(lia)) as Hm0.
    set (A := (fun a => (f a).1) <$> take n (mem !!! v)).
    set (B := (fun a => (f a).2) <$> take n (mem !!! v)).
    assert (HA : length A = n) by (unfold A; rewrite length_fmap, length_take; lia).
    assert (HB : length B = n) by (unfold B; rewrite length_fmap, length_take; lia).
    assert (Hread : vec_read (<[v0 := B ++ drop n (mem !!! v0)]>
                               (<[v1 := A ++ drop n (mem !!! v1)]> mem)) v n
                    = (mem !!! v) !!! n).
    { destruct (decide (v = v0)) as [->|Hv0].
      - rewrite vec_read_insert_eq by (rewrite length_insert; lia).
        by apply lookup_total_done_todo.
      - rewrite vec_read_insert_ne by done.
        destruct (decide (v = v1)) as [->|Hv1].
        + rewrite vec_read_insert_eq by done. by apply lookup_total_done_todo.
        + by rewrite vec_read_insert_ne. }
    rewrite Hread. destruct (f ((mem !!! v) !!! n)) as [a1 a0] eqn:Hf.
    rewrite (vec_write_insert_ne _ v1 v0) by done.
    rewrite vec_write_insert_eq, vec_write_insert_eq.
    rewrite !insert_done_todo by (done || lia).
    destruct (lookup_lt_is_Some_2 (mem !!! v) n ltac:(lia)) as [x Hx].
    rewrite (list_lookup_total_correct _ _ _ Hx) in Hf.
    unfold A, B. rewrite (take_S_r _ _ _ Hx), !fmap_app. cbn [fmap list_fmap].
    by rewrite Hf.
Qed.

Lemma split_loop_full (f : poly -> poly * poly) (n : nat) (mem : list (list poly)) (v1 v0 v : nat) :
  v1 <> v0 ->
  length (mem !!! v1) = n -> length (mem !!! v0) = n -> length (mem !!! v) = n ->
  for_loop 0 n (fun i mem =>
    let '(a1, a0) := f (vec_read mem v i) in
    vec_write (vec_write mem v1 i a1) v0 i a0) mem
  = <[v0 := (fun a => (f a).2) <$> mem !!! v]> (<[v1 := (fun a => (f a).1) <$> mem !!! v]> mem).
Proof.
  intros Hne H1 H0 Hv. rewrite split_loop by (done || lia).
  by rewrite !take_ge, !drop_ge, !app_nil_r by lia.
Qed.

(** ** Packing into one byte array *)

Lemma pack_loop (pack : poly -> list Z) (P n : nat) (w1 : list poly) (r : list Z) :
  (n <= length w1)%nat ->
  (forall i, (i < n)%nat -> length (pack (w1 !!! i)) = P) ->
  (n * P <= length r)%nat ->
  for_loop 0 n (fun i r => list_inserts (i * P) (pack (w1 !!! i)) r) r
  = concat (pack <$> take n w1) ++ drop (n * P) r
  /\ length (concat (pack <$> take n w1)) = (n * P)%nat.
Proof.
  induction n as [|n IH]; intros Hn Hlen Hr.
  - by rewrite for_loop_empty.
  - destruct IH as [IH HC]; [lia | intros i Hi; apply Hlen; lia | lia |].
    rewrite for_loop_S, IH by lia.
    destruct (lookup_lt_is_Some_2 w1 n ltac:(lia)) as [x Hx].
    rewrite (take_S_r _ _ _ Hx), fmap_app, concat_app.
    cbn [fmap list_fmap concat]. rewrite app_nil_r.
    pose proof (Hlen n ltac:(lia)) as HP.
    rewrite (list_lookup_total_correct _ _ _ Hx) in *.
    split; [|rewrite length_app, HC, HP; lia].
    replace (n * P)%nat with (length (concat (pack <$> take n w1)) + 0)%nat at 1 by lia.
    rewrite list_inserts_app_r, <- app_assoc. f_equal.
    rewrite <- (take_drop P (drop (n * P) r)).
    rewrite list_inserts_0_r by (rewrite length_take, length_drop; lia).
    rewrite drop_drop. do 2 f_equal. lia.
Qed.

Section VectorLayerMoreFacts.

Context `{ops : PolyOps} `{more : PolyMoreOps}.
Variable mode : DILITHIUM_MODE.

(** X12. The in-place functions apply their polynomial function to every
    polynomial of the vector, once: the result is the vector mapped. *)
Theorem polyvec_in_place_map (vl : polyvecl) (vk : polyveck) :
  length vl = L mode -> length vk = K mode ->
  (polyvecl_reduce mode vl = poly_reduce <$> vl
   /\ polyvecl_ntt mode vl = poly_ntt <$> vl
   /\ polyvecl_invntt_tomont mode vl = poly_invntt_tomont <$> vl)
  /\ (polyveck_reduce mode vk = poly_reduce <$> vk
   /\ polyveck_caddq mode vk = poly_caddq <$> vk
   /\ polyveck_shiftl mode vk = poly_shiftl <$> vk
   /\ polyveck_ntt mode vk = poly_ntt <$> vk
   /\ polyveck_invntt_tomont mode vk = poly_invntt_tomont <$> vk).
Proof.
  intros Hl Hk.
  unfold polyvecl_reduce, polyvecl_ntt, polyvecl_invntt_tomont, polyveck_reduce,
    polyveck_caddq, polyveck_shiftl, polyveck_ntt, polyveck_invntt_tomont.
  by rewrite !for_loop_alter_fmap.
Qed.

(** X13. The functions from two K-vectors into a third, and the product of a
    polynomial with a K-vector, may be called with the output vector at the
    address of an input: the output receives the entry-wise results on the
    vectors as they were before the call, and no other vector changes. *)
Theorem polyveck_binary_aliasing (mem : list (list poly)) (w u v : nat) (a : poly) :
  length (mem !!! w) = K mode -> length (mem !!! u) = K mode ->
  length (mem !!! v) = K mode ->
  polyveck_add mode mem w u v = <[w := zip_with poly_add (mem !!! u) (mem !!! v)]> mem
  /\ polyveck_sub mode mem w u v = <[w := zip_with poly_sub (mem !!! u) (mem !!! v)]> mem
  /\ polyveck_use_hint mode mem w u v
     = <[w := zip_with poly_use_hint (mem !!! u) (mem !!! v)]> mem
  /\ polyveck_pointwise_poly_montgomery mode mem w a v
     = <[w := poly_pointwise_montgomery a <$> mem !!! v]> mem.
Proof.
  intros Hw Hu Hv.
  unfold polyveck_add, polyveck_sub, polyveck_use_hint, polyveck_pointwise_poly_montgomery.
  rewrite !binop_loop_full by done.
  by rewrite (unop_loop_full (poly_pointwise_montgomery a)).
Qed.

(** X14. The same for the L-vectors: [polyvecl_add] and
    [polyvecl_pointwise_poly_montgomery]. *)
Theorem polyvecl_binary_aliasing (mem : list (list poly)) (w u v : nat) (a : poly) :
  length (mem !!! w) = L mode -> length (mem !!! u) = L mode ->
  length (mem !!! v) = L mode ->
  polyvecl_add mode mem w u v = <[w := zip_with poly_add (mem !!! u) (mem !!! v)]> mem
  /\ polyvecl_pointwise_poly_montgomery mode mem w a v
     = <[w := poly_pointwise_montgomery a <$> mem !!! v]> mem.
Proof.
  intros Hw Hu Hv.
  unfold polyvecl_add, polyvecl_pointwise_poly_montgomery.
  rewrite binop_loop_full by done.
  by rewrite (unop_loop_full (poly_pointwise_montgomery a)).
Qed.

(** X15. [polyveck_power2round] and [polyveck_decompose] into two different
    vectors: [v1] receives the high parts and [v0] the low parts of the
    polynomials that [v] held before the call, also when [v] is [v1] or
    [v0], and no other vector changes. *)
Theorem polyveck_split_aliasing (mem : list (list poly)) (v1 v0 v : nat) :
  v1 <> v0 ->
  length (mem !!! v1) = K mode -> length (mem !!! v0) = K mode ->
  length (mem !!! v) = K mode ->
  polyveck_power2round mode mem v1 v0 v
  = <[v0 := (fun a => (poly_power2round a).2) <$> mem !!! v]>
      (<[v1 := (fun a => (poly_power2round a).1) <$> mem !!! v]> mem)
  /\ polyveck_decompose mode mem v1 v0 v
  = <[v0 := (fun a => (poly_decompose a).2) <$> mem !!! v]>
      (<[v1 := (fun a => (poly_decompose a).1) <$> mem !!! v]> mem).
Proof.
  intros Hne H1 H0 Hv. unfold polyveck_power2round, polyveck_decompose.
  by rewrite !split_loop_full.
Qed.

(** X16. When [polyw1_pack] gives [POLYW1_PACKEDBYTES] bytes for each of the
    K polynomials and [r] has room for them, [polyveck_pack_w1] leaves in [r]
    the packed polynomials one after the other, in the order of the vector,
    followed by what [r] held beyond the first K*POLYW1_PACKEDBYTES bytes. *)
Theorem polyveck_pack_w1_concat (r : list Z) (w1 : polyveck) :
  length w1 = K mode ->
  (forall i, (i < K mode)%nat -> length (polyw1_pack (w1 !!! i)) = POLYW1_PACKEDBYTES mode) ->
  (K mode * POLYW1_PACKEDBYTES mode <= length r)%nat ->
  polyveck_pack_w1 mode r w1
  = concat (polyw1_pack <$> w1) ++ drop (K mode * POLYW1_PACKEDBYTES mode) r
  /\ length (polyveck_pack_w1 mode r w1) = length r.
Proof.
  intros Hw Hlen Hr. unfold polyveck_pack_w1.
  destruct (pack_loop polyw1_pack (POLYW1_PACKEDBYTES mode) (K mode) w1 r) as [Heq HC];
    [lia | done | done |].
  rewrite take_ge in Heq, HC by lia. rewrite Heq. split; [done|].
  rewrite length_app, HC, length_drop. lia.
Qed.

End VectorLayerMoreFacts.

(** ** The theorems on the implementation from the specification *)

(** Level 3: an L-vector and a K-vector of the polynomial [Q, -1]. *)
Lemma polyvec_in_place_map_witness :
  (polyvecl_reduce (more := SpecPolyMore.ops MODE3) MODE3 (replicate 5 [Q; -1])
   = poly_reduce (PolyMoreOps := SpecPolyMore.ops MODE3) <$> replicate 5 [Q; -1]
   /\ polyvecl_ntt (more := SpecPolyMore.ops MODE3) MODE3 (replicate 5 [Q; -1])
   = poly_ntt (PolyMoreOps := SpecPolyMore.ops MODE3) <$> replicate 5 [Q; -1]
   /\ polyvecl_invntt_tomont (more := SpecPolyMore.ops MODE3) MODE3 (replicate 5 [Q; -1])
   = poly_invntt_tomont (PolyMoreOps := SpecPolyMore.ops MODE3) <$> replicate 5 [Q; -1])
  /\ (polyveck_reduce (more := SpecPolyMore.ops MODE3) MODE3 (replicate 6 [Q; -1])
   = poly_reduce (PolyMoreOps := SpecPolyMore.ops MODE3) <$> replicate 6 [Q; -1]
   /\ polyveck_caddq (more := SpecPolyMore.ops MODE3) MODE3 (replicate 6 [Q; -1])
   = poly_caddq (PolyMoreOps := SpecPolyMore.ops MODE3) <$> replicate 6 [Q; -1]
   /\ polyveck_shiftl (more := SpecPolyMore.ops MODE3) MODE3 (replicate 6 [Q; -1])
   = poly_shiftl (PolyMoreOps := SpecPolyMore.ops MODE3) <$> replicate 6 [Q; -1]
   /\ polyveck_ntt (more := SpecPolyMore.ops MODE3) MODE3 (replicate 6 [Q; -1])
   = poly_ntt (PolyMoreOps := SpecPolyMore.ops MODE3) <$> replicate 6 [Q; -1]
   /\ polyveck_invntt_tomont (more := SpecPolyMore.ops MODE3) MODE3 (replicate 6 [Q; -1])
   = poly_invntt_tomont (PolyMoreOps := SpecPolyMore.ops MODE3) <$> replicate 6 [Q; -1]).
Proof.
  apply (polyvec_in_place_map (more := SpecPolyMore.ops MODE3) MODE3
           (replicate 5 [Q; -1]) (replicate 6 [Q; -1])); reflexivity.
Defined.

(** Level 2, two vectors in the store, the sum written over the first
    summand. *)
Lemma polyveck_binary_aliasing_witness :
  polyveck_add (ops := SpecPoly.ops MODE2) MODE2
    [replicate 4 [1; 2]; replicate 4 [10; 20]] 0 0 1
  = [replicate 4 [11; 22]; replicate 4 [10; 20]]
  /\ polyveck_sub (more := SpecPolyMore.ops MODE2) MODE2
    [replicate 4 [1; 2]; replicate 4 [10; 20]] 0 0 1
  = [replicate 4 [-9; -18]; replicate 4 [10; 20]].
Proof.
  destruct (polyveck_binary_aliasing (ops := SpecPoly.ops MODE2)
              (more := SpecPolyMore.ops MODE2) MODE2
              [replicate 4 [1; 2]; replicate 4 [10; 20]] 0 0 1 [])
    as (Hadd & Hsub & _); [reflexivity | reflexivity | reflexivity |].
  split.
  - exact Hadd.
  - exact Hsub.
Defined.

(** Level 3, the product by the polynomial [2^32, 0] written over the
    vector itself. *)
Lemma polyvecl_binary_aliasing_witness :
  polyvecl_add (ops := SpecPoly.ops MODE3) MODE3
    [replicate 5 [1; 2]; replicate 5 [10; 20]] 1 0 1
  = [replicate 5 [1; 2]; replicate 5 [11; 22]]
  /\ polyvecl_pointwise_poly_montgomery (ops := SpecPoly.ops MODE3) MODE3
    [replicate 5 [1; 2]; replicate 5 [10; 20]] 0 [2 ^ 32; 0] 0
  = [replicate 5 [1; 0]; replicate 5 [10; 20]].
Proof.
  destruct (polyvecl_binary_aliasing (ops := SpecPoly.ops MODE3) MODE3
              [replicate 5 [1; 2]; replicate 5 [10; 20]] 1 0 1 [2 ^ 32; 0])
    as (Hadd & _); [reflexivity | reflexivity | reflexivity |].
  destruct (polyvecl_binary_aliasing (ops := SpecPoly.ops MODE3) MODE3
              [replicate 5 [1; 2]; replicate 5 [10; 20]] 0 0 0 [2 ^ 32; 0])
    as (_ & Hmul); [reflexivity | reflexivity | reflexivity |].
  split.
  - exact Hadd.
  - exact Hmul.
Defined.

(** Level 2, the high parts written over the input, as in
    [polyveck_decompose(&w1, &w0, &w1)]. *)
Lemma polyveck_split_aliasing_witness :
  polyveck_power2round (more := SpecPolyMore.ops MODE2) MODE2
    [replicate 4 [8192; 4097]; replicate 4 []] 0 1 0
  = [replicate 4 [1; 1]; replicate 4 [0; -4095]]
  /\ polyveck_decompose (more := SpecPolyMore.ops MODE2) MODE2
    [replicate 4 [8192; 4097]; replicate 4 []] 0 1 0
  = [replicate 4 [0; 0]; replicate 4 [8192; 4097]].
Proof.
  destruct (polyveck_split_aliasing (more := SpecPolyMore.ops MODE2) MODE2
              [replicate 4 [8192; 4097]; replicate 4 []] 0 1 0)
    as (Hp & Hd); [lia | reflexivity | reflexivity | reflexivity |].
  split.
  - exact Hp.
  - exact Hd.
Defined.

(** Level 2, four polynomials with all coefficients 1 into 768 bytes. *)
Lemma polyveck_pack_w1_concat_witness :
  polyveck_pack_w1 (more := SpecPolyMore.ops MODE2) MODE2
    (replicate 768 0) (replicate 4 (replicate 256 1))
  = concat (polyw1_pack (PolyMoreOps := SpecPolyMore.ops MODE2)
              <$> replicate 4 (replicate 256 1))
    ++ drop (K MODE2 * POLYW1_PACKEDBYTES MODE2) (replicate 768 0)
  /\ length (polyveck_pack_w1 (more := SpecPolyMore.ops MODE2) MODE2
               (replicate 768 0) (replicate 4 (replicate 256 1)))
     = length (replicate 768 0).
Proof.
  apply (polyveck_pack_w1_concat (more := SpecPolyMore.ops MODE2) MODE2
           (replicate 768 0) (replicate 4 (replicate 256 1))).
  - reflexivity.
  - intros i _. exact (eq_trans (length_map _ _) (length_seq _ _)).
  - apply Nat.leb_le. vm_compute. reflexivity.
Defined.

(** ** The nonces of the samplers *)

Section SamplerNonces.

Context `{ops : PolyOps}.
Variable mode : DILITHIUM_MODE.

Lemma uniform_eta_vector (v : list poly) (seed : list Z) (nonce : Z) (n : nat) :
  0 <= nonce < 2 ^ 16 -> length v = n ->
  (for_loop 0 n (fun i '(v, nonce) =>
     (<[i := poly_uniform_eta seed nonce]> v, uint16 (nonce + 1))) (v, nonce)).1
  = (fun i => poly_uniform_eta seed (uint16 (nonce + Z.of_nat i))) <$> seq 0 n.
Proof.
  intros Hnonce Hlen. rewrite uniform_eta_loop by lia. cbn [fst].
  by rewrite drop_ge, app_nil_r by lia.
Qed.

(** X19. [polyvecl_uniform_eta] at [nonce] and [polyveck_uniform_eta] at
    [nonce + L] sample the L + K polynomials with the consecutive nonces
    [nonce], [nonce + 1], ... (as [uint16_t]), in the order of the two
    vectors; whatever the vectors held before is overwritten. *)
Theorem polyvec_uniform_eta_consecutive (vl : polyvecl) (vk : polyveck)
    (seed : list Z) (nonce : Z) :
  0 <= nonce < 2 ^ 16 -> length vl = L mode -> length vk = K mode ->
  polyvecl_uniform_eta mode vl seed nonce
  ++ polyveck_uniform_eta mode vk seed (uint16 (nonce + Z.of_nat (L mode)))
  = (fun i => poly_uniform_eta seed (uint16 (nonce + Z.of_nat i)))
      <$> seq 0 (L mode + K mode).
Proof.
  intros Hnonce Hl Hk. unfold polyvecl_uniform_eta, polyveck_uniform_eta.
  rewrite (uniform_eta_vector vl seed nonce (L mode)) by done.
  rewrite (uniform_eta_vector vk seed _ (K mode))
    by (done || (unfold uint16; apply Z.mod_pos_bound; lia)).
  rewrite seq_app, fmap_app. f_equal. cbn [Nat.add].
  replace (seq (L mode) (K mode)) with (Nat.add (L mode) <$> seq 0 (K mode))
    by (rewrite fmap_add_seq; f_equal; lia).
  rewrite <- list_fmap_compose.
  apply list_fmap_ext. intros _ i _. unfold compose. f_equal.
  unfold uint16. rewrite Zplus_mod_idemp_l. f_equal. lia.
Qed.

(** X20. The nonces [L*nonce + i] of [polyvecl_uniform_gamma1].  While
    [L*nonce + L] stays within 16 bits the vector is sampled with exactly
    these nonces and two calls with different [nonce] share none; at level 2
    (L = 4) the 16-bit truncation makes the call at [nonce + 2^14] sample the
    vector of the call at [nonce]. *)
Theorem polyvecl_uniform_gamma1_nonce_space (v : polyvecl) (seed : list Z)
    (nonce nonce' : Z) (i i' : nat) :
  0 <= nonce -> Z.of_nat (L mode) * nonce + Z.of_nat (L mode) <= 2 ^ 16 ->
  0 <= nonce' -> Z.of_nat (L mode) * nonce' + Z.of_nat (L mode) <= 2 ^ 16 ->
  (i < L mode)%nat -> (i' < L mode)%nat -> length v = L mode ->
  polyvecl_uniform_gamma1 mode v seed nonce
  = (fun i => poly_uniform_gamma1 seed (Z.of_nat (L mode) * nonce + Z.of_nat i))
      <$> seq 0 (L mode)
  /\ (uint16 (uadd32 (Z.of_nat (L mode) * nonce) (Z.of_nat i))
      = uint16 (uadd32 (Z.of_nat (L mode) * nonce') (Z.of_nat i'))
      -> nonce = nonce' /\ i = i')
  /\ (mode = MODE2 ->
      polyvecl_uniform_gamma1 mode v seed (nonce + 2 ^ 14)
      = polyvecl_uniform_gamma1 mode v seed nonce).
Proof.
  intros Hn Hn16 Hn' Hn16' Hi Hi' Hlen.
  assert (Hexact : forall (m : Z) (j : nat),
            0 <= m -> Z.of_nat (L mode) * m + Z.of_nat (L mode) <= 2 ^ 16 -> (j < L mode)%nat ->
            uint16 (uadd32 (Z.of_nat (L mode) * m) (Z.of_nat j))
            = Z.of_nat (L mode) * m + Z.of_nat j).
  { intros m j Hm Hm16 Hj. unfold uint16, uadd32.
    rewrite (Z.mod_small _ (2 ^ 32)) by nia. apply Z.mod_small. nia. }
  split; [|split].
  - unfold polyvecl_uniform_gamma1.
    rewrite (for_loop_fill
               (fun i => poly_uniform_gamma1 seed
                           (uint16 (uadd32 (Z.of_nat (L mode) * nonce) (Z.of_nat i))))) by lia.
    rewrite drop_ge, app_nil_r by lia.
    apply list_fmap_ext. intros k j Hj. apply lookup_seq in Hj as [-> Hk].
    f_equal. apply Hexact; (done || lia).
  - rewrite !Hexact by done. intros Heq.
    assert (nonce = nonce') by nia. split; [done|]. subst. lia.
  - intros ->. unfold polyvecl_uniform_gamma1. apply for_loop_ext.
    intros j st _. do 2 f_equal. unfold uint16, uadd32. cbn [L].
    replace (Z.of_nat 4 * (nonce + 2 ^ 14) + Z.of_nat j)
      with (Z.of_nat 4 * nonce + Z.of_nat j + 1 * 2 ^ 16) by lia.
    rewrite !Z.mod_mod_divide by (by exists (2 ^ 16)).
    by rewrite Z.mod_add by lia.
Qed.

End SamplerNonces.

(** Level 3, the all-zero seed. *)
Lemma polyvec_uniform_eta_consecutive_witness :
  polyvecl_uniform_eta (ops := SpecPoly.ops MODE3) MODE3 (replicate 5 []) (replicate 64 0) 0
  ++ polyveck_uniform_eta (ops := SpecPoly.ops MODE3) MODE3 (replicate 6 []) (replicate 64 0)
       (uint16 (0 + Z.of_nat (L MODE3)))
  = (fun i => poly_uniform_eta (PolyOps := SpecPoly.ops MODE3) (replicate 64 0)
                (uint16 (0 + Z.of_nat i)))
      <$> seq 0 (L MODE3 + K MODE3).
Proof.
  apply (polyvec_uniform_eta_consecutive (ops := SpecPoly.ops MODE3) MODE3
           (replicate 5 []) (replicate 6 []) (replicate 64 0) 0).
  - lia.
  - reflexivity.
  - reflexivity.
Defined.

(** Level 2, the nonces 3 and 16387 = 3 + 2^14. *)
Lemma polyvecl_uniform_gamma1_nonce_space_witness :
  polyvecl_uniform_gamma1 (ops := SpecPoly.ops MODE2) MODE2 (replicate 4 []) (replicate 64 0)
    (3 + 2 ^ 14)
  = polyvecl_uniform_gamma1 (ops := SpecPoly.ops MODE2) MODE2 (replicate 4 []) (replicate 64 0) 3.
Proof.
  refine (proj2 (proj2 (polyvecl_uniform_gamma1_nonce_space (ops := SpecPoly.ops MODE2) MODE2
            (replicate 4 []) (replicate 64 0) 3 5 1 2 _ _ _ _ _ _ _)) eq_refl).
  - lia.
  - cbn. lia.
  - lia.
  - cbn. lia.
  - cbn. lia.
  - cbn. lia.
  - reflexivity.
Defined.
